(** * freeze: hardware-enforced immutability for Go values

    A shallow embedding of package [freeze] (Pointer, Slice, Map, Object and
    their helpers copyAndFreeze and mapFreeze) together with the properties
    the design document states about it.

    The program works on raw memory: it maps fresh pages, copies bytes into
    them and takes the write permission away.  The embedding therefore keeps
    an explicit byte-addressed memory whose cells carry a protection, and
    every function of the package is a state transformer over that memory
    that may end in a Go panic or in a hardware fault.

    Platform: linux/amd64 (8-byte words, little endian, 4 KiB pages). *)

From Stdlib Require Import ZArith Lia String.
From coqutil Require Import Byte Word.LittleEndianList.
From stdpp Require Import gmap strings list fin_maps.

Local Open Scope Z_scope.

(* ======================================================================= *)
(** * Memory *)
(* ======================================================================= *)

Module Mem.

(** Protection of a mapped byte.  The package only ever asks for
    PROT_READ|PROT_WRITE (at mmap) and PROT_READ (at mprotect). *)
Inductive prot := PROT_READ_WRITE | PROT_READ.

Global Instance prot_eq_dec : EqDecision prot.
Proof. solve_decision. Defined.

Inductive errno := EINVAL | ENOMEM.

Global Instance errno_eq_dec : EqDecision errno.
Proof. solve_decision. Defined.

(** unix.Getpagesize() *)
Definition pageSize : Z := 4096.

(** End of the user address space: mmap never hands out an address at or
    above it. *)
Definition addrLimit : Z := 2 ^ 47.

(** The memory of the process.
    - [cells]: every mapped byte with its protection; an address that is
      absent is unmapped;
    - [brk]: the address at which the next anonymous mapping is placed;
    - [finalizers]: the mappings registered with runtime.SetFinalizer, as
      (address, length of the byte slice). *)
Record mem := mkMem {
  cells : gmap Z (prot * byte);
  brk : Z;
  finalizers : list (Z * Z);
}.

Definition prot_at (m : mem) (a : Z) : option prot := fst <$> cells m !! a.
Definition load1 (m : mem) (a : Z) : option byte := snd <$> cells m !! a.

Definition writable (m : mem) (a : Z) : Prop := prot_at m a = Some PROT_READ_WRITE.
Definition readonly (m : mem) (a : Z) : Prop := prot_at m a = Some PROT_READ.
Definition mapped (m : mem) (a : Z) : Prop := is_Some (cells m !! a).

Global Instance writable_dec m a : Decision (writable m a).
Proof. unfold writable. apply _. Defined.
Global Instance readonly_dec m a : Decision (readonly m a).
Proof. unfold readonly. apply _. Defined.
Global Instance mapped_dec m a : Decision (mapped m a).
Proof. unfold mapped. apply _. Defined.

(** Length of a mapping: mmap and mprotect work on whole pages. *)
Definition round_up (n : Z) : Z := ((n + pageSize - 1) / pageSize) * pageSize.

(** Read [n] bytes starting at [a]; [None] is an access to an unmapped
    address. *)
Definition loads (m : mem) (a n : Z) : option (list byte) :=
  mapM (load1 m) (seqZ a n).

(** Write [bs] starting at [a]; [None] is an access to an address that is
    unmapped or not writable. *)
Definition stores (m : mem) (a : Z) (bs : list byte) : option mem :=
  if decide (Forall (writable m) (seqZ a (Z.of_nat (length bs))))
  then Some (mkMem (map_seqZ a (pair PROT_READ_WRITE <$> bs) ∪ cells m)
                   (brk m) (finalizers m))
  else None.

Definition store1 (m : mem) (a : Z) (b : byte) : option mem := stores m a [b].

(** mmap(NULL, length, PROT_READ|PROT_WRITE, MAP_ANON|MAP_PRIVATE, -1, 0) as
    wrapped by unix.Mmap: the result is the address of a byte slice of
    [length] zero bytes, or an error.  The pages are new: none of them was
    mapped before.  Where the kernel puts them is its own choice; the model
    fixes one (the lowest address above everything mapped, [brk]), so that a
    call is a function of the memory.  The properties stated of the package
    name a region by the address mmap returned and rely on the pages being
    new, zero and whole, not on where they lie. *)
Definition mmap (length : Z) (m : mem) : mem * (Z + errno) :=
  if decide (length ≤ 0) then (m, inr EINVAL)
  else if decide (addrLimit < brk m + round_up length) then (m, inr ENOMEM)
  else
    (mkMem (map_seqZ (brk m)
              (replicate (Z.to_nat (round_up length)) (PROT_READ_WRITE, Byte.x00))
            ∪ cells m)
           (brk m + round_up length) (finalizers m),
     inl (brk m)).

(** mprotect(addr, len, p) as wrapped by unix.Mprotect on the byte slice
    (addr, len). *)
Definition mprotect (addr len : Z) (p : prot) (m : mem) : mem * option errno :=
  if decide (addr `mod` pageSize ≠ 0) then (m, Some EINVAL)
  else if decide (Forall (mapped m) (seqZ addr (round_up len)))
  then
    (mkMem (map_imap (λ a c, Some (if decide (addr ≤ a < addr + round_up len)
                                   then (p, c.2) else c)) (cells m))
           (brk m) (finalizers m),
     None)
  else (m, Some ENOMEM).

Definition set_finalizer (addr len : Z) (m : mem) : mem :=
  mkMem (cells m) (brk m) ((addr, len) :: finalizers m).

(** A memory the Go runtime can be in: nothing is mapped in the page of the
    nil pointer, nothing at or above [brk], and [brk] is page aligned. *)
Record wf (m : mem) : Prop := {
  wf_low : ∀ a, mapped m a → pageSize ≤ a;
  wf_high : ∀ a, mapped m a → a < brk m;
  wf_brk_pos : pageSize ≤ brk m;
  wf_brk_aligned : brk m `mod` pageSize = 0;
}.

End Mem.
Export Mem.

(* ======================================================================= *)
(** * Computations: state, panics and faults *)
(* ======================================================================= *)

Module Run.

(** The value carried by a Go panic. *)
Inductive panic_value :=
| PanicString (s : string)      (* panic("...") raised by the package *)
| PanicError (e : errno)        (* panic(err) after a failed system call *)
| PanicReflect (s : string).    (* a panic raised inside package reflect *)

(** How a call ends: it returns, it panics with a value of the package, of
    a failed system call or of reflect (the caller may recover), or an
    access to memory is refused by the hardware ([Fault]).  What the Go
    runtime makes of a refused access is not part of the model: a store to a
    page that mprotect made read-only ends the process, while an access
    inside the page of the nil pointer is reported as a run-time panic (nil
    pointer dereference) that a deferred function can recover.  [Fault]
    stands for both; nothing below tells them apart. *)
Inductive outcome (A : Type) :=
| Ok (a : A)
| Panic (p : panic_value)
| Fault.
Arguments Ok {A} a.
Arguments Panic {A} p.
Arguments Fault {A}.

(** A call transforms the memory; the memory is kept in every outcome, so
    that what a panicking call did before the panic stays visible. *)
Definition M (A : Type) : Type := mem → mem * outcome A.

Global Instance M_ret : MRet M := λ A a m, (m, Ok a).
Global Instance M_bind : MBind M := λ A B f c m,
  match c m with
  | (m', Ok a) => f a m'
  | (m', Panic p) => (m', Panic p)
  | (m', Fault) => (m', Fault)
  end.

Definition panic {A} (p : panic_value) : M A := λ m, (m, Panic p).

Definition mem_loads (a n : Z) : M (list byte) := λ m,
  match loads m a n with
  | Some bs => (m, Ok bs)
  | None => (m, Fault)
  end.

Definition mem_stores (a : Z) (bs : list byte) : M unit := λ m,
  match stores m a bs with
  | Some m' => (m', Ok tt)
  | None => (m, Fault)
  end.

(** for x := range l { body(x) } *)
Fixpoint for_each {A} (l : list A) (body : A → M unit) : M unit :=
  match l with
  | [] => mret tt
  | x :: l' => body x ;; for_each l' body
  end.

End Run.
Export Run.

(* ======================================================================= *)
(** * Go values as package reflect sees them *)
(* ======================================================================= *)

(** reflect.Kind; the constants are written reflect.Ptr, reflect.Slice, ...
    as in the source. *)
Module reflect.
Inductive Kind :=
| Invalid | Bool | Int | Int8 | Int16 | Int32 | Int64
| Uint | Uint8 | Uint16 | Uint32 | Uint64 | Uintptr
| Float32 | Float64 | Complex64 | Complex128
| Array | Chan | Func | Interface | Map | Ptr | Slice | String | Struct
| UnsafePointer.

Global Instance Kind_eq_dec : EqDecision Kind.
Proof. solve_decision. Defined.
End reflect.

Module Go.

(** uintptr arithmetic wraps at 64 bits; int(x) reinterprets the bits. *)
Definition uintptr (z : Z) : Z := z `mod` 2 ^ 64.
Definition int (z : Z) : Z :=
  if decide (uintptr z < 2 ^ 63) then uintptr z else uintptr z - 2 ^ 64.

(** The types whose descriptor has no element type the walker looks at. *)
Inductive scalar :=
| SInvalid | SBool | SInt | SInt8 | SInt16 | SInt32 | SInt64
| SUint | SUint8 | SUint16 | SUint32 | SUint64 | SUintptr
| SFloat32 | SFloat64 | SComplex64 | SComplex128
| SChan | SFunc | SInterface | SString | SUnsafePointer.

Definition scalar_kind (k : scalar) : reflect.Kind :=
  match k with
  | SInvalid => reflect.Invalid | SBool => reflect.Bool
  | SInt => reflect.Int | SInt8 => reflect.Int8 | SInt16 => reflect.Int16
  | SInt32 => reflect.Int32 | SInt64 => reflect.Int64
  | SUint => reflect.Uint | SUint8 => reflect.Uint8
  | SUint16 => reflect.Uint16 | SUint32 => reflect.Uint32
  | SUint64 => reflect.Uint64 | SUintptr => reflect.Uintptr
  | SFloat32 => reflect.Float32 | SFloat64 => reflect.Float64
  | SComplex64 => reflect.Complex64 | SComplex128 => reflect.Complex128
  | SChan => reflect.Chan | SFunc => reflect.Func
  | SInterface => reflect.Interface | SString => reflect.String
  | SUnsafePointer => reflect.UnsafePointer
  end.

Definition scalar_size (k : scalar) : Z :=
  match k with
  | SInvalid => 0
  | SBool | SInt8 | SUint8 => 1
  | SInt16 | SUint16 => 2
  | SInt32 | SUint32 | SFloat32 => 4
  | SInt | SInt64 | SUint | SUint64 | SUintptr | SFloat64 | SComplex64
  | SChan | SFunc | SUnsafePointer => 8
  | SComplex128 | SInterface | SString => 16
  end.

(** reflect.Type: the descriptor of a type.  A struct descriptor carries its
    size and, for each field, what reflect.StructField reports: Name,
    PkgPath (empty exactly for an exported field), Type, Offset and
    Anonymous (an embedded field). *)
Inductive type :=
| Scalar (k : scalar)
| PtrTo (elem : type)
| ArrayOf (count : nat) (elem : type)
| SliceOf (elem : type)
| MapOf (key elem : type)
| StructOf (size : Z) (fs : fields)
with fields :=
| FNil
| FCons (name pkgPath : string) (ftype : type) (offset : Z)
        (anonymous : bool) (rest : fields).

Record StructField := mkField {
  Name : string;
  PkgPath : string;
  FType : type;
  Offset : Z;
  Anonymous : bool;
}.

Definition Type_Kind (t : type) : reflect.Kind :=
  match t with
  | Scalar k => scalar_kind k
  | PtrTo _ => reflect.Ptr
  | ArrayOf _ _ => reflect.Array
  | SliceOf _ => reflect.Slice
  | MapOf _ _ => reflect.Map
  | StructOf _ _ => reflect.Struct
  end.

(** Type.Size() *)
Fixpoint Type_Size (t : type) : Z :=
  match t with
  | Scalar k => scalar_size k
  | PtrTo _ => 8
  | ArrayOf n e => Z.of_nat n * Type_Size e
  | SliceOf _ => 24
  | MapOf _ _ => 8
  | StructOf sz _ => sz
  end.

(** Type.Elem() and Type.Key(); reflect panics on the kinds that have none,
    the package never asks for them there. *)
Definition Type_Elem (t : type) : type :=
  match t with
  | PtrTo e | ArrayOf _ e | SliceOf e | MapOf _ e => e
  | _ => Scalar SInvalid
  end.

Definition Type_Key (t : type) : type :=
  match t with
  | MapOf k _ => k
  | _ => Scalar SInvalid
  end.

(** The fields of a struct descriptor, in order: Type.Field(i) for
    i < Type.NumField(). *)
Fixpoint field_list (fs : fields) : list StructField :=
  match fs with
  | FNil => []
  | FCons name pkgPath ftype offset anonymous rest =>
      mkField name pkgPath ftype offset anonymous :: field_list rest
  end.

Definition Type_Fields (t : type) : list StructField :=
  match t with
  | StructOf _ fs => field_list fs
  | _ => []
  end.

(** interface{}: nil, or a dynamic type with the value it holds.  A pointer
    or a map is held in the data word itself; a slice is held as the three
    words of its header (data, len, cap). *)
Record eface := mkEface {
  e_typ : type;
  e_data : list byte;
}.
Definition interface := option eface.

Definition word0 (bs : list byte) : Z := le_combine (take 8 bs).
Definition word1 (bs : list byte) : Z := le_combine (take 8 (drop 8 bs)).
Definition word2 (bs : list byte) : Z := le_combine (take 8 (drop 16 bs)).
Definition set_word0 (w : Z) (bs : list byte) : list byte :=
  le_split 8 w ++ drop 8 bs.

(** reflect.Value: a type, where the value is, and the two read-only flags.
    [Addr a] is an addressable value stored at [a]; [Imm bs] is a value that
    is not addressable, such as the one an interface holds or the copy that
    MapIndex returns. *)
Inductive storage :=
| Addr (a : Z)
| Imm (bs : list byte).

Record Value := mkValue {
  typ : type;
  stor : storage;
  flagStickyRO : bool;
  flagEmbedRO : bool;
}.

Definition flagRO (v : Value) : bool := flagStickyRO v || flagEmbedRO v.
Definition CanAddr (v : Value) : bool :=
  match stor v with Addr _ => true | Imm _ => false end.

Definition zeroValue : Value := mkValue (Scalar SInvalid) (Imm []) false false.

Definition ValueOf (i : interface) : Value :=
  match i with
  | None => zeroValue
  | Some e => mkValue (e_typ e) (Imm (e_data e)) false false
  end.

(** The bytes of the value. *)
Definition Value_bytes (v : Value) : M (list byte) :=
  match stor v with
  | Imm bs => mret bs
  | Addr a => mem_loads a (Type_Size (typ v))
  end.

Definition Value_IsNil (v : Value) : M bool :=
  bs ← Value_bytes v; mret (bool_decide (word0 bs = 0)).

(** v.Elem() of a pointer *)
Definition Value_Elem (v : Value) : M Value :=
  bs ← Value_bytes v;
  if decide (word0 bs = 0) then mret zeroValue
  else mret (mkValue (Type_Elem (typ v)) (Addr (word0 bs))
                     (flagStickyRO v) (flagEmbedRO v)).

(** v.Len() of an array or a slice *)
Definition Value_Len (v : Value) : M Z :=
  match typ v with
  | ArrayOf n _ => mret (Z.of_nat n)
  | _ => bs ← Value_bytes v; mret (int (word1 bs))
  end.

(** v.Index(i) of an array or a slice, for an index below v.Len() *)
Definition Value_Index (v : Value) (i : Z) : M Value :=
  let e := Type_Elem (typ v) in
  match typ v with
  | ArrayOf _ _ =>
      mret (mkValue e
              match stor v with
              | Addr a => Addr (a + i * Type_Size e)
              | Imm bs => Imm (take (Z.to_nat (Type_Size e))
                                 (drop (Z.to_nat (i * Type_Size e)) bs))
              end
              (flagRO v) false)
  | _ =>
      bs ← Value_bytes v;
      mret (mkValue e (Addr (word0 bs + i * Type_Size e)) (flagRO v) false)
  end.

(** v.Field(i), given the descriptor of field i *)
Definition Value_Field (v : Value) (f : StructField) : Value :=
  mkValue (FType f)
    match stor v with
    | Addr a => Addr (a + Offset f)
    | Imm bs => Imm (take (Z.to_nat (Type_Size (FType f)))
                       (drop (Z.to_nat (Offset f)) bs))
    end
    (flagStickyRO v
     || (negb (String.eqb (PkgPath f) EmptyString) && negb (Anonymous f)))
    (negb (String.eqb (PkgPath f) EmptyString) && Anonymous f).

(** v.Set(x): v has to be assignable (not obtained through an unexported
    field, and addressable) and x exported.  A value that lives in memory is
    moved with typedmemmove, which does nothing when source and destination
    are the same address; a value that is held outside memory is stored. *)
Definition Value_Set (v x : Value) : M unit :=
  if flagRO v then
    panic (PanicReflect "reflect: reflect.Value.Set using value obtained using unexported field")
  else
    match stor v with
    | Imm _ => panic (PanicReflect "reflect: reflect.Value.Set using unaddressable value")
    | Addr a =>
        if flagRO x then
          panic (PanicReflect "reflect: reflect.Value.Set using value obtained using unexported field")
        else
          match stor x with
          | Addr b =>
              if decide (b = a) then mret tt
              else bs ← mem_loads b (Type_Size (typ x)); mem_stores a bs
          | Imm bs => mem_stores a bs
          end
    end.

(** v.Interface() *)
Definition Value_Interface (v : Value) : M interface :=
  if flagRO v then
    panic (PanicReflect "reflect.Value.Interface: cannot return value obtained from unexported field or method")
  else
    bs ← Value_bytes v; mret (Some (mkEface (typ v) bs)).

(** The map operations of reflect are carried out by the Go runtime on its
    own representation of buckets; the package only relies on their
    interface. *)
Class MapRuntime := {
  MakeMap : type → M Value;
  Value_MapKeys : Value → M (list Value);
  Value_MapIndex : Value → Value → M Value;
  Value_SetMapIndex : Value → Value → Value → M unit;
}.

End Go.
Export Go.

(* ======================================================================= *)
(** * Package freeze *)
(* ======================================================================= *)

Module Freeze.

(** copy(dst, src) on byte slices given by address and length *)
Definition copy (dst dlen src slen : Z) : M Z :=
  let n := Z.min dlen slen in
  bs ← mem_loads src n; mem_stores dst bs;; mret n.

Definition unix_Mmap (length : Z) : M (Z + errno) := λ m,
  let '(m', r) := mmap length m in (m', Ok r).

Definition unix_Mprotect (addr len : Z) (p : prot) : M (option errno) := λ m,
  let '(m', r) := mprotect addr len p m in (m', Ok r).

(** runtime.SetFinalizer on the new byte slice: the finalizer unmaps it. *)
Definition runtime_SetFinalizer (addr len : Z) : M unit := λ m,
  (set_finalizer addr len m, Ok tt).

(** copyAndFreeze copies n bytes from dataptr into new memory, freezes it,
    and returns a uintptr to the new memory. *)
Definition copyAndFreeze (dataptr n : Z) : M Z :=
  if decide (n = 0) then mret dataptr
  else
    r ← unix_Mmap (int n);
    match r with
    | inr err => panic (PanicError err)
    | inl newMem =>
        runtime_SetFinalizer newMem (int n);;
        copy newMem (int n) dataptr n;;
        err ← unix_Mprotect newMem (int n) PROT_READ;
        match err with
        | Some e => panic (PanicError e)
        | None => mret newMem
        end
    end.

(** The runtime's map header, as declared inside mapFreeze. *)
Definition hmap : type :=
  StructOf 48
    (FCons "count" "freeze" (Scalar SInt) 0 false
    (FCons "flags" "freeze" (Scalar SUint8) 8 false
    (FCons "B" EmptyString (Scalar SUint8) 9 false
    (FCons "hash0" "freeze" (Scalar SUint32) 12 false
    (FCons "buckets" "freeze" (Scalar SUnsafePointer) 16 false
    (FCons "oldbuckets" "freeze" (Scalar SUnsafePointer) 24 false
    (FCons "nevacuate" "freeze" (Scalar SUintptr) 32 false
    (FCons "overflow" "freeze"
       (PtrTo (ArrayOf 2 (PtrTo (SliceOf (Scalar SUnsafePointer))))) 40 false
     FNil)))))))).

Definition hmap_size : Z := Type_Size hmap.            (* unsafe.Sizeof(hmap{}) *)
Definition hmap_offset : Z := Type_Size (Scalar SInt). (* unsafe.Sizeof(int(0)) *)

(** mapFreeze freezes a map's memory: two pages are mapped, the header is
    written across the boundary between them, and the second page is made
    read-only. *)
Definition mapFreeze (dataptr : Z) : M Z :=
  r ← unix_Mmap (pageSize + int (hmap_size - hmap_offset));
  match r with
  | inr err => panic (PanicError err)
  | inl newMem =>
      let newLen := pageSize + int (hmap_size - hmap_offset) in
      runtime_SetFinalizer newMem newLen;;
      let mapMem := newMem + (pageSize - int hmap_offset) in
      let mapLen := newLen - (pageSize - int hmap_offset) in
      copy mapMem mapLen dataptr hmap_size;;
      err ← unix_Mprotect (newMem + pageSize) (newLen - pageSize) PROT_READ;
      match err with
      | Some e => panic (PanicError e)
      | None => mret mapMem
      end
  end.

(** Pointer returns a frozen copy of v, which must be a pointer. *)
Definition Pointer (v : interface) : M interface :=
  match v with
  | None => mret v
  | Some e =>
      let typ := e_typ e in
      if decide (Type_Kind typ ≠ reflect.Ptr) then
        panic (PanicString "Pointer called on non-pointer type")
      else
        let size := Type_Size (Type_Elem typ) in
        p ← copyAndFreeze (word0 (e_data e)) size;
        mret (Some (mkEface (e_typ e) (set_word0 p (e_data e))))
  end.

(** Slice returns a frozen copy of v, which must be a slice.  The interface
    holds the three words of the header ([e_data]); the assignment
    slice[0] = ... overwrites word 0 of that header, which is here the
    header of the interface returned.  The header an interface holds is kept
    with the interface and is not a cell of [mem]: the memory of a call to
    Slice shows the array, not the header. *)
Definition Slice (v : interface) : M interface :=
  match v with
  | None => mret v
  | Some e =>
      let val := ValueOf v in
      if decide (Type_Kind (typ val) ≠ reflect.Slice) then
        panic (PanicString "Slice called on non-slice type")
      else
        len ← Value_Len val;
        let size := uintptr (Type_Size (Type_Elem (typ val)) * uintptr len) in
        p ← copyAndFreeze (word0 (e_data e)) size;
        mret (Some (mkEface (e_typ e) (set_word0 p (e_data e))))
  end.

(** Map returns a frozen copy of v, which must be a map. *)
Definition Map (v : interface) : M interface :=
  match v with
  | None => mret v
  | Some e =>
      let val := ValueOf v in
      if decide (Type_Kind (typ val) ≠ reflect.Map) then
        panic (PanicString "Map called on non-map type")
      else
        p ← mapFreeze (word0 (e_data e));
        mret (Some (mkEface (e_typ e) (set_word0 p (e_data e))))
  end.

(** we only need to recurse into types that might have pointers *)
Definition hasPtrs (t : type) : bool :=
  match Type_Kind t with
  | reflect.Ptr | reflect.Array | reflect.Slice | reflect.Map
  | reflect.Struct => true
  | _ => false
  end.

(** The test of the walker on a field t: t.PkgPath is not empty and
    t.Anonymous is false. *)
Definition unexported (pkgPath : string) (anonymous : bool) : bool :=
  negb (String.eqb pkgPath EmptyString) && negb anonymous.

Section Walker.
Context {RT : MapRuntime}.

(** object updates all pointers in val to point to frozen memory containing
    the same data.  The switch on val.Type().Kind() is a match on the
    descriptor, which is what the recursion descends along. *)
Fixpoint object_at (t : type) (val : Value) {struct t} : M Value :=
  match t with
  | Scalar _ => mret val

  | PtrTo elem =>
      nil ← Value_IsNil val;
      if (nil : bool) then mret val
      else
        (if hasPtrs elem then
           dst ← Value_Elem val;
           src ← Value_Elem val;
           x ← object_at elem src;
           Value_Set dst x
         else mret tt);;
        i ← Value_Interface val;
        i' ← Pointer i;
        mret (ValueOf i')

  | ArrayOf _ elem =>
      (if hasPtrs elem then
         n ← Value_Len val;
         for_each (seqZ 0 n) (λ i,
           dst ← Value_Index val i;
           src ← Value_Index val i;
           x ← object_at elem src;
           Value_Set dst x)
       else mret tt);;
      mret val

  | SliceOf elem =>
      (if hasPtrs elem then
         n ← Value_Len val;
         for_each (seqZ 0 n) (λ i,
           dst ← Value_Index val i;
           src ← Value_Index val i;
           x ← object_at elem src;
           Value_Set dst x)
       else mret tt);;
      i ← Value_Interface val;
      i' ← Slice i;
      mret (ValueOf i')

  | MapOf key elem =>
      val' ← (if hasPtrs elem || hasPtrs key then
                newMap ← MakeMap (typ val);
                keys ← Value_MapKeys val;
                for_each keys (λ k,
                  k' ← object_at key k;
                  v ← Value_MapIndex val k;
                  v' ← object_at elem v;
                  Value_SetMapIndex newMap k' v');;
                mret newMap
              else mret val);
      i ← Value_Interface val';
      i' ← Map i;
      mret (ValueOf i')

  | StructOf _ fs => object_fields fs val;; mret val
  end

with object_fields (fs : fields) (val : Value) {struct fs} : M unit :=
  match fs with
  | FNil => mret tt
  | FCons name pkgPath ftype offset anonymous rest =>
      let t := mkField name pkgPath ftype offset anonymous in
      (if negb (unexported (PkgPath t) (Anonymous t)) && hasPtrs (FType t) then
         x ← object_at ftype (Value_Field val t);
         Value_Set (Value_Field val t) x
       else mret tt);;
      object_fields rest val
  end.

Definition object (val : Value) : M Value := object_at (typ val) val.

(** Object returns a recursively frozen copy of v, which must be a pointer,
    a slice or a map. *)
Definition Object (v : interface) : M interface :=
  match v with
  | None => mret v
  | Some _ =>
      let val := ValueOf v in
      match Type_Kind (typ val) with
      | reflect.Ptr | reflect.Slice | reflect.Map =>
          r ← object val; Value_Interface r
      | _ => panic (PanicString "Object called on invalid type")
      end
  end.

(** The walker without the hasPtrs tests on pointees, elements and fields:
    it recurses into, and writes back, every pointee, every element and
    every exported member, whatever its shape.  The test that decides
    whether a map is rebuilt is kept. *)
Fixpoint naive_object_at (t : type) (val : Value) {struct t} : M Value :=
  match t with
  | Scalar _ => mret val

  | PtrTo elem =>
      nil ← Value_IsNil val;
      if (nil : bool) then mret val
      else
        (dst ← Value_Elem val;
         src ← Value_Elem val;
         x ← naive_object_at elem src;
         Value_Set dst x);;
        i ← Value_Interface val;
        i' ← Pointer i;
        mret (ValueOf i')

  | ArrayOf _ elem =>
      (n ← Value_Len val;
       for_each (seqZ 0 n) (λ i,
         dst ← Value_Index val i;
         src ← Value_Index val i;
         x ← naive_object_at elem src;
         Value_Set dst x));;
      mret val

  | SliceOf elem =>
      (n ← Value_Len val;
       for_each (seqZ 0 n) (λ i,
         dst ← Value_Index val i;
         src ← Value_Index val i;
         x ← naive_object_at elem src;
         Value_Set dst x));;
      i ← Value_Interface val;
      i' ← Slice i;
      mret (ValueOf i')

  | MapOf key elem =>
      val' ← (if hasPtrs elem || hasPtrs key then
                newMap ← MakeMap (typ val);
                keys ← Value_MapKeys val;
                for_each keys (λ k,
                  k' ← naive_object_at key k;
                  v ← Value_MapIndex val k;
                  v' ← naive_object_at elem v;
                  Value_SetMapIndex newMap k' v');;
                mret newMap
              else mret val);
      i ← Value_Interface val';
      i' ← Map i;
      mret (ValueOf i')

  | StructOf _ fs => naive_object_fields fs val;; mret val
  end

with naive_object_fields (fs : fields) (val : Value) {struct fs} : M unit :=
  match fs with
  | FNil => mret tt
  | FCons name pkgPath ftype offset anonymous rest =>
      let t := mkField name pkgPath ftype offset anonymous in
      (if negb (unexported (PkgPath t) (Anonymous t)) then
         x ← naive_object_at ftype (Value_Field val t);
         Value_Set (Value_Field val t) x
       else mret tt);;
      naive_object_fields rest val
  end.

Definition naive_object (val : Value) : M Value := naive_object_at (typ val) val.

Definition naive_Object (v : interface) : M interface :=
  match v with
  | None => mret v
  | Some _ =>
      let val := ValueOf v in
      match Type_Kind (typ val) with
      | reflect.Ptr | reflect.Slice | reflect.Map =>
          r ← naive_object val; Value_Interface r
      | _ => panic (PanicString "Object called on invalid type")
      end
  end.

End Walker.

End Freeze.
Export Freeze.

(* ======================================================================= *)
(** * Notions used to state the properties *)
(* ======================================================================= *)

Module Notions.

(** [refines c1 c2]: whenever [c1] returns, [c2] returns the same value and
    leaves the same memory. *)
Definition refines {A} (c1 c2 : M A) : Prop :=
  ∀ m m' a, c1 m = (m', Ok a) → c2 m = (m', Ok a).

Scheme type_fields_ind := Induction for type Sort Prop
  with fields_type_ind := Induction for fields Sort Prop.
Combined Scheme type_fields_mutind from type_fields_ind, fields_type_ind.

(** [grows m m']: from [m] to [m'] mappings were only added above the old
    [brk], the protection of every address below it is what it was, and so
    is the content of every byte there that could not be written. *)
Definition grows (m m' : mem) : Prop :=
  brk m ≤ brk m' ∧
  (∀ x, x < brk m → prot_at m' x = prot_at m x) ∧
  (∀ x, x < brk m → ¬ writable m x → load1 m' x = load1 m x).

(** [safe c m Q]: started in [m], the computation [c] keeps the protection
    of what exists; if it returns, [Q] holds of the memory and the result;
    and if it panics, the panic is that of a failed system call. *)
Definition safe {A} (c : M A) (m : mem) (Q : mem → A → Prop) : Prop :=
  ∀ m' o, c m = (m', o) →
    grows m m' ∧
    match o with
    | Ok a => Q m' a
    | Panic p => ∃ e, p = PanicError e
    | Fault => True
    end.

(** The types on which the walker needs nothing but memory: no map, and no
    embedded field that is unexported, among the parts the walker visits. *)
Fixpoint plain (t : type) : bool :=
  match t with
  | Scalar _ => true
  | PtrTo e | ArrayOf _ e | SliceOf e => plain e
  | MapOf _ _ => false
  | StructOf _ fs => plain_fields fs
  end
with plain_fields (fs : fields) : bool :=
  match fs with
  | FNil => true
  | FCons _ pkgPath ftype _ anonymous rest =>
      (unexported pkgPath anonymous
       || (String.eqb pkgPath EmptyString && plain ftype))
      && plain_fields rest
  end.

(** The value occupies [n] bytes. *)
Definition has_size (v : Value) (n : Z) : Prop :=
  match stor v with
  | Addr _ => Type_Size (typ v) = n
  | Imm bs => Z.of_nat (length bs) = n
  end.

(** What the walker asks of the value it is given: its descriptor, no
    read-only flag, and an address when it is an array or a struct. *)
Definition walkable (t : type) (val : Value) : Prop :=
  typ val = t ∧ flagRO val = false ∧
  match t with
  | ArrayOf _ _ | StructOf _ _ => CanAddr val = true
  | _ => True
  end.

(** The struct descriptors in which the walker visits no field: every field
    is unexported and not embedded, or has a type without pointers. *)
Fixpoint no_visited_field (fs : fields) : bool :=
  match fs with
  | FNil => true
  | FCons _ pkgPath ftype _ anonymous rest =>
      (unexported pkgPath anonymous || negb (hasPtrs ftype))
      && no_visited_field rest
  end.

(** The state of the walker inside a slice of pointers to [t], after it has
    dealt with the first [k] elements: the array is at [d] and held the words
    [ws], whose pointees held [bss]; the frozen copies are placed from [b0]
    on, one rounded region each.  The elements dealt with point to the
    read-only copies, the others and all the pointees are as they were. *)
Definition elements_frozen (t : type) (d b0 : Z) (ws bss : list (list byte))
    (k : nat) (m : mem) : Prop :=
  let sz := Type_Size t in
  let R := round_up sz in
  wf m ∧ brk m = b0 + Z.of_nat k * R ∧
  (∀ x, d ≤ x < d + Z.of_nat (length ws) * 8 → writable m x) ∧
  (∀ (i : nat) w, (k ≤ i)%nat → ws !! i = Some w →
     loads m (d + Z.of_nat i * 8) 8 = Some w) ∧
  (∀ (i : nat) w bs, ws !! i = Some w → bss !! i = Some bs →
     loads m (word0 w) sz = Some bs) ∧
  (∀ (i : nat) bs, (i < k)%nat → bss !! i = Some bs →
     loads m (d + Z.of_nat i * 8) 8 = Some (le_split 8 (b0 + Z.of_nat i * R)) ∧
     loads m (b0 + Z.of_nat i * R) sz = Some bs ∧
     (∀ x, b0 + Z.of_nat i * R ≤ x < b0 + Z.of_nat i * R + R → readonly m x)).

(** The struct descriptors with an embedded field that is unexported and
    whose type may hold pointers, at any position. *)
Fixpoint has_embedded_unexported (fs : fields) : bool :=
  match fs with
  | FNil => false
  | FCons _ pkgPath ftype _ anonymous rest =>
      (negb (String.eqb pkgPath EmptyString) && anonymous && hasPtrs ftype)
      || has_embedded_unexported rest
  end.


End Notions.
Export Notions.

(* ======================================================================= *)
(** * Concrete memories and values *)
(* ======================================================================= *)

Module Examples.

(** A memory holding the given objects (address, bytes), all writable. *)
Definition mem_of (objs : list (Z * list byte)) (b : Z) : mem :=
  mkMem (foldr (λ o c, map_seqZ o.1 (pair PROT_READ_WRITE <$> o.2) ∪ c) ∅ objs)
        b [].

(** A runtime without maps, for programs that use none: every map
    operation of reflect panics. *)
Definition no_map_runtime : MapRuntime := {|
  MakeMap _ := panic (PanicReflect "reflect: no map support");
  Value_MapKeys _ := panic (PanicReflect "reflect: no map support");
  Value_MapIndex _ _ := panic (PanicReflect "reflect: no map support");
  Value_SetMapIndex _ _ _ := panic (PanicReflect "reflect: no map support");
|}.

Definition ptr (a : Z) : list byte := le_split 8 a.
Definition slice_header (data len cap : Z) : list byte :=
  le_split 8 data ++ le_split 8 len ++ le_split 8 cap.

(** x := 3; &x *)
Definition mem_int : mem := mem_of [(0x10000, le_split 8 3)] 0x20000.
Definition ptr_int : interface :=
  Some (mkEface (PtrTo (Scalar SInt)) (ptr 0x10000)).

(** xs := make([]int, 3, 4) holding 1, 2, 3 *)
Definition mem_slice : mem :=
  mem_of [(0x10000, le_split 8 1 ++ le_split 8 2 ++ le_split 8 3 ++ le_split 8 0)]
         0x20000.
Definition slice_int : interface :=
  Some (mkEface (SliceOf (Scalar SInt)) (slice_header 0x10000 3 4)).

(** m := map[int]int{1: 1}: the header of the map (count 1, a bucket
    pointer) and, next to it, room for its bucket. *)
Definition hmap_image (count flags B hash0 buckets : Z) : list byte :=
  le_split 8 count ++ le_split 1 flags ++ le_split 1 B ++ le_split 2 0
  ++ le_split 4 hash0 ++ le_split 8 buckets ++ le_split 8 0 ++ le_split 8 0
  ++ le_split 8 0.
Definition mem_map : mem :=
  mem_of [(0x10000, hmap_image 1 0 0 0x5eed 0x10100);
          (0x10100, replicate 144 Byte.x00)] 0x20000.
Definition map_int_int : interface :=
  Some (mkEface (MapOf (Scalar SInt) (Scalar SInt)) (ptr 0x10000)).

(** m := map[int]int{}: an empty map that is not nil. *)
Definition mem_empty_map : mem :=
  mem_of [(0x10000, hmap_image 0 0 0 0x5eed 0)] 0x20000.

(** xs := []**int{q, q}, where q points to a pointer to an int: the two
    elements of the slice are the same pointer. *)
Definition mem_shared : mem :=
  mem_of [(0x10000, le_split 8 7);
          (0x10008, ptr 0x10000);
          (0x10010, ptr 0x10008 ++ ptr 0x10008)] 0x20000.
Definition slice_shared : interface :=
  Some (mkEface (SliceOf (PtrTo (PtrTo (Scalar SInt))))
                (slice_header 0x10010 2 2)).

(** type inner struct{ X *int }; type outer struct{ inner }; x := 5;
    s := outer{inner{&x}}: the only field of outer is embedded and
    unexported. *)
Definition inner_t : type :=
  StructOf 8 (FCons "X" EmptyString (PtrTo (Scalar SInt)) 0 false FNil).


(** x := 3; p := &x; &p *)
Definition mem_ptr_ptr : mem :=
  mem_of [(0x10000, le_split 8 3); (0x10008, ptr 0x10000)] 0x20000.
Definition ptr_ptr_int : interface :=
  Some (mkEface (PtrTo (PtrTo (Scalar SInt))) (ptr 0x10008)).

(** type foo struct{ b []byte }; f := &foo{[]byte{1, 2, 3}} *)
Definition foo_private_t : type :=
  StructOf 24 (FCons "b" "main" (SliceOf (Scalar SUint8)) 0 false FNil).
Definition mem_foo_private : mem :=
  mem_of [(0x10000, [Byte.x01; Byte.x02; Byte.x03]);
          (0x10008, slice_header 0x10000 3 3)] 0x20000.
Definition ptr_foo_private : interface :=
  Some (mkEface (PtrTo foo_private_t) (ptr 0x10008)).

(** a, b := 1, 2; xs := []*int{&a, &b} *)
Definition mem_two_ptrs : mem :=
  mem_of [(0x10000, le_split 8 1); (0x10008, le_split 8 2);
          (0x10010, ptr 0x10000 ++ ptr 0x10008)] 0x20000.
Definition slice_two_ptrs : interface :=
  Some (mkEface (SliceOf (PtrTo (Scalar SInt))) (slice_header 0x10010 2 2)).

(** type outer2 struct{ P *int; inner }; s := outer2{&x, inner{&x}}: the
    embedded unexported field comes after an exported pointer. *)
Definition outer2_t : type :=
  StructOf 16
    (FCons "P" EmptyString (PtrTo (Scalar SInt)) 0 false
    (FCons "inner" "main" inner_t 8 true FNil)).
Definition mem_embedded2 : mem :=
  mem_of [(0x10000, le_split 8 5); (0x10008, ptr 0x10000 ++ ptr 0x10000)]
         0x20000.



End Examples.

(* ======================================================================= *)
(** * Facts about the memory *)
(* ======================================================================= *)

Module MemFacts.

Lemma pageSize_pos : 0 < pageSize.
Proof. reflexivity. Qed.

Lemma round_up_ge n : n ≤ round_up n.
Proof.
  unfold round_up. pose proof pageSize_pos.
  pose proof (Z.mul_succ_div_gt (n + pageSize - 1) pageSize). lia.
Qed.

Lemma round_up_lt n : round_up n < n + pageSize.
Proof.
  unfold round_up. pose proof pageSize_pos.
  pose proof (Z.mul_div_le (n + pageSize - 1) pageSize). lia.
Qed.

Lemma round_up_aligned n : round_up n `mod` pageSize = 0.
Proof. unfold round_up. apply Z.mod_mul. pose proof pageSize_pos. lia. Qed.

Lemma round_up_two_pages n :
  0 < n ≤ pageSize → round_up (pageSize + n) = 2 * pageSize.
Proof.
  intros Hn. unfold round_up. pose proof pageSize_pos.
  replace (pageSize + n + pageSize - 1) with ((n - 1) + 2 * pageSize) by lia.
  rewrite Z.div_add by lia. rewrite Z.div_small by lia. lia.
Qed.

Lemma aligned_add a n :
  a `mod` pageSize = 0 → n `mod` pageSize = 0 → (a + n) `mod` pageSize = 0.
Proof.
  intros Ha Hn. pose proof pageSize_pos.
  rewrite Z.add_mod by lia. rewrite Ha, Hn. reflexivity.
Qed.

(** ** loads *)

Lemma loads_Some m a n bs :
  loads m a n = Some bs ↔
  length bs = Z.to_nat n ∧
  ∀ i : nat, (i < Z.to_nat n)%nat → load1 m (a + Z.of_nat i) = bs !! i.
Proof.
  unfold loads. rewrite mapM_Some. split.
  - intros HF. pose proof (Forall2_length _ _ _ HF) as Hlen.
    rewrite length_seqZ in Hlen. split; [done|].
    intros i Hi.
    destruct (Forall2_lookup_l _ _ _ i (a + Z.of_nat i) HF) as (b & Hb & Hl).
    { apply lookup_seqZ_lt. lia. }
    by rewrite Hb.
  - intros [Hlen Hl]. apply Forall2_same_length_lookup_2.
    { by rewrite length_seqZ. }
    intros i x b Hx Hb. apply lookup_seqZ in Hx as [-> Hi].
    rewrite Hl by lia. done.
Qed.

Lemma loads_length m a n bs : loads m a n = Some bs → length bs = Z.to_nat n.
Proof. intros H. by apply loads_Some in H as [? _]. Qed.

Lemma loads_ext m m' a n :
  (∀ x, a ≤ x < a + n → load1 m' x = load1 m x) → loads m' a n = loads m a n.
Proof.
  intros Hx. destruct (loads m a n) as [bs|] eqn:E.
  - apply loads_Some in E as [Hlen Hl]. apply loads_Some. split; [done|].
    intros i Hi. rewrite Hx by lia. by apply Hl.
  - destruct (loads m' a n) as [bs|] eqn:E'; [|done].
    apply loads_Some in E' as [Hlen Hl].
    assert (loads m a n = Some bs) as E2; [|congruence].
    apply loads_Some. split; [done|].
    intros i Hi. rewrite <- Hx by lia. by apply Hl.
Qed.

Lemma loads_mapped m a n bs x :
  loads m a n = Some bs → a ≤ x < a + n → mapped m x.
Proof.
  intros [Hlen Hl]%loads_Some Hx.
  assert (Hi : (Z.to_nat (x - a) < Z.to_nat n)%nat) by lia.
  specialize (Hl _ Hi). rewrite Z2Nat.id in Hl by lia.
  replace (a + (x - a)) with x in Hl by lia.
  destruct (bs !! Z.to_nat (x - a)) as [b|] eqn:E.
  - unfold load1 in Hl. unfold mapped.
    destruct (cells m !! x); [eauto|done].
  - apply lookup_ge_None in E. lia.
Qed.

Lemma loads_is_Some m a n :
  (∀ x, a ≤ x < a + n → mapped m x) → is_Some (loads m a n).
Proof.
  intros Hm. unfold loads. apply mapM_is_Some. apply Forall_seqZ.
  intros x Hx. destruct (Hm x Hx) as [c Hc]. unfold compose, load1.
  rewrite Hc. eauto.
Qed.

Lemma stores_Some m a bs m' :
  stores m a bs = Some m' ↔
  Forall (writable m) (seqZ a (Z.of_nat (length bs))) ∧
  m' = mkMem (map_seqZ a (pair PROT_READ_WRITE <$> bs) ∪ cells m)
             (brk m) (finalizers m).
Proof.
  unfold stores. case_decide; split; intros H'.
  - by inversion H'.
  - destruct H' as [_ ->]. done.
  - done.
  - by destruct H'.
Qed.

Lemma stores_None m a bs :
  stores m a bs = None ↔
  ∃ x, a ≤ x < a + Z.of_nat (length bs) ∧ ¬ writable m x.
Proof.
  unfold stores. case_decide as HF; split; intros H'; try done.
  - destruct H' as (x & Hx & Hn). rewrite Forall_seqZ in HF.
    destruct Hn. by apply HF.
  - apply not_Forall_Exists in HF; [|apply _].
    apply Exists_exists in HF as (x & Hx & Hn).
    apply elem_of_seqZ in Hx. eauto.
Qed.

Lemma lookup_seq_union {A} (b : Z) (l : list A) (cs : gmap Z A) x :
  (map_seqZ b l ∪ cs) !! x =
  if decide (b ≤ x < b + Z.of_nat (length l)) then l !! Z.to_nat (x - b)
  else cs !! x.
Proof.
  rewrite lookup_union, lookup_map_seqZ. case_decide as Hx.
  - rewrite option_guard_True by lia. simpl.
    destruct (l !! Z.to_nat (x - b)) eqn:E.
    + by rewrite union_Some_l.
    + apply lookup_ge_None in E. lia.
  - destruct (decide (b ≤ x)).
    + rewrite option_guard_True by lia. simpl.
      rewrite (proj2 (lookup_ge_None l _)) by lia. by rewrite (left_id_L None _).
    + rewrite option_guard_False by lia. simpl. by rewrite (left_id_L None _).
Qed.

Lemma lookup_stores m a bs m' x :
  stores m a bs = Some m' →
  cells m' !! x =
  if decide (a ≤ x < a + Z.of_nat (length bs))
  then pair PROT_READ_WRITE <$> bs !! Z.to_nat (x - a)
  else cells m !! x.
Proof.
  intros [_ ->]%stores_Some. simpl. rewrite lookup_seq_union.
  rewrite length_fmap, list_lookup_fmap. done.
Qed.

Lemma brk_stores m a bs m' : stores m a bs = Some m' → brk m' = brk m.
Proof. by intros [_ ->]%stores_Some. Qed.

Lemma finalizers_stores m a bs m' :
  stores m a bs = Some m' → finalizers m' = finalizers m.
Proof. by intros [_ ->]%stores_Some. Qed.

Lemma prot_at_stores m a bs m' x :
  stores m a bs = Some m' → prot_at m' x = prot_at m x.
Proof.
  intros Hs. unfold prot_at. rewrite (lookup_stores _ _ _ _ _ Hs).
  case_decide as Hx; [|done].
  apply stores_Some in Hs as [HF _]. rewrite Forall_seqZ in HF.
  specialize (HF x Hx). unfold writable, prot_at in HF. rewrite HF.
  destruct (bs !! Z.to_nat (x - a)) eqn:E; [done|].
  apply lookup_ge_None in E. lia.
Qed.

Lemma load1_stores m a bs m' x :
  stores m a bs = Some m' →
  load1 m' x =
  if decide (a ≤ x < a + Z.of_nat (length bs)) then bs !! Z.to_nat (x - a)
  else load1 m x.
Proof.
  intros Hs. unfold load1. rewrite (lookup_stores _ _ _ _ _ Hs).
  case_decide; [|done]. by destruct (bs !! Z.to_nat (x - a)).
Qed.

Lemma loads_stores_same m a bs m' :
  stores m a bs = Some m' → loads m' a (Z.of_nat (length bs)) = Some bs.
Proof.
  intros Hs. apply loads_Some. split; [lia|].
  intros i Hi. rewrite (load1_stores _ _ _ _ _ Hs).
  rewrite decide_True by lia. f_equal. lia.
Qed.

Lemma loads_stores_other m a bs m' b n :
  stores m a bs = Some m' →
  b + n ≤ a ∨ a + Z.of_nat (length bs) ≤ b →
  loads m' b n = loads m b n.
Proof.
  intros Hs Hd. apply loads_ext. intros x Hx.
  rewrite (load1_stores _ _ _ _ _ Hs). rewrite decide_False by lia. done.
Qed.

Lemma stores_is_Some m a bs :
  (∀ x, a ≤ x < a + Z.of_nat (length bs) → writable m x) →
  is_Some (stores m a bs).
Proof.
  intros Hw. unfold stores. rewrite decide_True; [eauto|].
  by apply Forall_seqZ.
Qed.

Lemma stores_readonly m a bs x :
  a ≤ x < a + Z.of_nat (length bs) → ¬ writable m x → stores m a bs = None.
Proof. intros Hx Hn. apply stores_None. eauto. Qed.

(** Writing back the bytes that are there changes nothing. *)
Lemma stores_loads_id m a n bs m' :
  loads m a n = Some bs → stores m a bs = Some m' → m' = m.
Proof.
  intros [Hlen Hl]%loads_Some [HF ->]%stores_Some.
  destruct m as [cs b fs]. simpl in *. f_equal.
  apply map_eq. intros x. rewrite lookup_seq_union.
  rewrite length_fmap, list_lookup_fmap.
  case_decide as Hx; [|done].
  rewrite Forall_seqZ in HF. specialize (HF x Hx).
  assert (Hi : (Z.to_nat (x - a) < Z.to_nat n)%nat) by lia.
  specialize (Hl _ Hi). rewrite Z2Nat.id in Hl by lia.
  replace (a + (x - a)) with x in Hl by lia.
  rewrite <- Hl. unfold writable, prot_at, load1 in *. simpl in *.
  destruct (cs !! x) as [[p c]|]; simpl in *; [|done]. congruence.
Qed.

(** ** mmap *)

Lemma mmap_inl m n m' a :
  mmap n m = (m', inl a) ↔
  0 < n ∧ brk m + round_up n ≤ addrLimit ∧ a = brk m ∧
  m' = mkMem (map_seqZ (brk m)
                (replicate (Z.to_nat (round_up n)) (PROT_READ_WRITE, Byte.x00))
              ∪ cells m)
             (brk m + round_up n) (finalizers m).
Proof.
  unfold mmap. repeat case_decide; split; intros H'; try done;
    try (destruct H' as (? & ? & ? & ?); lia).
  - inversion H'. repeat split; (lia || done).
  - destruct H' as (_ & _ & -> & ->). done.
Qed.

Lemma mmap_inr m n m' e : mmap n m = (m', inr e) → m' = m.
Proof. unfold mmap. repeat case_decide; intros H'; by inversion H'. Qed.

Lemma mmap_ok m n :
  0 < n → brk m + round_up n ≤ addrLimit →
  ∃ m', mmap n m = (m', inl (brk m)).
Proof. intros. eexists. apply mmap_inl. eauto. Qed.

Lemma lookup_mmap m n m' a x :
  mmap n m = (m', inl a) →
  cells m' !! x =
  if decide (a ≤ x < a + round_up n) then Some (PROT_READ_WRITE, Byte.x00)
  else cells m !! x.
Proof.
  intros (Hn & _ & -> & ->)%mmap_inl. simpl. rewrite lookup_seq_union.
  rewrite length_replicate. pose proof (round_up_ge n).
  rewrite Z2Nat.id by lia. case_decide as Hx; [|done].
  apply lookup_replicate_2. lia.
Qed.

Lemma brk_mmap m n m' a :
  mmap n m = (m', inl a) → brk m' = brk m + round_up n.
Proof. by intros (_ & _ & _ & ->)%mmap_inl. Qed.

Lemma finalizers_mmap m n m' r : mmap n m = (m', r) → finalizers m' = finalizers m.
Proof.
  destruct r as [a|e].
  - by intros (_ & _ & _ & ->)%mmap_inl.
  - by intros ->%mmap_inr.
Qed.

(** ** mprotect *)

Lemma mprotect_None m addr len p m' :
  mprotect addr len p m = (m', None) ↔
  addr `mod` pageSize = 0 ∧
  Forall (mapped m) (seqZ addr (round_up len)) ∧
  m' = mkMem (map_imap (λ a c, Some (if decide (addr ≤ a < addr + round_up len)
                                     then (p, c.2) else c)) (cells m))
             (brk m) (finalizers m).
Proof.
  unfold mprotect. repeat case_decide; split; intros H'; try done.
  - destruct H' as (? & _). done.
  - inversion H'. done.
  - destruct H' as (_ & _ & ->). done.
  - destruct H' as (_ & ? & _). done.
Qed.

Lemma mprotect_Some m addr len p m' e :
  mprotect addr len p m = (m', Some e) → m' = m.
Proof. unfold mprotect. repeat case_decide; intros H'; by inversion H'. Qed.

Lemma lookup_mprotect m addr len p m' x :
  mprotect addr len p m = (m', None) →
  cells m' !! x =
  (λ c, if decide (addr ≤ x < addr + round_up len) then (p, c.2) else c)
    <$> cells m !! x.
Proof.
  intros (_ & _ & ->)%mprotect_None. simpl. rewrite map_lookup_imap.
  by destruct (cells m !! x).
Qed.

Lemma brk_mprotect m addr len p m' r :
  mprotect addr len p m = (m', r) → brk m' = brk m.
Proof.
  destruct r as [e|].
  - by intros ->%mprotect_Some.
  - by intros (_ & _ & ->)%mprotect_None.
Qed.

Lemma finalizers_mprotect m addr len p m' r :
  mprotect addr len p m = (m', r) → finalizers m' = finalizers m.
Proof.
  destruct r as [e|].
  - by intros ->%mprotect_Some.
  - by intros (_ & _ & ->)%mprotect_None.
Qed.

Lemma load1_mprotect m addr len p m' r x :
  mprotect addr len p m = (m', r) → load1 m' x = load1 m x.
Proof.
  destruct r as [e|].
  - by intros ->%mprotect_Some.
  - intros Hp. unfold load1. rewrite (lookup_mprotect _ _ _ _ _ _ Hp).
    destruct (cells m !! x); simpl; [|done]. by case_decide.
Qed.

Lemma prot_at_mprotect m addr len p m' x :
  mprotect addr len p m = (m', None) →
  prot_at m' x =
  if decide (addr ≤ x < addr + round_up len) then (λ _, p) <$> prot_at m x
  else prot_at m x.
Proof.
  intros Hp. unfold prot_at. rewrite (lookup_mprotect _ _ _ _ _ _ Hp).
  destruct (cells m !! x); simpl; by case_decide.
Qed.

(** ** Well-formed memories stay well formed *)

Lemma mapped_prot_at m x : mapped m x ↔ is_Some (prot_at m x).
Proof. unfold mapped, prot_at. by rewrite fmap_is_Some. Qed.

Lemma writable_mapped m x : writable m x → mapped m x.
Proof. intros H. apply mapped_prot_at. unfold writable in H. by rewrite H. Qed.

Lemma readonly_not_writable m x : readonly m x → ¬ writable m x.
Proof. unfold readonly, writable. congruence. Qed.

Lemma wf_stores m a bs m' : wf m → stores m a bs = Some m' → wf m'.
Proof.
  intros [H1 H2 H3 H4] Hs.
  assert (∀ x, mapped m' x → mapped m x) as Hm.
  { intros x. rewrite !mapped_prot_at. by rewrite (prot_at_stores _ _ _ _ _ Hs). }
  rewrite <- (brk_stores _ _ _ _ Hs) in *. split; eauto.
Qed.

Lemma wf_mmap m n m' a : wf m → mmap n m = (m', inl a) → wf m'.
Proof.
  intros [H1 H2 H3 H4] Hm.
  pose proof (round_up_ge n). pose proof (round_up_aligned n).
  pose proof (brk_mmap _ _ _ _ Hm) as Hb.
  assert (∀ x, mapped m' x → a ≤ x < a + round_up n ∨ mapped m x) as Hx.
  { intros x. unfold mapped. rewrite (lookup_mmap _ _ _ _ _ Hm).
    case_decide; eauto. }
  apply mmap_inl in Hm as (Hn & _ & -> & _).
  split.
  - intros x [?|?]%Hx; [lia|eauto].
  - intros x [?|Hmx]%Hx; [lia|]. specialize (H2 x Hmx). lia.
  - lia.
  - rewrite Hb. by apply aligned_add.
Qed.

Lemma wf_mprotect m addr len p m' r : wf m → mprotect addr len p m = (m', r) → wf m'.
Proof.
  intros Hwf Hp. destruct r as [e|].
  { by apply mprotect_Some in Hp as ->. }
  destruct Hwf as [H1 H2 H3 H4].
  assert (∀ x, mapped m' x → mapped m x) as Hm.
  { intros x. unfold mapped. rewrite (lookup_mprotect _ _ _ _ _ _ Hp).
    by rewrite fmap_is_Some. }
  rewrite <- (brk_mprotect _ _ _ _ _ _ Hp) in *. split; eauto.
Qed.

Lemma wf_set_finalizer m a n : wf m → wf (set_finalizer a n m).
Proof. intros [H1 H2 H3 H4]. split; eauto. Qed.

End MemFacts.

(* ======================================================================= *)
(** * Facts about computations *)
(* ======================================================================= *)

Module RunFacts.

Lemma bind_unfold {A B} (c : M A) (k : A → M B) m :
  (c ≫= k) m =
  match c m with
  | (m', Ok a) => k a m'
  | (m', Panic p) => (m', Panic p)
  | (m', Fault) => (m', Fault)
  end.
Proof. reflexivity. Qed.

Lemma ret_unfold {A} (a : A) m : (mret a : M A) m = (m, Ok a).
Proof. reflexivity. Qed.

Lemma bind_step {A B} (c : M A) (k : A → M B) m m1 a :
  c m = (m1, Ok a) → (c ≫= k) m = k a m1.
Proof. intros H. rewrite bind_unfold, H. done. Qed.

Lemma bind_Ok {A B} (c : M A) (k : A → M B) m m' b :
  (c ≫= k) m = (m', Ok b) ↔ ∃ m1 a, c m = (m1, Ok a) ∧ k a m1 = (m', Ok b).
Proof.
  rewrite bind_unfold. destruct (c m) as [m1 [a| |]]; split.
  - eauto.
  - intros (? & ? & [= <- <-] & ?). done.
  - done.
  - intros (? & ? & [=] & _).
  - done.
  - intros (? & ? & [=] & _).
Qed.

(** A computation that stops early, or goes on. *)
Lemma bind_inv {A B} (c : M A) (k : A → M B) m m' o :
  (c ≫= k) m = (m', o) →
  (∃ m1 a, c m = (m1, Ok a) ∧ k a m1 = (m', o)) ∨
  (c m = (m', Fault) ∧ o = Fault) ∨
  (∃ p, c m = (m', Panic p) ∧ o = Panic p).
Proof.
  rewrite bind_unfold. destruct (c m) as [m1 [a| |]]; intros H.
  - left. eauto.
  - inversion H. right. right. eauto.
  - inversion H. right. left. eauto.
Qed.

Lemma mem_loads_Ok a n m m' bs :
  mem_loads a n m = (m', Ok bs) ↔ m' = m ∧ loads m a n = Some bs.
Proof.
  unfold mem_loads. destruct (loads m a n); split.
  - by intros [= <- <-].
  - by intros [-> [= ->]].
  - done.
  - by intros [_ ?].
Qed.

Lemma mem_loads_inv a n m m' o : mem_loads a n m = (m', o) → m' = m.
Proof. unfold mem_loads. destruct (loads m a n); by intros [= <- _]. Qed.

Lemma mem_stores_Ok a bs m m' u :
  mem_stores a bs m = (m', Ok u) ↔ stores m a bs = Some m'.
Proof.
  unfold mem_stores. destruct (stores m a bs); split.
  - by intros [= <-].
  - intros [= ->]. by destruct u.
  - done.
  - done.
Qed.


Lemma mem_stores_inv a bs m m' (o : outcome unit) :
  mem_stores a bs m = (m', o) →
  (o = Ok tt ∧ stores m a bs = Some m') ∨ (o = Fault ∧ m' = m ∧ stores m a bs = None).
Proof.
  unfold mem_stores. destruct (stores m a bs); intros [= <- <-]; eauto.
Qed.

End RunFacts.

(* ======================================================================= *)
(** * copyAndFreeze and mapFreeze *)
(* ======================================================================= *)

Module FreezeFacts.
Import MemFacts RunFacts.

Lemma uintptr_small n : 0 ≤ n < 2 ^ 64 → uintptr n = n.
Proof. intros. unfold uintptr. by apply Z.mod_small. Qed.

Lemma int_small n : 0 ≤ n < 2 ^ 63 → int n = n.
Proof.
  intros. unfold int. rewrite uintptr_small by lia.
  by rewrite decide_True by lia.
Qed.

Lemma copyAndFreeze_zero dataptr m : copyAndFreeze dataptr 0 m = (m, Ok dataptr).
Proof. reflexivity. Qed.

(** What a call of copyAndFreeze leaves behind, however it ends: nothing
    below the old [brk] has changed, and a panic is the panic of a failed
    system call. *)
Lemma copyAndFreeze_frame dataptr n m m' o :
  copyAndFreeze dataptr n m = (m', o) →
  brk m ≤ brk m' ∧
  (∀ x, x < brk m → cells m' !! x = cells m !! x) ∧
  (∀ p, o = Panic p → ∃ e, p = PanicError e).
Proof.
  unfold copyAndFreeze. case_decide as Hn.
  { intros [= <- <-]. split; [lia|]. split; [done|]. intros ? [=]. }
  rewrite bind_unfold. unfold unix_Mmap.
  destruct (mmap (int n) m) as [m1 [a|e]] eqn:Emm.
  2:{ apply mmap_inr in Emm as ->. intros [= <- <-].
      split; [lia|]. split; [done|]. intros ? [= <-]. eauto. }
  pose proof (λ x, lookup_mmap _ _ _ _ x Emm) as L1.
  pose proof (brk_mmap _ _ _ _ Emm) as B1.
  pose proof Emm as (Hpos & _ & -> & _)%mmap_inl.
  pose proof (round_up_ge (int n)) as Hru.
  rewrite bind_unfold. unfold runtime_SetFinalizer at 1.
  set (m2 := set_finalizer (brk m) (int n) m1).
  rewrite bind_unfold. unfold copy at 1. rewrite bind_unfold.
  assert (∀ x, x < brk m → cells m2 !! x = cells m !! x) as L2.
  { intros x Hx. simpl. rewrite (L1 x). rewrite decide_False by lia. done. }
  destruct (mem_loads dataptr (Z.min (int n) n) m2) as [m3 [bs| |]] eqn:El.
  2:{ unfold mem_loads in El. by destruct (loads m2 dataptr _). }
  2:{ intros [= <- <-]. apply mem_loads_inv in El as ->.
      split; [simpl; lia|]. split; [done|]. intros ? [=]. }
  apply mem_loads_Ok in El as [-> El].
  rewrite bind_unfold.
  destruct (mem_stores (brk m) bs m2) as [m4 [[]| |]] eqn:Es.
  2:{ by apply mem_stores_inv in Es as [[[=] _]|([=] & _)]. }
  2:{ intros [= <- <-]. apply mem_stores_inv in Es as [[[=] _]|(_ & -> & _)].
      split; [simpl; lia|]. split; [done|]. intros ? [=]. }
  apply mem_stores_Ok in Es.
  assert (∀ x, x < brk m → cells m4 !! x = cells m !! x) as L4.
  { intros x Hx. rewrite (lookup_stores _ _ _ _ x Es).
    rewrite decide_False by lia. by apply L2. }
  assert (brk m4 = brk m + round_up (int n)) as B4.
  { rewrite (brk_stores _ _ _ _ Es). simpl. done. }
  rewrite ret_unfold, bind_unfold. unfold unix_Mprotect.
  destruct (mprotect (brk m) (int n) PROT_READ m4) as [m5 [e|]] eqn:Ep.
  - apply mprotect_Some in Ep as ->. intros [= <- <-].
    split; [lia|]. split; [done|]. intros ? [= <-]. eauto.
  - intros [= <- <-]. rewrite (brk_mprotect _ _ _ _ _ _ Ep).
    split; [lia|]. split; [|intros ? [=]].
    intros x Hx. rewrite (lookup_mprotect _ _ _ _ _ x Ep).
    rewrite L4 by done. destruct (cells m !! x); simpl; [|done].
    by rewrite decide_False by lia.
Qed.

(** What a returning call of copyAndFreeze has done, when it had something
    to copy. *)
Lemma copyAndFreeze_Ok dataptr n m m' r :
  n ≠ 0 → copyAndFreeze dataptr n m = (m', Ok r) →
  r = brk m ∧ 0 < int n ∧
  brk m' = brk m + round_up (int n) ∧ brk m' ≤ addrLimit ∧
  finalizers m' = (brk m, int n) :: finalizers m ∧
  (∀ x, brk m ≤ x < brk m' → readonly m' x).
Proof.
  intros Hn. unfold copyAndFreeze. rewrite decide_False by done.
  rewrite bind_unfold. unfold unix_Mmap.
  destruct (mmap (int n) m) as [m1 [a|e]] eqn:Emm; [|done].
  pose proof (brk_mmap _ _ _ _ Emm) as B1.
  pose proof (finalizers_mmap _ _ _ _ Emm) as F1.
  pose proof Emm as (Hpos & Hlim & -> & _)%mmap_inl.
  rewrite bind_unfold. unfold runtime_SetFinalizer at 1.
  set (m2 := set_finalizer (brk m) (int n) m1).
  rewrite bind_unfold. unfold copy at 1. rewrite bind_unfold.
  destruct (mem_loads dataptr (Z.min (int n) n) m2) as [m3 [bs| |]] eqn:El;
    [|done..].
  apply mem_loads_Ok in El as [-> El]. rewrite bind_unfold.
  destruct (mem_stores (brk m) bs m2) as [m4 [[]| |]] eqn:Es; [|done..].
  apply mem_stores_Ok in Es.
  rewrite ret_unfold, bind_unfold. unfold unix_Mprotect.
  destruct (mprotect (brk m) (int n) PROT_READ m4) as [m5 [e|]] eqn:Ep; [done|].
  intros [= <- <-].
  rewrite (brk_mprotect _ _ _ _ _ _ Ep), (brk_stores _ _ _ _ Es).
  rewrite (finalizers_mprotect _ _ _ _ _ _ Ep), (finalizers_stores _ _ _ _ Es).
  simpl. rewrite B1, F1. repeat split; try done; try lia.
  intros x Hx. unfold readonly. rewrite (prot_at_mprotect _ _ _ _ _ x Ep).
  rewrite decide_True by lia.
  apply mprotect_None in Ep as (_ & HF & _). rewrite Forall_seqZ in HF.
  assert (mapped m4 x) as [c Hc]%mapped_prot_at by (apply HF; lia).
  by rewrite Hc.
Qed.

(** copyAndFreeze returns whenever the source can be read and the address
    space has room, and the new mapping then holds the source bytes followed
    by zeros. *)
Lemma copyAndFreeze_spec dataptr n m bs :
  wf m → 0 < n < 2 ^ 63 →
  loads m dataptr n = Some bs →
  brk m + round_up n ≤ addrLimit →
  ∃ m', copyAndFreeze dataptr n m = (m', Ok (brk m)) ∧
        wf m' ∧
        loads m' (brk m) n = Some bs ∧
        (∀ x, brk m + n ≤ x < brk m + round_up n → load1 m' x = Some Byte.x00).
Proof.
  intros Hwf Hn Hl Hlim.
  pose proof (round_up_ge n) as Hru.
  destruct (mmap_ok m n) as [m1 Emm]; [lia|done|].
  pose proof (λ x, lookup_mmap _ _ _ _ x Emm) as L1.
  pose proof (wf_mmap _ _ _ _ Hwf Emm) as Hwf1.
  set (m2 := set_finalizer (brk m) n m1).
  assert (wf m2) as Hwf2 by by apply wf_set_finalizer.
  assert (loads m2 dataptr n = Some bs) as Hl2.
  { rewrite <- Hl. apply loads_ext. intros x Hx. unfold load1. simpl.
    rewrite L1. rewrite decide_False; [done|].
    pose proof (wf_high _ Hwf x (loads_mapped _ _ _ _ _ Hl Hx)). lia. }
  pose proof (loads_length _ _ _ _ Hl) as Hlen.
  destruct (stores_is_Some m2 (brk m) bs) as [m4 Es].
  { intros x Hx. unfold writable, prot_at. simpl. rewrite L1.
    rewrite decide_True by lia. done. }
  pose proof (wf_stores _ _ _ _ Hwf2 Es) as Hwf4.
  destruct (mprotect (brk m) n PROT_READ m4) as [m5 r] eqn:Ep.
  pose proof (wf_mprotect _ _ _ _ _ _ Hwf4 Ep) as Hwf5.
  assert (r = None) as ->.
  { destruct r as [e|]; [|done]. exfalso.
    unfold mprotect in Ep. rewrite decide_False in Ep.
    2:{ intros Hne. apply Hne. apply Hwf. }
    rewrite decide_True in Ep; [done|].
    apply Forall_seqZ. intros x Hx. apply mapped_prot_at.
    rewrite (prot_at_stores _ _ _ _ x Es). unfold prot_at. simpl.
    rewrite L1. rewrite decide_True by lia. eauto. }
  exists m5. split; [|split; [done|split]].
  - unfold copyAndFreeze. rewrite decide_False by lia.
    rewrite int_small by lia.
    rewrite bind_unfold. unfold unix_Mmap. rewrite Emm.
    rewrite bind_unfold. unfold runtime_SetFinalizer at 1. fold m2.
    rewrite bind_unfold. unfold copy at 1. rewrite Z.min_id.
    rewrite bind_unfold.
    rewrite (proj2 (mem_loads_Ok dataptr n m2 m2 bs)) by done.
    rewrite bind_unfold.
    rewrite (proj2 (mem_stores_Ok (brk m) bs m2 m4 tt)) by done.
    rewrite ret_unfold, bind_unfold. unfold unix_Mprotect. rewrite Ep. done.
  - rewrite <- (loads_stores_same _ _ _ _ Es).
    replace (Z.of_nat (length bs)) with n by lia.
    apply loads_ext. intros x Hx. by apply (load1_mprotect _ _ _ _ _ _ _ Ep).
  - intros x Hx. rewrite (load1_mprotect _ _ _ _ _ _ x Ep).
    rewrite (load1_stores _ _ _ _ x Es). rewrite decide_False by lia.
    unfold load1. simpl. rewrite L1. rewrite decide_True by lia. done.
Qed.

Lemma hmap_size_val : hmap_size = 48.
Proof. reflexivity. Qed.

Lemma hmap_offset_val : hmap_offset = 8.
Proof. reflexivity. Qed.

Lemma round_up_small n : 0 < n ≤ pageSize → round_up n = pageSize.
Proof.
  intros Hn. unfold round_up. pose proof pageSize_pos.
  replace (n + pageSize - 1) with ((n - 1) + 1 * pageSize) by lia.
  rewrite Z.div_add by lia. rewrite Z.div_small by lia. lia.
Qed.

(** mapFreeze, unfolded on the constants of the header. *)
Lemma mapFreeze_unfold dataptr :
  mapFreeze dataptr =
  (r ← unix_Mmap (pageSize + 40);
   match r with
   | inr err => panic (PanicError err)
   | inl newMem =>
       runtime_SetFinalizer newMem (pageSize + 40);;
       copy (newMem + (pageSize - 8)) (pageSize + 40 - (pageSize - 8)) dataptr 48;;
       err ← unix_Mprotect (newMem + pageSize) (pageSize + 40 - pageSize) PROT_READ;
       match err with
       | Some e => panic (PanicError e)
       | None => mret (newMem + (pageSize - 8))
       end
   end).
Proof. reflexivity. Qed.

Lemma mapFreeze_frame dataptr m m' o :
  mapFreeze dataptr m = (m', o) →
  brk m ≤ brk m' ∧
  (∀ x, x < brk m → cells m' !! x = cells m !! x) ∧
  (∀ p, o = Panic p → ∃ e, p = PanicError e).
Proof.
  rewrite mapFreeze_unfold.
  rewrite bind_unfold. unfold unix_Mmap.
  destruct (mmap (pageSize + 40) m) as [m1 [a|e]] eqn:Emm.
  2:{ apply mmap_inr in Emm as ->. intros [= <- <-].
      split; [lia|]. split; [done|]. intros ? [= <-]. eauto. }
  pose proof (λ x, lookup_mmap _ _ _ _ x Emm) as L1.
  pose proof (brk_mmap _ _ _ _ Emm) as B1.
  pose proof Emm as (Hpos & _ & -> & _)%mmap_inl.
  pose proof (round_up_ge (pageSize + 40)) as Hru.
  assert (pageSize = 4096) as Hps by reflexivity.
  rewrite bind_unfold. unfold runtime_SetFinalizer at 1.
  set (m2 := set_finalizer (brk m) (pageSize + 40) m1).
  rewrite bind_unfold. unfold copy at 1. rewrite bind_unfold.
  assert (∀ x, x < brk m → cells m2 !! x = cells m !! x) as L2.
  { intros x Hx. simpl. rewrite (L1 x). rewrite decide_False by lia. done. }
  match goal with |- context [mem_loads ?a ?k m2] =>
    destruct (mem_loads a k m2) as [m3 [bs| |]] eqn:El end.
  2:{ unfold mem_loads in El. by destruct (loads m2 dataptr _). }
  2:{ intros [= <- <-]. apply mem_loads_inv in El as ->.
      split; [simpl; lia|]. split; [done|]. intros ? [=]. }
  apply mem_loads_Ok in El as [-> El].
  rewrite bind_unfold.
  destruct (mem_stores (brk m + (pageSize - 8)) bs m2) as [m4 [[]| |]] eqn:Es.
  2:{ by apply mem_stores_inv in Es as [[[=] _]|([=] & _)]. }
  2:{ intros [= <- <-]. apply mem_stores_inv in Es as [[[=] _]|(_ & -> & _)].
      split; [simpl; lia|]. split; [done|]. intros ? [=]. }
  apply mem_stores_Ok in Es.
  assert (∀ x, x < brk m → cells m4 !! x = cells m !! x) as L4.
  { intros x Hx. rewrite (lookup_stores _ _ _ _ x Es).
    rewrite decide_False by lia. by apply L2. }
  assert (brk m4 = brk m + round_up (pageSize + 40)) as B4.
  { rewrite (brk_stores _ _ _ _ Es). simpl. done. }
  rewrite ret_unfold, bind_unfold. unfold unix_Mprotect.
  match goal with |- context [mprotect ?a ?k PROT_READ m4] =>
    destruct (mprotect a k PROT_READ m4) as [m5 [e|]] eqn:Ep end.
  - apply mprotect_Some in Ep as ->. intros [= <- <-].
    split; [lia|]. split; [done|]. intros ? [= <-]. eauto.
  - intros [= <- <-]. rewrite (brk_mprotect _ _ _ _ _ _ Ep).
    split; [lia|]. split; [|intros ? [=]].
    intros x Hx. rewrite (lookup_mprotect _ _ _ _ _ x Ep).
    rewrite L4 by done. destruct (cells m !! x); simpl; [|done].
    by rewrite decide_False by lia.
Qed.

(** What a returning call of mapFreeze has done. *)
Lemma mapFreeze_Ok dataptr m m' r :
  mapFreeze dataptr m = (m', Ok r) →
  r = brk m + (pageSize - 8) ∧
  brk m' = brk m + 2 * pageSize ∧ brk m' ≤ addrLimit ∧
  finalizers m' = (brk m, pageSize + 40) :: finalizers m ∧
  (∀ x, brk m + pageSize ≤ x < brk m' → readonly m' x).
Proof.
  rewrite mapFreeze_unfold.
  rewrite bind_unfold. unfold unix_Mmap.
  destruct (mmap (pageSize + 40) m) as [m1 [a|e]] eqn:Emm; [|done].
  pose proof (brk_mmap _ _ _ _ Emm) as B1.
  pose proof (finalizers_mmap _ _ _ _ Emm) as F1.
  pose proof Emm as (Hpos & Hlim & -> & _)%mmap_inl.
  assert (pageSize = 4096) as Hps by reflexivity.
  rewrite round_up_two_pages in B1, Hlim by lia.
  rewrite bind_unfold. unfold runtime_SetFinalizer at 1.
  set (m2 := set_finalizer (brk m) (pageSize + 40) m1).
  rewrite bind_unfold. unfold copy at 1. rewrite bind_unfold.
  match goal with |- context [mem_loads ?a ?k m2] =>
    destruct (mem_loads a k m2) as [m3 [bs| |]] eqn:El end; [|done..].
  apply mem_loads_Ok in El as [-> El]. rewrite bind_unfold.
  destruct (mem_stores (brk m + (pageSize - 8)) bs m2) as [m4 [[]| |]] eqn:Es;
    [|done..].
  apply mem_stores_Ok in Es.
  rewrite ret_unfold, bind_unfold. unfold unix_Mprotect.
  match goal with |- context [mprotect ?a ?k PROT_READ m4] =>
    destruct (mprotect a k PROT_READ m4) as [m5 [e|]] eqn:Ep end; [done|].
  intros [= <- <-].
  rewrite (brk_mprotect _ _ _ _ _ _ Ep), (brk_stores _ _ _ _ Es).
  rewrite (finalizers_mprotect _ _ _ _ _ _ Ep), (finalizers_stores _ _ _ _ Es).
  simpl. rewrite B1, F1. repeat split; try done; try lia.
  intros x Hx. unfold readonly. rewrite (prot_at_mprotect _ _ _ _ _ x Ep).
  replace (pageSize + 40 - pageSize) with 40 in * by lia.
  rewrite (round_up_small 40) by lia.
  rewrite decide_True by lia.
  apply mprotect_None in Ep as (_ & HF & _).
  rewrite (round_up_small 40) in HF by lia. rewrite Forall_seqZ in HF.
  assert (mapped m4 x) as [c Hc]%mapped_prot_at by (apply HF; lia).
  by rewrite Hc.
Qed.

(** mapFreeze returns whenever the header can be read and the address space
    has room for two pages; the header image then lies across the page
    boundary, the first page is writable and the second is read-only. *)
Lemma mapFreeze_spec dataptr m img :
  wf m →
  loads m dataptr 48 = Some img →
  brk m + 2 * pageSize ≤ addrLimit →
  ∃ m', mapFreeze dataptr m = (m', Ok (brk m + (pageSize - 8))) ∧
        wf m' ∧
        loads m' (brk m + (pageSize - 8)) 48 = Some img ∧
        (∀ x, brk m ≤ x < brk m + pageSize → writable m' x).
Proof.
  intros Hwf Hl Hlim.
  assert (pageSize = 4096) as Hps by reflexivity.
  assert (round_up (pageSize + 40) = 2 * pageSize) as Hru
    by (apply round_up_two_pages; lia).
  destruct (mmap_ok m (pageSize + 40)) as [m1 Emm]; [lia|lia|].
  pose proof (λ x, lookup_mmap _ _ _ _ x Emm) as L1.
  rewrite Hru in L1.
  pose proof (wf_mmap _ _ _ _ Hwf Emm) as Hwf1.
  set (m2 := set_finalizer (brk m) (pageSize + 40) m1).
  assert (wf m2) as Hwf2 by by apply wf_set_finalizer.
  assert (loads m2 dataptr 48 = Some img) as Hl2.
  { rewrite <- Hl. apply loads_ext. intros x Hx. unfold load1. simpl.
    rewrite L1. rewrite decide_False; [done|].
    pose proof (wf_high _ Hwf x (loads_mapped _ _ _ _ _ Hl Hx)). lia. }
  pose proof (loads_length _ _ _ _ Hl) as Hlen.
  destruct (stores_is_Some m2 (brk m + (pageSize - 8)) img) as [m4 Es].
  { intros x Hx. unfold writable, prot_at. simpl. rewrite L1.
    rewrite decide_True by lia. done. }
  pose proof (wf_stores _ _ _ _ Hwf2 Es) as Hwf4.
  destruct (mprotect (brk m + pageSize) 40 PROT_READ m4) as [m5 r] eqn:Ep.
  pose proof (wf_mprotect _ _ _ _ _ _ Hwf4 Ep) as Hwf5.
  assert (r = None) as ->.
  { destruct r as [e|]; [|done]. exfalso.
    unfold mprotect in Ep. rewrite decide_False in Ep.
    2:{ intros Hne. apply Hne. apply aligned_add; [apply Hwf|].
        apply Z.mod_same. lia. }
    rewrite decide_True in Ep; [done|].
    rewrite (round_up_small 40) by lia.
    apply Forall_seqZ. intros x Hx. apply mapped_prot_at.
    rewrite (prot_at_stores _ _ _ _ x Es). unfold prot_at. simpl.
    rewrite L1. rewrite decide_True by lia. eauto. }
  exists m5. split; [|split; [done|split]].
  - rewrite mapFreeze_unfold.
    rewrite bind_unfold. unfold unix_Mmap. rewrite Emm.
    rewrite bind_unfold. unfold runtime_SetFinalizer at 1. fold m2.
    rewrite bind_unfold. unfold copy at 1.
    replace (Z.min (pageSize + 40 - (pageSize - 8)) 48) with 48 by lia.
    rewrite bind_unfold.
    rewrite (proj2 (mem_loads_Ok dataptr 48 m2 m2 img)) by done.
    rewrite bind_unfold.
    rewrite (proj2 (mem_stores_Ok _ img m2 m4 tt)) by done.
    rewrite ret_unfold, bind_unfold. unfold unix_Mprotect.
    replace (pageSize + 40 - pageSize) with 40 by lia.
    rewrite Ep. done.
  - rewrite <- (loads_stores_same _ _ _ _ Es).
    replace (Z.of_nat (length img)) with 48 by lia.
    apply loads_ext. intros x Hx. by apply (load1_mprotect _ _ _ _ _ _ _ Ep).
  - intros x Hx. unfold writable.
    rewrite (prot_at_mprotect _ _ _ _ _ x Ep).
    rewrite decide_False by lia.
    rewrite (prot_at_stores _ _ _ _ x Es). unfold prot_at. simpl.
    rewrite L1. rewrite decide_True by lia. done.
Qed.

End FreezeFacts.

(* ======================================================================= *)
(** * Words of an interface value *)
(* ======================================================================= *)

Module WordFacts.

Lemma word0_bound bs : 0 ≤ word0 bs < 2 ^ 64.
Proof.
  unfold word0. pose proof (le_combine_bound (take 8 bs)) as H.
  assert (length (take 8 bs) ≤ 8)%nat by (rewrite length_take; lia).
  assert (2 ^ (8 * Z.of_nat (length (take 8 bs))) ≤ 2 ^ 64).
  { apply Z.pow_le_mono_r; lia. }
  lia.
Qed.

Lemma word0_le_split p bs : 0 ≤ p < 2 ^ 64 → word0 (le_split 8 p ++ bs) = p.
Proof.
  intros Hp. unfold word0. rewrite take_app_length'
    by (by rewrite length_le_split).
  rewrite le_combine_split. apply Z.mod_small. simpl. lia.
Qed.

Lemma word0_ptr p : 0 ≤ p < 2 ^ 64 → word0 (le_split 8 p) = p.
Proof.
  intros Hp. rewrite <- (app_nil_r (le_split 8 p)). by apply word0_le_split.
Qed.

Lemma word0_set_word0 p bs : 0 ≤ p < 2 ^ 64 → word0 (set_word0 p bs) = p.
Proof. apply word0_le_split. Qed.

Lemma set_word0_word0 bs : (8 ≤ length bs)%nat → set_word0 (word0 bs) bs = bs.
Proof.
  intros Hlen. unfold set_word0, word0.
  assert (length (take 8 bs) = 8%nat) as H8 by (rewrite length_take; lia).
  rewrite <- H8 at 1. rewrite split_le_combine. apply take_drop.
Qed.

Lemma length_set_word0 p bs :
  (8 ≤ length bs)%nat → length (set_word0 p bs) = length bs.
Proof.
  intros. unfold set_word0.
  rewrite length_app, length_le_split, length_drop. lia.
Qed.

Lemma drop_set_word0 p bs : drop 8 (set_word0 p bs) = drop 8 bs.
Proof.
  unfold set_word0. rewrite drop_app_length'; [done|].
  by rewrite length_le_split.
Qed.

Lemma word1_set_word0 p bs : word1 (set_word0 p bs) = word1 bs.
Proof. unfold word1. by rewrite drop_set_word0. Qed.

Lemma word2_set_word0 p bs : word2 (set_word0 p bs) = word2 bs.
Proof.
  unfold word2. replace 16%nat with (8 + 8)%nat by done.
  rewrite <- !drop_drop. by rewrite drop_set_word0.
Qed.

End WordFacts.

(* ======================================================================= *)
(** * The concrete memories are well formed *)
(* ======================================================================= *)

Module ExampleFacts.
Import Examples MemFacts.

Lemma mapped_mem_of objs b x :
  mapped (mem_of objs b) x →
  Exists (λ o, o.1 ≤ x < o.1 + Z.of_nat (length o.2)) objs.
Proof.
  unfold mapped. simpl. induction objs as [|[a bs] objs IH]; simpl.
  - rewrite lookup_empty. by intros [? [=]].
  - rewrite lookup_seq_union, length_fmap. case_decide as Hx.
    + intros _. by left.
    + intros H. right. by apply IH.
Qed.

Lemma wf_mem_of objs b :
  Forall (λ o, pageSize ≤ o.1 ∧ o.1 + Z.of_nat (length o.2) ≤ b) objs →
  pageSize ≤ b → b `mod` pageSize = 0 →
  wf (mem_of objs b).
Proof.
  intros HF Hb Hal. split; [| |done|done].
  - intros x Hx%mapped_mem_of. rewrite Exists_exists in Hx.
    destruct Hx as (o & Ho & Hx). rewrite Forall_forall in HF.
    specialize (HF o Ho). lia.
  - intros x Hx%mapped_mem_of. rewrite Exists_exists in Hx.
    destruct Hx as (o & Ho & Hx). rewrite Forall_forall in HF.
    specialize (HF o Ho). simpl. lia.
Qed.

Lemma wf_mem_int : wf mem_int.
Proof.
  apply wf_mem_of; [|done..]. repeat constructor; (by vm_compute).
Qed.

Lemma prot_mem_of objs b x c :
  cells (mem_of objs b) !! x = Some c → c.1 = PROT_READ_WRITE.
Proof.
  unfold mem_of. cbn [cells].
  induction objs as [|o objs IH]; cbn [foldr]; [by rewrite lookup_empty|].
  rewrite lookup_seq_union. case_decide; [|done].
  rewrite list_lookup_fmap. by intros (? & _ & ->)%fmap_Some.
Qed.

Lemma writable_mem_of objs b x :
  Exists (λ o, o.1 ≤ x < o.1 + Z.of_nat (length o.2)) objs →
  writable (mem_of objs b) x.
Proof.
  intros Hex.
  assert (is_Some (cells (mem_of objs b) !! x)) as [c Hc].
  { unfold mem_of. cbn [cells].
    induction Hex as [o objs Ho|o objs Hex IH]; cbn [foldr];
      rewrite lookup_seq_union; case_decide as Hd.
    - rewrite list_lookup_fmap. apply fmap_is_Some, lookup_lt_is_Some_2. lia.
    - rewrite length_fmap in Hd. lia.
    - rewrite list_lookup_fmap. apply fmap_is_Some, lookup_lt_is_Some_2.
      rewrite length_fmap in Hd. lia.
    - done. }
  unfold writable, prot_at. rewrite Hc. cbn.
  by rewrite (prot_mem_of _ _ _ _ Hc).
Qed.

Lemma wf_mem_ptr_ptr : wf mem_ptr_ptr.
Proof. apply wf_mem_of; [|done..]. repeat constructor; (by vm_compute). Qed.

Lemma wf_mem_foo_private : wf mem_foo_private.
Proof. apply wf_mem_of; [|done..]. repeat constructor; (by vm_compute). Qed.

Lemma wf_mem_two_ptrs : wf mem_two_ptrs.
Proof. apply wf_mem_of; [|done..]. repeat constructor; (by vm_compute). Qed.


End ExampleFacts.

(* ======================================================================= *)
(** * Pointer, Slice and Map *)
(* ======================================================================= *)

Section SingleLevel.
Import MemFacts RunFacts FreezeFacts WordFacts ExampleFacts Examples.

(** A store through a read-only byte faults. *)
Lemma store1_readonly m x b : readonly m x → store1 m x b = None.
Proof.
  intros Hr. unfold store1. apply (stores_readonly m x [b] x).
  - simpl. lia.
  - by apply readonly_not_writable.
Qed.

Lemma store1_writable m x b : writable m x → is_Some (store1 m x b).
Proof.
  intros Hw. unfold store1. apply stores_is_Some. simpl. intros y Hy.
  by replace y with x by lia.
Qed.

Lemma store1_unmapped m x b : ¬ mapped m x → store1 m x b = None.
Proof.
  intros Hn. unfold store1. apply (stores_readonly m x [b] x).
  - simpl. lia.
  - intros Hw. by apply Hn, writable_mapped.
Qed.

(** C1. For a pointer whose pointee has nonzero size and can be read,
    Pointer returns a handle to a newly mapped region that holds exactly
    the bytes the pointee had when Pointer was called; the region is
    read-only, so every store through the handle faults; the original is
    left as it was. *)
Theorem Pointer_frozen_copy (m : mem) (t : type) (w bs : list byte) :
  wf m →
  0 < Type_Size t < 2 ^ 63 →
  loads m (word0 w) (Type_Size t) = Some bs →
  brk m + round_up (Type_Size t) ≤ addrLimit →
  ∃ m' e,
    Pointer (Some (mkEface (PtrTo t) w)) m = (m', Ok (Some e)) ∧
    e_typ e = PtrTo t ∧
    let h := word0 (e_data e) in
    (∀ x, h ≤ x → ¬ mapped m x) ∧
    loads m' h (Type_Size t) = Some bs ∧
    (∀ x, h ≤ x < h + Type_Size t → readonly m' x) ∧
    (∀ x b, h ≤ x < h + Type_Size t → store1 m' x b = None) ∧
    (∀ x, x < h → cells m' !! x = cells m !! x).
Proof.
  intros Hwf Hsz Hl Hlim.
  destruct (copyAndFreeze_spec _ _ _ _ Hwf Hsz Hl Hlim)
    as (m' & Hc & Hwf' & Hl' & _).
  assert (Type_Size t ≠ 0) as Hne by lia.
  pose proof (copyAndFreeze_Ok _ _ _ _ _ Hne Hc)
    as (_ & _ & Hb & Hlim' & _ & Hro).
  pose proof (copyAndFreeze_frame _ _ _ _ _ Hc) as (_ & Hfr & _).
  rewrite int_small in Hb by lia.
  pose proof (round_up_ge (Type_Size t)) as Hru.
  assert (word0 (set_word0 (brk m) w) = brk m) as Hh.
  { apply word0_set_word0. pose proof (wf_brk_pos _ Hwf).
    assert (pageSize = 4096) by reflexivity.
    assert (addrLimit = 2 ^ 47) by reflexivity. lia. }
  exists m', (mkEface (PtrTo t) (set_word0 (brk m) w)).
  split; [|split; [done|]].
  { unfold Pointer. simpl. rewrite bind_unfold, Hc. done. }
  simpl. rewrite Hh. repeat split.
  - intros x Hx Hm. pose proof (wf_high _ Hwf x Hm). lia.
  - done.
  - intros x Hx. apply Hro. lia.
  - intros x b Hx. apply store1_readonly, Hro. lia.
  - done.
Qed.

(** The theorem at x := 3; Pointer(&x). *)
Lemma Pointer_frozen_copy_witness :
  ∃ m' e,
    Pointer ptr_int mem_int = (m', Ok (Some e)) ∧
    e_typ e = PtrTo (Scalar SInt) ∧
    let h := word0 (e_data e) in
    (∀ x, h ≤ x → ¬ mapped mem_int x) ∧
    loads m' h 8 = Some (le_split 8 3) ∧
    (∀ x, h ≤ x < h + 8 → readonly m' x) ∧
    (∀ x b, h ≤ x < h + 8 → store1 m' x b = None) ∧
    (∀ x, x < h → cells m' !! x = cells mem_int !! x).
Proof.
  apply (Pointer_frozen_copy mem_int (Scalar SInt) (ptr 0x10000) (le_split 8 3)).
  - apply wf_mem_int.
  - simpl. lia.
  - by vm_compute.
  - by vm_compute.
Defined.

(** C10. Slice replaces the data pointer of the header and nothing else:
    length and capacity are those of the input; exactly length times
    element size bytes are copied into newly mapped pages, which are
    registered with that length and are read-only.  What follows the copied
    bytes in those pages is not a copy of anything: it is the zero padding
    of the mapping, read-only as well; so the spare capacity of the result
    (when the capacity exceeds the length) refers to memory beyond the
    copied bytes, not to a writable copy of the original spare capacity. *)
Theorem Slice_header_and_region (m : mem) (t : type) (w bs : list byte) :
  let len := int (word1 w) in
  let size := Type_Size t * len in
  wf m →
  length w = 24%nat →
  0 ≤ len → 0 < size < 2 ^ 63 →
  loads m (word0 w) size = Some bs →
  brk m + round_up size ≤ addrLimit →
  ∃ m' e,
    Slice (Some (mkEface (SliceOf t) w)) m = (m', Ok (Some e)) ∧
    e_typ e = SliceOf t ∧
    length (e_data e) = 24%nat ∧
    word1 (e_data e) = word1 w ∧
    word2 (e_data e) = word2 w ∧
    let h := word0 (e_data e) in
    (∀ x, h ≤ x < h + round_up size → ¬ mapped m x) ∧
    finalizers m' = (h, size) :: finalizers m ∧
    loads m' h size = Some bs ∧
    (∀ x, h ≤ x < h + size → readonly m' x) ∧
    (∀ x, h + size ≤ x < h + round_up size →
       readonly m' x ∧ load1 m' x = Some Byte.x00).
Proof.
  intros len size Hwf Hw Hlen Hsz Hl Hlim.
  assert (size = Type_Size t * len) as Hs by done.
  assert (len = int (word1 w)) as Hlw by done.
  clearbody size len.
  assert (uintptr (Type_Size t * uintptr len) = size) as Hsize.
  { assert (0 < len) by (destruct (decide (len = 0)) as [->|]; lia).
    assert (0 < Type_Size t).
    { destruct (decide (0 < Type_Size t)); [done|].
      pose proof (Z.mul_nonpos_nonneg (Type_Size t) len). lia. }
    assert (len ≤ size).
    { pose proof (Z.mul_le_mono_nonneg_r 1 (Type_Size t) len). lia. }
    rewrite (uintptr_small len) by lia. rewrite <- Hs. apply uintptr_small. lia. }
  destruct (copyAndFreeze_spec _ _ _ _ Hwf Hsz Hl Hlim)
    as (m' & Hc & Hwf' & Hl' & Hz).
  assert (size ≠ 0) as Hne by lia.
  pose proof (copyAndFreeze_Ok _ _ _ _ _ Hne Hc)
    as (_ & _ & Hb & Hlim' & Hfin & Hro).
  rewrite int_small in Hb, Hfin by lia.
  pose proof (round_up_ge size) as Hru.
  assert (word0 (set_word0 (brk m) w) = brk m) as Hh.
  { apply word0_set_word0. pose proof (wf_brk_pos _ Hwf).
    assert (pageSize = 4096) by reflexivity.
    assert (addrLimit = 2 ^ 47) by reflexivity. lia. }
  exists m', (mkEface (SliceOf t) (set_word0 (brk m) w)).
  split.
  { unfold Slice. simpl. rewrite bind_unfold. unfold Value_Len. simpl.
    rewrite <- Hlw, Hsize. rewrite bind_unfold, Hc. done. }
  cbn [e_typ e_data]. cbv zeta.
  rewrite Hh, length_set_word0, word1_set_word0, word2_set_word0 by lia.
  split; [done|]. split; [done|]. split; [done|]. split; [done|].
  split; [|split; [done|split; [done|split]]].
  - intros x Hx Hm. pose proof (wf_high _ Hwf x Hm). lia.
  - intros x Hx. apply Hro. lia.
  - intros x Hx. split; [apply Hro; lia|apply Hz; lia].
Qed.

Lemma wf_mem_slice : wf mem_slice.
Proof. apply wf_mem_of; [|done..]. repeat constructor; (by vm_compute). Qed.

Lemma wf_mem_map : wf mem_map.
Proof. apply wf_mem_of; [|done..]. repeat constructor; (by vm_compute). Qed.

Lemma wf_mem_empty_map : wf mem_empty_map.
Proof. apply wf_mem_of; [|done..]. repeat constructor; (by vm_compute). Qed.

(** The theorem at xs := make([]int, 3, 4); Slice(xs). *)
Lemma Slice_header_and_region_witness :
  let w := slice_header 0x10000 3 4 in
  ∃ m' e,
    Slice slice_int mem_slice = (m', Ok (Some e)) ∧
    e_typ e = SliceOf (Scalar SInt) ∧
    length (e_data e) = 24%nat ∧
    word1 (e_data e) = word1 w ∧
    word2 (e_data e) = word2 w ∧
    let h := word0 (e_data e) in
    (∀ x, h ≤ x < h + round_up (8 * int (word1 w)) → ¬ mapped mem_slice x) ∧
    finalizers m' = (h, 8 * int (word1 w)) :: finalizers mem_slice ∧
    loads m' h (8 * int (word1 w))
      = Some (le_split 8 1 ++ le_split 8 2 ++ le_split 8 3) ∧
    (∀ x, h ≤ x < h + 8 * int (word1 w) → readonly m' x) ∧
    (∀ x, h + 8 * int (word1 w) ≤ x < h + round_up (8 * int (word1 w)) →
       readonly m' x ∧ load1 m' x = Some Byte.x00).
Proof.
  intros w.
  apply (Slice_header_and_region mem_slice (Scalar SInt) w
           (le_split 8 1 ++ le_split 8 2 ++ le_split 8 3)).
  - apply wf_mem_slice.
  - reflexivity.
  - by vm_compute.
  - by vm_compute.
  - by vm_compute.
  - by vm_compute.
Defined.

(** C3. mapFreeze maps pageSize + (size of the header − size of count)
    bytes, writes the image of the header at offset pageSize − size of
    count, and makes read-only exactly the bytes from offset pageSize to
    the end of the allocation.  The count field, the prefix of the header,
    is therefore writable, and every other byte of the header is
    read-only. *)
Theorem mapFreeze_layout (m : mem) (dataptr : Z) (img : list byte) :
  wf m →
  loads m dataptr hmap_size = Some img →
  brk m + 2 * pageSize ≤ addrLimit →
  ∃ m' h,
    mapFreeze dataptr m = (m', Ok h) ∧
    let newMem := brk m in
    let newLen := pageSize + (hmap_size - hmap_offset) in
    (∀ x, newMem ≤ x → ¬ mapped m x) ∧
    finalizers m' = (newMem, newLen) :: finalizers m ∧
    h = newMem + (pageSize - hmap_offset) ∧
    loads m' h hmap_size = Some img ∧
    (∀ o, 0 ≤ o < newLen →
       (readonly m' (newMem + o) ↔ pageSize ≤ o) ∧
       (writable m' (newMem + o) ↔ o < pageSize)) ∧
    (∀ x, h ≤ x < h + hmap_offset → writable m' x) ∧
    (∀ x, h + hmap_offset ≤ x < h + hmap_size → readonly m' x) ∧
    (∀ x, x < newMem → cells m' !! x = cells m !! x).
Proof.
  rewrite hmap_size_val, hmap_offset_val. intros Hwf Hl Hlim.
  assert (pageSize = 4096) as Hps by reflexivity.
  destruct (mapFreeze_spec _ _ _ Hwf Hl Hlim) as (m' & Hc & Hwf' & Hl' & Hrw).
  pose proof (mapFreeze_Ok _ _ _ _ Hc) as (_ & Hb & _ & Hfin & Hro).
  pose proof (mapFreeze_frame _ _ _ _ Hc) as (_ & Hfr & _).
  exists m', (brk m + (pageSize - 8)). split; [done|]. cbv zeta.
  replace (pageSize + (48 - 8)) with (pageSize + 40) by lia.
  repeat split; try done.
  - intros x Hx Hm. pose proof (wf_high _ Hwf x Hm). lia.
  - intros Hr. destruct (decide (pageSize ≤ o)); [done|].
    exfalso. apply (readonly_not_writable _ _ Hr). apply Hrw. lia.
  - intros Ho. apply Hro. lia.
  - intros Hw. destruct (decide (o < pageSize)); [done|].
    exfalso. apply (readonly_not_writable m' (brk m + o)); [|done].
    apply Hro. lia.
  - intros Ho. apply Hrw. lia.
  - intros x Hx. apply Hrw. lia.
  - intros x Hx. apply Hro. lia.
Qed.

(** The theorem at the header of map[int]int{1: 1}. *)
Lemma mapFreeze_layout_witness :
  ∃ m' h,
    mapFreeze 0x10000 mem_map = (m', Ok h) ∧
    let newMem := brk mem_map in
    let newLen := pageSize + (hmap_size - hmap_offset) in
    (∀ x, newMem ≤ x → ¬ mapped mem_map x) ∧
    finalizers m' = (newMem, newLen) :: finalizers mem_map ∧
    h = newMem + (pageSize - hmap_offset) ∧
    loads m' h hmap_size = Some (hmap_image 1 0 0 0x5eed 0x10100) ∧
    (∀ o, 0 ≤ o < newLen →
       (readonly m' (newMem + o) ↔ pageSize ≤ o) ∧
       (writable m' (newMem + o) ↔ o < pageSize)) ∧
    (∀ x, h ≤ x < h + hmap_offset → writable m' x) ∧
    (∀ x, h + hmap_offset ≤ x < h + hmap_size → readonly m' x) ∧
    (∀ x, x < newMem → cells m' !! x = cells mem_map !! x).
Proof.
  apply (mapFreeze_layout mem_map 0x10000 (hmap_image 1 0 0 0x5eed 0x10100)).
  - apply wf_mem_map.
  - by vm_compute.
  - by vm_compute.
Defined.

(** What Map does to the header of a map that can be read. *)
Lemma Map_spec (m : mem) (t : type) (w img : list byte) :
  wf m →
  Type_Kind t = reflect.Map →
  loads m (word0 w) hmap_size = Some img →
  brk m + 2 * pageSize ≤ addrLimit →
  ∃ m' e,
    Map (Some (mkEface t w)) m = (m', Ok (Some e)) ∧
    e_typ e = t ∧ e_data e = set_word0 (brk m + (pageSize - 8)) w ∧
    let h := word0 (e_data e) in
    h = brk m + (pageSize - 8) ∧
    brk m' = brk m + 2 * pageSize ∧
    finalizers m' = (brk m, pageSize + 40) :: finalizers m ∧
    loads m' h hmap_size = Some img ∧
    (∀ x, h ≤ x < h + 8 → writable m' x) ∧
    (∀ x, h + 8 ≤ x < h + 48 → readonly m' x) ∧
    (∀ x, x < brk m → cells m' !! x = cells m !! x).
Proof.
  rewrite hmap_size_val. intros Hwf Hk Hl Hlim.
  assert (pageSize = 4096) as Hps by reflexivity.
  assert (addrLimit = 2 ^ 47) as Hal by reflexivity.
  destruct (mapFreeze_spec _ _ _ Hwf Hl Hlim) as (m' & Hc & Hwf' & Hl' & Hrw).
  pose proof (mapFreeze_Ok _ _ _ _ Hc) as (_ & Hb & _ & Hfin & Hro).
  pose proof (mapFreeze_frame _ _ _ _ Hc) as (_ & Hfr & _).
  pose proof (wf_brk_pos _ Hwf) as Hpos.
  exists m', (mkEface t (set_word0 (brk m + (pageSize - 8)) w)).
  split.
  { unfold Map. cbn [ValueOf typ e_typ e_data]. rewrite Hk.
    rewrite decide_False by (intros H; by apply H).
    rewrite bind_unfold, Hc. done. }
  cbn [e_typ e_data]. cbv zeta. rewrite word0_set_word0 by lia.
  repeat split; try done.
  - intros x Hx. apply Hrw. lia.
  - intros x Hx. apply Hro. lia.
Qed.

(** C4, as the code has it.  After Map the count field of the header is
    the part that stays writable, and every other field of the header
    (flags, B, hash0, buckets, oldbuckets, nevacuate, overflow) is
    read-only: a store to any byte of count succeeds and a store to any
    byte of another field faults. *)
Theorem Map_count_writable_rest_readonly (m : mem) (t : type) (w img : list byte) :
  wf m →
  Type_Kind t = reflect.Map →
  loads m (word0 w) hmap_size = Some img →
  brk m + 2 * pageSize ≤ addrLimit →
  ∃ m' e,
    Map (Some (mkEface t w)) m = (m', Ok (Some e)) ∧
    let h := word0 (e_data e) in
    loads m' h hmap_size = Some img ∧
    Forall (λ f, ∀ x b,
              h + Offset f ≤ x < h + Offset f + Type_Size (FType f) →
              if String.eqb (Name f) "count"
              then is_Some (store1 m' x b)
              else store1 m' x b = None)
           (Type_Fields hmap).
Proof.
  intros Hwf Hk Hl Hlim.
  destruct (Map_spec _ _ _ _ Hwf Hk Hl Hlim)
    as (m' & e & HM & _ & _ & _ & _ & _ & Hl' & Hrw & Hro & _).
  exists m', e. split; [done|]. split; [done|].
  cbn [Type_Fields hmap field_list].
  repeat apply Forall_cons_2; try apply Forall_nil_2;
    cbn [Name Offset FType Type_Size scalar_size String.eqb Ascii.eqb Bool.eqb];
    intros x b Hx.
  - apply store1_writable, Hrw. lia.
  - apply store1_readonly, Hro. lia.
  - apply store1_readonly, Hro. lia.
  - apply store1_readonly, Hro. lia.
  - apply store1_readonly, Hro. lia.
  - apply store1_readonly, Hro. lia.
  - apply store1_readonly, Hro. lia.
  - apply store1_readonly, Hro. lia.
Qed.

(** The theorem at m := map[int]int{1: 1}; Map(m). *)
Lemma Map_count_writable_rest_readonly_witness :
  ∃ m' e,
    Map map_int_int mem_map = (m', Ok (Some e)) ∧
    let h := word0 (e_data e) in
    loads m' h hmap_size = Some (hmap_image 1 0 0 0x5eed 0x10100) ∧
    Forall (λ f, ∀ x b,
              h + Offset f ≤ x < h + Offset f + Type_Size (FType f) →
              if String.eqb (Name f) "count"
              then is_Some (store1 m' x b)
              else store1 m' x b = None)
           (Type_Fields hmap).
Proof.
  apply (Map_count_writable_rest_readonly mem_map
           (MapOf (Scalar SInt) (Scalar SInt)) (ptr 0x10000)
           (hmap_image 1 0 0 0x5eed 0x10100)).
  - apply wf_mem_map.
  - reflexivity.
  - by vm_compute.
  - by vm_compute.
Defined.

(** C4 as stated fails: after Map(map[int]int{1: 1}) a store to the count
    field goes through, so count is not the part that became read-only, and
    a store to the flags field, a housekeeping field at offset 8, faults. *)
Lemma Map_count_not_frozen :
  ∃ m' e,
    Map map_int_int mem_map = (m', Ok (Some e)) ∧
    let count := word0 (e_data e) in
    let flags := word0 (e_data e) + 8 in
    (∀ b, is_Some (store1 m' count b)) ∧
    (∀ b, store1 m' flags b = None) ∧
    ¬ (readonly m' count ∧ writable m' flags).
Proof.
  destruct (Map_spec mem_map (MapOf (Scalar SInt) (Scalar SInt)) (ptr 0x10000)
              (hmap_image 1 0 0 0x5eed 0x10100))
    as (m' & e & HM & _ & _ & _ & _ & _ & _ & Hrw & Hro & _).
  { apply wf_mem_map. } { reflexivity. } { by vm_compute. } { by vm_compute. }
  exists m', e. split; [done|]. cbv zeta. repeat split.
  - intros b. apply store1_writable, Hrw. lia.
  - intros b. apply store1_readonly, Hro. lia.
  - intros [Hr _]. apply (readonly_not_writable _ _ Hr), Hrw. lia.
Qed.

(** C7, as the code has it.  Pointer(nil), Slice(nil), Map(nil) and
    Object(nil) return nil and leave the memory as it is, and so does Slice
    on a slice of length zero, which it returns unchanged: no mapping is
    created on any of these paths.  (Map has no such path for an empty
    map.) *)
Theorem nil_and_empty_are_noops {RT : MapRuntime} (m : mem) :
  Pointer None m = (m, Ok None) ∧
  Slice None m = (m, Ok None) ∧
  Map None m = (m, Ok None) ∧
  Object None m = (m, Ok None) ∧
  (∀ t w, length w = 24%nat → int (word1 w) = 0 →
     Slice (Some (mkEface (SliceOf t) w)) m
     = (m, Ok (Some (mkEface (SliceOf t) w)))).
Proof.
  split; [reflexivity|]. split; [reflexivity|]. split; [reflexivity|].
  split; [reflexivity|].
  intros t w Hw Hlen. unfold Slice. cbn [ValueOf typ e_typ e_data Type_Kind].
  rewrite decide_False by (intros H; by apply H).
  rewrite bind_unfold. unfold Value_Len.
  cbn [typ Value_bytes stor]. rewrite bind_unfold, !ret_unfold.
  rewrite Hlen. replace (uintptr 0) with 0 by reflexivity.
  rewrite Z.mul_0_r. replace (uintptr 0) with 0 by reflexivity.
  rewrite bind_unfold, copyAndFreeze_zero, ret_unfold.
  rewrite set_word0_word0 by lia. done.
Qed.

(** The theorem at Slice([]int{}). *)
Lemma nil_and_empty_are_noops_witness :
  let w := slice_header 0x10000 0 0 in
  Slice (Some (mkEface (SliceOf (Scalar SInt)) w)) mem_int
  = (mem_int, Ok (Some (mkEface (SliceOf (Scalar SInt)) w))).
Proof.
  intros w.
  apply (nil_and_empty_are_noops (RT := no_map_runtime) mem_int).
  - by vm_compute.
  - by vm_compute.
Defined.

(** C7 as stated fails for Map on an empty map: Map(map[int]int{}) maps two
    new pages, registers them for finalization and returns a header address
    that is not the one it was given. *)
Lemma Map_of_empty_map_allocates :
  let v := Some (mkEface (MapOf (Scalar SInt) (Scalar SInt)) (ptr 0x10000)) in
  ∃ m' e,
    Map v mem_empty_map = (m', Ok (Some e)) ∧
    Some e ≠ v ∧
    brk m' = brk mem_empty_map + 2 * pageSize ∧
    finalizers m' = (brk mem_empty_map, pageSize + 40) :: finalizers mem_empty_map.
Proof.
  intros v.
  destruct (Map_spec mem_empty_map (MapOf (Scalar SInt) (Scalar SInt))
              (ptr 0x10000) (hmap_image 0 0 0 0x5eed 0))
    as (m' & e & HM & _ & Hd & Hh & Hb & Hfin & _).
  { apply wf_mem_empty_map. } { reflexivity. } { by vm_compute. }
  { by vm_compute. }
  exists m', e. split; [exact HM|]. split; [|exact (conj Hb Hfin)].
  intros Heq. cbv zeta in Hh. rewrite Hd in Hh.
  assert (e_data e = ptr 0x10000) as Hd' by (by inversion Heq).
  rewrite Hd in Hd'. rewrite Hd' in Hh. vm_compute in Hh. discriminate.
Qed.

(** C8. A non-nil argument of the wrong kind makes the entry point panic
    with the message of the package: the panic is a Go panic, which the
    caller can recover from, not a fault, and it is raised before anything
    is mapped or written, since the memory is the one the call started
    with. *)
Theorem wrong_kind_panics {RT : MapRuntime} (m : mem) (e : eface) :
  (Type_Kind (e_typ e) ≠ reflect.Ptr →
   Pointer (Some e) m
   = (m, Panic (PanicString "Pointer called on non-pointer type"))) ∧
  (Type_Kind (e_typ e) ≠ reflect.Slice →
   Slice (Some e) m
   = (m, Panic (PanicString "Slice called on non-slice type"))) ∧
  (Type_Kind (e_typ e) ≠ reflect.Map →
   Map (Some e) m
   = (m, Panic (PanicString "Map called on non-map type"))) ∧
  (Type_Kind (e_typ e) ≠ reflect.Ptr →
   Type_Kind (e_typ e) ≠ reflect.Slice →
   Type_Kind (e_typ e) ≠ reflect.Map →
   Object (Some e) m
   = (m, Panic (PanicString "Object called on invalid type"))).
Proof.
  split; [|split; [|split]].
  - intros H. unfold Pointer. rewrite decide_True by exact H. reflexivity.
  - intros H. unfold Slice. cbn [ValueOf typ]. rewrite decide_True by exact H.
    reflexivity.
  - intros H. unfold Map. cbn [ValueOf typ]. rewrite decide_True by exact H.
    reflexivity.
  - intros H1 H2 H3. unfold Object. cbn [ValueOf typ].
    destruct (Type_Kind (e_typ e)) eqn:E; try (exfalso; congruence);
      reflexivity.
Qed.

(** The theorem at the calls of TestIllegalTypes: Pointer(map[int]int{}),
    Slice(new(bool)), Map([]byte{}) and Object(true). *)
Lemma wrong_kind_panics_witness :
  Pointer map_int_int mem_map
  = (mem_map, Panic (PanicString "Pointer called on non-pointer type")) ∧
  Slice (Some (mkEface (PtrTo (Scalar SBool)) (ptr 0x10000))) mem_int
  = (mem_int, Panic (PanicString "Slice called on non-slice type")) ∧
  Map (Some (mkEface (SliceOf (Scalar SUint8)) (slice_header 0x10000 0 0))) mem_int
  = (mem_int, Panic (PanicString "Map called on non-map type")) ∧
  Object (RT := no_map_runtime) (Some (mkEface (Scalar SBool) [Byte.x01])) mem_int
  = (mem_int, Panic (PanicString "Object called on invalid type")).
Proof.
  split; [|split; [|split]].
  - apply (wrong_kind_panics (RT := no_map_runtime) mem_map
             (mkEface (MapOf (Scalar SInt) (Scalar SInt)) (ptr 0x10000))).
    discriminate.
  - apply (wrong_kind_panics (RT := no_map_runtime) mem_int
             (mkEface (PtrTo (Scalar SBool)) (ptr 0x10000))).
    discriminate.
  - apply (wrong_kind_panics (RT := no_map_runtime) mem_int
             (mkEface (SliceOf (Scalar SUint8)) (slice_header 0x10000 0 0))).
    discriminate.
  - apply (wrong_kind_panics (RT := no_map_runtime) mem_int
             (mkEface (Scalar SBool) [Byte.x01])); discriminate.
Defined.

End SingleLevel.

(* ======================================================================= *)
(** * The walker with and without the hasPtrs tests *)
(* ======================================================================= *)

Module Refinement.
Import MemFacts RunFacts FreezeFacts WordFacts.

Lemma refines_refl {A} (c : M A) : refines c c.
Proof. by intros m m' a H. Qed.

Lemma refines_bind {A B} (c1 c2 : M A) (k1 k2 : A → M B) :
  refines c1 c2 → (∀ a, refines (k1 a) (k2 a)) →
  refines (c1 ≫= k1) (c2 ≫= k2).
Proof.
  intros Hc Hk m m' b (m1 & a & H1 & H2)%bind_Ok.
  apply bind_Ok. exists m1, a. split; [by apply Hc|by apply Hk].
Qed.

Lemma refines_for_each {A} (l : list A) (b1 b2 : A → M unit) :
  (∀ x, refines (b1 x) (b2 x)) → refines (for_each l b1) (for_each l b2).
Proof.
  intros Hb. induction l as [|x l IH]; [apply refines_refl|].
  simpl. apply refines_bind; [apply Hb|]. intros _. apply IH.
Qed.

(** A computation that leaves the memory alone when it returns refines
    doing nothing. *)
Lemma refines_skip (c : M unit) :
  (∀ m m' u, c m = (m', Ok u) → m' = m) → refines c (mret tt).
Proof. intros Hc m m' [] H. by rewrite (Hc _ _ _ H). Qed.

(** The operations of reflect that only read. *)
Lemma Value_bytes_inv v m m' o : Value_bytes v m = (m', o) → m' = m.
Proof.
  unfold Value_bytes. destruct (stor v).
  - apply mem_loads_inv.
  - by intros [= <- _].
Qed.

Lemma Value_Elem_inv v m m' o : Value_Elem v m = (m', o) → m' = m.
Proof.
  unfold Value_Elem. rewrite bind_unfold.
  destruct (Value_bytes v m) as [m1 [bs| |]] eqn:E;
    apply Value_bytes_inv in E as ->.
  - case_decide; by intros [= <- _].
  - by intros [= <- _].
  - by intros [= <- _].
Qed.

Lemma Value_Index_inv v i m m' o : Value_Index v i m = (m', o) → m' = m.
Proof.
  unfold Value_Index. destruct (typ v); try by intros [= <- _].
  all: rewrite bind_unfold;
    destruct (Value_bytes v m) as [m1 [bs| |]] eqn:E;
    apply Value_bytes_inv in E as ->; by intros [= <- _].
Qed.

Lemma Value_Len_inv v m m' o : Value_Len v m = (m', o) → m' = m.
Proof.
  unfold Value_Len. destruct (typ v); try by intros [= <- _].
  all: rewrite bind_unfold;
    destruct (Value_bytes v m) as [m1 [bs| |]] eqn:E;
    apply Value_bytes_inv in E as ->; by intros [= <- _].
Qed.

(** Setting a value to itself does nothing. *)
Lemma Value_Set_self v m m' u : Value_Set v v m = (m', Ok u) → m' = m.
Proof.
  unfold Value_Set. destruct (flagRO v); [done|].
  destruct (stor v) as [a|bs]; [|done].
  rewrite decide_True by done. by intros [= <-].
Qed.

Lemma hasPtrs_false t : hasPtrs t = false → ∃ k, t = Scalar k.
Proof. destruct t; try done. eauto. Qed.

(** The steps the naive walker takes on a scalar and the walker skips. *)
Lemma naive_pointee_skip {RT : MapRuntime} k val :
  refines (dst ← Value_Elem val;
           src ← Value_Elem val;
           x ← naive_object_at (Scalar k) src;
           Value_Set dst x)
          (mret tt).
Proof.
  apply refines_skip. intros m m' u.
  intros (m1 & dst & H1 & H)%bind_Ok.
  pose proof (Value_Elem_inv _ _ _ _ H1) as ->.
  apply bind_Ok in H as (m2 & src & H2 & H).
  pose proof (Value_Elem_inv _ _ _ _ H2) as ->.
  assert (src = dst) as -> by congruence.
  apply bind_Ok in H as (m3 & x & [= <- <-] & H).
  by apply Value_Set_self in H.
Qed.

Lemma naive_elements_skip {RT : MapRuntime} k val :
  refines (n ← Value_Len val;
           for_each (seqZ 0 n) (λ i,
             dst ← Value_Index val i;
             src ← Value_Index val i;
             x ← naive_object_at (Scalar k) src;
             Value_Set dst x))
          (mret tt).
Proof.
  apply refines_skip. intros m m' u.
  intros (m1 & n & H1 & H)%bind_Ok.
  pose proof (Value_Len_inv _ _ _ _ H1) as ->. clear H1.
  revert m m' H. generalize (seqZ 0 n). intros l.
  induction l as [|i l IH]; intros m m' H.
  - by inversion H.
  - simpl in H. apply bind_Ok in H as (m1 & [] & Hb & H).
    apply IH in H as ->.
    apply bind_Ok in Hb as (m2 & dst & H1 & Hb).
    pose proof (Value_Index_inv _ _ _ _ _ H1) as ->.
    apply bind_Ok in Hb as (m3 & src & H2 & Hb).
    pose proof (Value_Index_inv _ _ _ _ _ H2) as ->.
    assert (src = dst) as -> by congruence.
    apply bind_Ok in Hb as (m4 & x & [= <- <-] & Hb).
    by apply Value_Set_self in Hb.
Qed.

Lemma naive_field_skip {RT : MapRuntime} k v :
  refines (x ← naive_object_at (Scalar k) v; Value_Set v x) (mret tt).
Proof.
  apply refines_skip. intros m m' u.
  intros (m1 & x & [= <- <-] & H)%bind_Ok.
  by apply Value_Set_self in H.
Qed.

(** Whenever the naive walker returns, the walker returns the same value
    and leaves the same memory. *)
Lemma object_at_refines {RT : MapRuntime} :
  (∀ t val, refines (naive_object_at t val) (object_at t val)) ∧
  (∀ fs val, refines (naive_object_fields fs val) (object_fields fs val)).
Proof.
  apply type_fields_mutind.
  - (* scalar *) intros k val. apply refines_refl.
  - (* pointer *) intros elem IH val. cbn [naive_object_at object_at].
    apply refines_bind; [apply refines_refl|]. intros [|]; [apply refines_refl|].
    apply refines_bind; [|intros; apply refines_refl].
    destruct (hasPtrs elem) eqn:Hp.
    + repeat (apply refines_bind; [apply refines_refl|intros]).
      apply refines_bind; [apply IH|intros; apply refines_refl].
    + apply hasPtrs_false in Hp as [k ->]. apply naive_pointee_skip.
  - (* array *) intros n elem IH val. cbn [naive_object_at object_at].
    apply refines_bind; [|intros; apply refines_refl].
    destruct (hasPtrs elem) eqn:Hp.
    + apply refines_bind; [apply refines_refl|intros].
      apply refines_for_each. intros i.
      repeat (apply refines_bind; [apply refines_refl|intros]).
      apply refines_bind; [apply IH|intros; apply refines_refl].
    + apply hasPtrs_false in Hp as [k ->]. apply naive_elements_skip.
  - (* slice *) intros elem IH val. cbn [naive_object_at object_at].
    apply refines_bind; [|intros; apply refines_refl].
    destruct (hasPtrs elem) eqn:Hp.
    + apply refines_bind; [apply refines_refl|intros].
      apply refines_for_each. intros i.
      repeat (apply refines_bind; [apply refines_refl|intros]).
      apply refines_bind; [apply IH|intros; apply refines_refl].
    + apply hasPtrs_false in Hp as [k ->]. apply naive_elements_skip.
  - (* map *) intros key IHk elem IHe val. cbn [naive_object_at object_at].
    apply refines_bind; [|intros; apply refines_refl].
    destruct (hasPtrs elem || hasPtrs key); [|apply refines_refl].
    repeat (apply refines_bind; [apply refines_refl|intros]).
    apply refines_bind; [|intros; apply refines_refl].
    apply refines_for_each. intros k.
    apply refines_bind; [apply IHk|intros].
    apply refines_bind; [apply refines_refl|intros].
    apply refines_bind; [apply IHe|intros; apply refines_refl].
  - (* struct *) intros sz fs IH val. cbn [naive_object_at object_at].
    apply refines_bind; [apply IH|intros; apply refines_refl].
  - (* no field left *) intros val. apply refines_refl.
  - (* a field *) intros name pkg ftype IHt off anon rest IHr val.
    cbn [naive_object_fields object_fields PkgPath Anonymous FType].
    apply refines_bind; [|intros; apply IHr].
    destruct (unexported pkg anon); cbn [negb andb]; [apply refines_refl|].
    destruct (hasPtrs ftype) eqn:Hp.
    + apply refines_bind; [apply IHt|intros; apply refines_refl].
    + apply hasPtrs_false in Hp as [k ->]. apply naive_field_skip.
Qed.

End Refinement.

(* ======================================================================= *)
(** * Object *)
(* ======================================================================= *)

Section DeepFreeze.
Import MemFacts RunFacts FreezeFacts WordFacts ExampleFacts Examples Refinement.

(** The hasPtrs tests never change a result the naive walker reaches, on
    any type: whenever the walker that recurses into every pointee, element
    and visited field returns, Object returns the same value and leaves the
    same memory, region contents included. *)
Theorem Object_refines_naive {RT : MapRuntime} (v : interface) (m m' : mem)
    (r : interface) :
  naive_Object v m = (m', Ok r) → Object v m = (m', Ok r).
Proof.
  revert m m' r. change (refines (naive_Object v) (Object v)).
  unfold naive_Object, Object. destruct v as [e|]; [|apply refines_refl].
  destruct (Type_Kind (typ (ValueOf (Some e)))); try apply refines_refl.
  all: apply refines_bind; [apply object_at_refines|intros; apply refines_refl].
Qed.

(** The theorem at x := 3; Object(&x). *)
Lemma Object_refines_naive_witness :
  let res := naive_Object (RT := no_map_runtime) ptr_int mem_int in
  Object (RT := no_map_runtime) ptr_int mem_int
  = (res.1, Ok (Some (mkEface (PtrTo (Scalar SInt)) (ptr 0x20000)))).
Proof.
  intros res. apply (Object_refines_naive (RT := no_map_runtime)).
  fold res. rewrite (surjective_pairing res) at 1.
  apply (f_equal (pair res.1)). by vm_compute.
Defined.


End DeepFreeze.

(* ======================================================================= *)
(** * What the walker keeps *)
(* ======================================================================= *)

Module Safety.
Import MemFacts RunFacts FreezeFacts WordFacts Refinement.

Lemma grows_refl m : grows m m.
Proof. split; [lia|]. split; done. Qed.

Lemma grows_trans m1 m2 m3 : grows m1 m2 → grows m2 m3 → grows m1 m3.
Proof.
  intros (B1 & P1 & C1) (B2 & P2 & C2). split; [lia|]. split.
  - intros x Hx. rewrite P2 by lia. by apply P1.
  - intros x Hx Hw. rewrite C2; [by apply C1|lia|].
    unfold writable. by rewrite P1.
Qed.

Lemma grows_stores m a bs m' : stores m a bs = Some m' → grows m m'.
Proof.
  intros Hs. split; [rewrite (brk_stores _ _ _ _ Hs); lia|]. split.
  - intros x _. by apply (prot_at_stores _ _ _ _ x Hs).
  - intros x _ Hw. rewrite (load1_stores _ _ _ _ x Hs).
    case_decide as Hx; [|done]. exfalso. apply Hw.
    apply stores_Some in Hs as [HF _]. rewrite Forall_forall in HF.
    apply HF, elem_of_seqZ. lia.
Qed.

Lemma grows_cells m m' :
  brk m ≤ brk m' → (∀ x, x < brk m → cells m' !! x = cells m !! x) →
  grows m m'.
Proof.
  intros Hb Hc. split; [done|]. split.
  - intros x Hx. unfold prot_at. by rewrite Hc.
  - intros x Hx _. unfold load1. by rewrite Hc.
Qed.

Lemma grows_readonly m m' x : grows m m' → x < brk m → readonly m x → readonly m' x.
Proof. intros (_ & P & _) Hx Hr. unfold readonly. by rewrite P. Qed.

Lemma grows_writable m m' x : grows m m' → x < brk m → writable m x → writable m' x.
Proof. intros (_ & P & _) Hx Hr. unfold writable. by rewrite P. Qed.



(** ** Rules for [safe] *)

Lemma safe_ret {A} (a : A) m (Q : mem → A → Prop) : Q m a → safe (mret a) m Q.
Proof. intros HQ m' o [= <- <-]. split; [apply grows_refl|done]. Qed.

Lemma safe_bind {A B} (c : M A) (k : A → M B) m Q R :
  safe c m Q →
  (∀ m1 a, grows m m1 → Q m1 a → safe (k a) m1 R) →
  safe (c ≫= k) m R.
Proof.
  intros Hc Hk m' o H.
  apply bind_inv in H as [(m1 & a & H1 & H2)|[[H1 ->]|(p & H1 & ->)]].
  - destruct (Hc _ _ H1) as [G1 HQ].
    destruct (Hk _ _ G1 HQ _ _ H2) as [G2 HR].
    split; [by eapply grows_trans|done].
  - by destruct (Hc _ _ H1) as [G1 _].
  - by destruct (Hc _ _ H1) as [G1 Hp].
Qed.

Lemma safe_weaken {A} (c : M A) m (Q R : mem → A → Prop) :
  safe c m Q → (∀ m' a, grows m m' → Q m' a → R m' a) → safe c m R.
Proof.
  intros Hc HQR m' o H. destruct (Hc _ _ H) as [G HQ]. split; [done|].
  destruct o; [by apply HQR|done..].
Qed.

Lemma safe_for_each {A} (l : list A) (body : A → M unit) m :
  (∀ x m1, grows m m1 → safe (body x) m1 (λ _ _, True)) →
  safe (for_each l body) m (λ _ _, True).
Proof.
  revert m. induction l as [|x l IH]; intros m Hb.
  - by apply safe_ret.
  - simpl. eapply safe_bind; [apply Hb, grows_refl|].
    intros m1 _ G1 _. apply IH. intros y m2 G2. apply Hb.
    by eapply grows_trans.
Qed.

(** ** The operations of reflect *)

Lemma safe_Value_bytes v m :
  safe (Value_bytes v) m (λ m' bs, m' = m ∧ Value_bytes v m = (m, Ok bs)).
Proof.
  intros m' o H. pose proof (Value_bytes_inv _ _ _ _ H) as ->.
  split; [apply grows_refl|]. destruct o; [done| |done].
  unfold Value_bytes, mem_loads in H. destruct (stor v); [|done].
  by destruct (loads m a _).
Qed.

Lemma Value_bytes_length v m m' bs n :
  Value_bytes v m = (m', Ok bs) → has_size v n → 0 ≤ n →
  Z.of_nat (length bs) = n.
Proof.
  unfold Value_bytes, has_size. destruct (stor v).
  - intros [_ Hl%loads_length]%mem_loads_Ok Hn. lia.
  - by intros [= _ ->].
Qed.

Lemma safe_Value_IsNil v m :
  safe (Value_IsNil v) m
    (λ m' b, m' = m ∧ ∃ bs, Value_bytes v m = (m, Ok bs) ∧
                            b = bool_decide (word0 bs = 0)).
Proof.
  unfold Value_IsNil. eapply safe_bind; [apply safe_Value_bytes|].
  intros m1 bs _ [-> Hb]. apply safe_ret. eauto.
Qed.

Lemma Value_Elem_nonnil v m bs :
  Value_bytes v m = (m, Ok bs) → word0 bs ≠ 0 →
  Value_Elem v m
  = (m, Ok (mkValue (Type_Elem (typ v)) (Addr (word0 bs))
                    (flagStickyRO v) (flagEmbedRO v))).
Proof.
  intros Hb Hn. unfold Value_Elem. rewrite bind_unfold, Hb.
  by rewrite decide_False.
Qed.

Lemma safe_mem_loads a n m :
  safe (mem_loads a n) m (λ m' bs, m' = m ∧ loads m a n = Some bs).
Proof.
  intros m' o H. pose proof (mem_loads_inv _ _ _ _ _ H) as ->.
  split; [apply grows_refl|]. unfold mem_loads in H.
  destruct (loads m a n); by injection H as <-.
Qed.

Lemma safe_mem_stores a bs m : safe (mem_stores a bs) m (λ _ _, True).
Proof.
  intros m' o H. apply mem_stores_inv in H as [[-> H]|(-> & -> & _)].
  - split; [by eapply grows_stores|done].
  - split; [apply grows_refl|done].
Qed.

Lemma safe_Value_Set dst x m a :
  stor dst = Addr a → flagRO dst = false → flagRO x = false →
  safe (Value_Set dst x) m (λ _ _, True).
Proof.
  intros Hs Hd Hx. unfold Value_Set. rewrite Hd, Hs, Hx.
  destruct (stor x) as [b|bs]; [|apply safe_mem_stores].
  case_decide; [by apply safe_ret|].
  eapply safe_bind; [apply safe_mem_loads|].
  intros m1 bs _ _. apply safe_mem_stores.
Qed.

Lemma safe_Value_Interface v m :
  flagRO v = false →
  safe (Value_Interface v) m
    (λ m' i, m' = m ∧ ∃ bs, Value_bytes v m = (m, Ok bs) ∧
                            i = Some (mkEface (typ v) bs)).
Proof.
  intros Hv. unfold Value_Interface. rewrite Hv.
  eapply safe_bind; [apply safe_Value_bytes|].
  intros m1 bs _ [-> Hb]. apply safe_ret. eauto.
Qed.

(** ** The entry points the walker calls *)

Lemma safe_copyAndFreeze dataptr n m :
  safe (copyAndFreeze dataptr n) m (λ _ _, True).
Proof.
  intros m' o H. destruct (copyAndFreeze_frame _ _ _ _ _ H) as (B & C & P).
  split; [by apply grows_cells|]. destruct o; [done| |done]. by apply P.
Qed.

Lemma safe_Pointer e bs m :
  safe (Pointer (Some (mkEface (PtrTo e) bs))) m
    (λ _ r, ∃ p, r = Some (mkEface (PtrTo e) (set_word0 p bs))).
Proof.
  unfold Pointer. cbn [e_typ e_data Type_Kind].
  rewrite decide_False by (intros H; by apply H).
  eapply safe_bind; [apply safe_copyAndFreeze|].
  intros m1 p _ _. apply safe_ret. eauto.
Qed.

Lemma Value_bytes_no_panic v m m' p : Value_bytes v m ≠ (m', Panic p).
Proof.
  unfold Value_bytes, mem_loads. destruct (stor v); [|done].
  by destruct (loads m a _).
Qed.

Lemma reads_no_panic {A} (f : list byte → A) v m m' p :
  (bs ← Value_bytes v; mret (f bs)) m ≠ (m', Panic p).
Proof.
  rewrite bind_unfold. destruct (Value_bytes v m) as [m1 [bs| |]] eqn:Hb.
  - done.
  - by apply Value_bytes_no_panic in Hb.
  - done.
Qed.

Lemma safe_Value_Len v m :
  safe (Value_Len v) m (λ m' n, m' = m ∧ Value_Len v m = (m, Ok n)).
Proof.
  intros m' o H. pose proof (Value_Len_inv _ _ _ _ H) as ->.
  split; [apply grows_refl|]. destruct o as [n|p|]; [done| |done].
  exfalso. revert H. unfold Value_Len.
  destruct (typ v); first [apply reads_no_panic|done].
Qed.

Lemma Value_Index_slice v e i m m' x :
  typ v = SliceOf e → Value_Index v i m = (m', Ok x) →
  m' = m ∧ ∃ bs, Value_bytes v m = (m, Ok bs) ∧
    x = mkValue e (Addr (word0 bs + i * Type_Size e)) (flagRO v) false.
Proof.
  intros Ht H. pose proof (Value_Index_inv _ _ _ _ _ H) as ->.
  split; [done|]. revert H. unfold Value_Index. rewrite Ht.
  intros (m1 & bs & Hb & [= <- <-])%bind_Ok. eauto.
Qed.

Lemma Value_Index_array v n e a i m :
  typ v = ArrayOf n e → stor v = Addr a →
  Value_Index v i m
  = (m, Ok (mkValue e (Addr (a + i * Type_Size e)) (flagRO v) false)).
Proof. intros Ht Hs. unfold Value_Index. by rewrite Ht, Hs. Qed.

Lemma safe_Value_Index v i m :
  safe (Value_Index v i) m (λ m' x, m' = m ∧ Value_Index v i m = (m, Ok x)).
Proof.
  intros m' o H. pose proof (Value_Index_inv _ _ _ _ _ H) as ->.
  split; [apply grows_refl|]. destruct o as [n|p|]; [done| |done].
  exfalso. revert H. unfold Value_Index.
  destruct (typ v);
    first [apply (reads_no_panic (λ bs, mkValue _ (Addr (word0 bs + _)) _ _))
          |done].
Qed.

Lemma safe_Value_Elem v m bs :
  Value_bytes v m = (m, Ok bs) → word0 bs ≠ 0 →
  safe (Value_Elem v) m
    (λ m' x, m' = m ∧
       x = mkValue (Type_Elem (typ v)) (Addr (word0 bs))
                   (flagStickyRO v) (flagEmbedRO v)).
Proof.
  intros Hb Hn m' o H. rewrite (Value_Elem_nonnil _ _ _ Hb Hn) in H.
  injection H as <- <-. split; [apply grows_refl|done].
Qed.

Lemma safe_Slice e bs m :
  safe (Slice (Some (mkEface (SliceOf e) bs))) m
    (λ _ r, ∃ p, r = Some (mkEface (SliceOf e) (set_word0 p bs))).
Proof.
  unfold Slice. cbn [ValueOf typ e_typ e_data Type_Kind].
  rewrite decide_False by (intros H; by apply H).
  eapply safe_bind; [apply safe_Value_Len|].
  intros m1 len _ _.
  eapply safe_bind; [apply safe_copyAndFreeze|].
  intros m2 p _ _. apply safe_ret. eauto.
Qed.

(** ** The walker *)

Lemma walkable_Addr t a : walkable t (mkValue t (Addr a) false false).
Proof. split; [done|]. split; [done|]. by destruct t. Qed.

Lemma has_size_Addr v a : stor v = Addr a → has_size v (Type_Size (typ v)).
Proof. unfold has_size. by intros ->. Qed.

Lemma CanAddr_Addr v : CanAddr v = true → ∃ a, stor v = Addr a.
Proof. unfold CanAddr. destruct (stor v); [eauto|done]. Qed.

Section Walk.
Context {RT : MapRuntime}.

Lemma safe_elements elem (val : Value) (l : list Z) m :
  (typ val = SliceOf elem ∨ ∃ n a, typ val = ArrayOf n elem ∧ stor val = Addr a) →
  flagRO val = false →
  (∀ v m1, walkable elem v → CanAddr v = true →
     safe (object_at elem v) m1
       (λ _ x, flagRO x = false ∧ (CanAddr v = true → has_size x (Type_Size elem)))) →
  safe (for_each l (λ i,
          dst ← Value_Index val i;
          src ← Value_Index val i;
          x ← object_at elem src;
          Value_Set dst x)) m (λ _ _, True).
Proof.
  intros Hty Hro IH. apply safe_for_each. intros i m1 _.
  assert (∀ m2 x, Value_Index val i m2 = (m2, Ok x) →
            ∃ a, x = mkValue elem (Addr a) false false) as Hx.
  { intros m2 x H. destruct Hty as [Ht|(n & a & Ht & Hs)].
    - apply (Value_Index_slice _ _ _ _ _ _ Ht) in H as (_ & bs & _ & ->).
      rewrite Hro. eauto.
    - rewrite (Value_Index_array _ _ _ _ _ _ Ht Hs) in H.
      injection H as <-. rewrite Hro. eauto. }
  eapply safe_bind; [apply safe_Value_Index|].
  intros m2 dst _ [-> [ad ->]%Hx].
  eapply safe_bind; [apply safe_Value_Index|].
  intros m2 src _ [-> [as' ->]%Hx].
  eapply safe_bind; [apply IH; [apply walkable_Addr|done]|].
  intros m2 x _ [Hrx _]. by eapply safe_Value_Set.
Qed.

Lemma flagRO_false v :
  flagRO v = false → flagStickyRO v = false ∧ flagEmbedRO v = false.
Proof. unfold flagRO. apply orb_false_elim. Qed.

Lemma object_at_safe :
  (∀ t, plain t = true → ∀ val m, walkable t val →
     safe (object_at t val) m
       (λ _ x, flagRO x = false ∧
               (CanAddr val = true → has_size x (Type_Size t)))) ∧
  (∀ fs, plain_fields fs = true → ∀ val a m,
     stor val = Addr a → flagRO val = false →
     safe (object_fields fs val) m (λ _ _, True)).
Proof.
  apply type_fields_mutind.
  - (* scalar *) intros k _ val m (Ht & Hro & _). apply safe_ret.
    split; [done|]. intros [a Ha]%CanAddr_Addr. rewrite <- Ht.
    by eapply has_size_Addr.
  - (* pointer *) intros elem IH Hp val m (Ht & Hro & _).
    cbn [object_at plain] in *.
    eapply safe_bind; [apply safe_Value_IsNil|].
    intros m1 b _ [-> (bs & Hb & ->)]. case_bool_decide as Hnil.
    { apply safe_ret. split; [done|]. intros [a Ha]%CanAddr_Addr.
      rewrite <- Ht. by eapply has_size_Addr. }
    destruct (flagRO_false _ Hro) as [Hs He].
    eapply safe_bind with (Q := λ _ _, True).
    { destruct (hasPtrs elem); [|by apply safe_ret].
      eapply safe_bind; [by apply safe_Value_Elem|].
      intros m2 dst _ [-> ->].
      eapply safe_bind; [by apply safe_Value_Elem|].
      intros m2 src _ [-> ->]. rewrite Ht, Hs, He. cbn [Type_Elem].
      eapply safe_bind; [apply IH; [done|apply walkable_Addr]|].
      intros m2 x _ [Hrx _]. by eapply safe_Value_Set. }
    intros m2 _ _ _.
    eapply safe_bind; [by apply safe_Value_Interface|].
    intros m3 i _ [-> (bs' & Hb' & ->)]. rewrite Ht.
    eapply safe_bind; [apply safe_Pointer|].
    intros m4 r _ [p ->]. apply safe_ret. split; [done|].
    intros [a Ha]%CanAddr_Addr. unfold has_size. cbn [ValueOf stor e_data].
    assert (Z.of_nat (length bs') = 8) as Hl.
    { eapply Value_bytes_length; [exact Hb'| |lia].
      unfold has_size. by rewrite Ha, Ht. }
    rewrite length_set_word0 by lia. exact Hl.
  - (* array *) intros n elem IH Hp val m (Ht & Hro & Hc).
    cbn [object_at plain] in *. apply CanAddr_Addr in Hc as Ha.
    destruct Ha as [a Ha].
    eapply safe_bind with (Q := λ _ _, True).
    { destruct (hasPtrs elem); [|by apply safe_ret].
      eapply safe_bind; [apply safe_Value_Len|]. intros m1 len _ _.
      apply safe_elements; [right; eauto|done|].
      intros v m2 Hv _. by apply IH. }
    intros m1 _ _ _. apply safe_ret. split; [done|]. intros _.
    rewrite <- Ht. by eapply has_size_Addr.
  - (* slice *) intros elem IH Hp val m (Ht & Hro & _).
    cbn [object_at plain] in *.
    eapply safe_bind with (Q := λ _ _, True).
    { destruct (hasPtrs elem); [|by apply safe_ret].
      eapply safe_bind; [apply safe_Value_Len|]. intros m1 len _ _.
      apply safe_elements; [by left|done|].
      intros v m2 Hv _. by apply IH. }
    intros m1 _ _ _.
    eapply safe_bind; [by apply safe_Value_Interface|].
    intros m3 i _ [-> (bs' & Hb' & ->)]. rewrite Ht.
    eapply safe_bind; [apply safe_Slice|].
    intros m4 r _ [p ->]. apply safe_ret. split; [done|].
    intros [a Ha]%CanAddr_Addr. unfold has_size. cbn [ValueOf stor e_data].
    assert (Z.of_nat (length bs') = 24) as Hl.
    { eapply Value_bytes_length; [exact Hb'| |lia].
      unfold has_size. by rewrite Ha, Ht. }
    rewrite length_set_word0 by lia. exact Hl.
  - (* map *) intros key _ elem _ Hp. discriminate Hp.
  - (* struct *) intros sz fs IH Hp val m (Ht & Hro & Hc).
    cbn [object_at plain] in *. apply CanAddr_Addr in Hc as Ha.
    destruct Ha as [a Ha].
    eapply safe_bind; [by eapply IH|].
    intros m1 _ _ _. apply safe_ret. split; [done|]. intros _.
    rewrite <- Ht. by eapply has_size_Addr.
  - (* no field left *) intros _ val a m _ _. by apply safe_ret.
  - (* a field *) intros name pkg ftype IHt off anon rest IHr Hp val a m Ha Hro.
    cbn [object_fields plain_fields PkgPath Anonymous FType] in *.
    apply andb_prop in Hp as [Hf Hrest].
    eapply safe_bind with (Q := λ _ _, True); [|intros; by eapply IHr].
    destruct (unexported pkg anon); cbn [negb andb orb] in *; [by apply safe_ret|].
    apply andb_prop in Hf as [Hpkg Hpl].
    destruct (hasPtrs ftype); [|by apply safe_ret].
    destruct (flagRO_false _ Hro) as [Hs He].
    assert (Value_Field val (mkField name pkg ftype off anon)
            = mkValue ftype (Addr (a + off)) false false) as ->.
    { unfold Value_Field. cbn [PkgPath Anonymous FType Offset].
      by rewrite Ha, Hs, Hpkg. }
    eapply safe_bind; [apply IHt; [done|apply walkable_Addr]|].
    intros m2 x _ [Hrx _]. by eapply safe_Value_Set.
Qed.

End Walk.

End Safety.

(* ======================================================================= *)
(** * Edge cases and failures of the single-level functions *)
(* ======================================================================= *)

Section Edges.
Import MemFacts RunFacts FreezeFacts WordFacts ExampleFacts Examples Refinement Safety.

(** A source that has an unmapped byte: the region is mapped and
    registered, and the copy faults before the region is protected. *)
Lemma copyAndFreeze_unreadable dataptr n m x :
  0 < n < 2 ^ 63 → brk m + round_up n ≤ addrLimit →
  dataptr ≤ x < dataptr + n → x < brk m → ¬ mapped m x →
  ∃ m', copyAndFreeze dataptr n m = (m', Fault) ∧
        brk m' = brk m + round_up n ∧
        finalizers m' = (brk m, n) :: finalizers m ∧
        (∀ y, brk m ≤ y < brk m' → writable m' y) ∧
        (∀ y, y < brk m → cells m' !! y = cells m !! y).
Proof.
  intros Hn Hroom Hx Hlow Hun.
  destruct (mmap_ok m n) as [m1 Hm]; [lia|done|].
  pose proof (λ y, lookup_mmap _ _ _ _ y Hm) as Hc.
  pose proof (brk_mmap _ _ _ _ Hm) as Hb.
  pose proof (finalizers_mmap _ _ _ _ Hm) as Hf.
  exists (set_finalizer (brk m) n m1).
  split; [|split; [done|split; [by rewrite <- Hf|split]]].
  - unfold copyAndFreeze. rewrite decide_False by lia.
    rewrite int_small by lia. rewrite bind_unfold.
    unfold unix_Mmap. rewrite Hm. rewrite bind_unfold.
    unfold runtime_SetFinalizer. rewrite bind_unfold.
    unfold copy. rewrite Z.min_id, bind_unfold.
    unfold mem_loads.
    destruct (loads (set_finalizer (brk m) n m1) dataptr n) as [bs|] eqn:Hl;
      [|done].
    exfalso. apply Hun. pose proof (loads_mapped _ _ _ _ x Hl Hx) as Hmx.
    unfold mapped in *. cbn [set_finalizer cells] in Hmx.
    rewrite Hc in Hmx. by rewrite decide_False in Hmx by lia.
  - intros y Hy. unfold writable, prot_at. cbn [set_finalizer cells brk] in *.
    rewrite Hc. by rewrite decide_True by lia.
  - intros y Hy. cbn [set_finalizer cells]. rewrite Hc.
    pose proof (round_up_ge n). by rewrite decide_False by lia.
Qed.

(** X1. Pointer on a nil pointer that has a type, such as a nil pointer to
    int held in an interface, does not return: the pointee size is not
    zero, so pages are mapped and the finalizer is registered, and the copy
    then reads from address 0, which is refused.  The call ends neither
    with a result nor with a panic of the package or of a failed system
    call (the Go runtime reports the refused read as a nil pointer
    dereference).  The pages, which were not mapped before, are left mapped
    and writable. *)
Theorem Pointer_nil_pointer_does_not_return (m : mem) (t : type)
    (w : list byte) :
  wf m → word0 w = 0 →
  0 < Type_Size t < 2 ^ 63 →
  brk m + round_up (Type_Size t) ≤ addrLimit →
  ∃ m' o h,
    Pointer (Some (mkEface (PtrTo t) w)) m = (m', o) ∧
    (∀ r, o ≠ Ok r) ∧
    (∀ s, o ≠ Panic (PanicString s)) ∧ (∀ e, o ≠ Panic (PanicError e)) ∧
    finalizers m' = (h, Type_Size t) :: finalizers m ∧
    (∀ y, h ≤ y < h + round_up (Type_Size t) → ¬ mapped m y ∧ writable m' y).
Proof.
  intros Hwf Hw Hsz Hroom.
  destruct (copyAndFreeze_unreadable 0 (Type_Size t) m 0)
    as (m' & Hc & Hb & Hf & Hwr & _); [done|done|lia| |..].
  { pose proof (wf_brk_pos _ Hwf). pose proof pageSize_pos. lia. }
  { intros Hm. apply (wf_low _ Hwf) in Hm. pose proof pageSize_pos. lia. }
  exists m', Fault, (brk m).
  split; [|split; [done|split; [done|split; [done|split; [done|]]]]].
  - unfold Pointer. cbn [e_typ e_data Type_Kind Type_Elem].
    rewrite decide_False by (intros H; by apply H).
    by rewrite bind_unfold, Hw, Hc.
  - intros y Hy. split.
    + intros Hm. pose proof (wf_high _ Hwf y Hm). lia.
    + apply Hwr. lia.
Qed.

(** The theorem at a nil pointer to int. *)
Lemma Pointer_nil_pointer_does_not_return_witness :
  ∃ m' o h,
    Pointer (Some (mkEface (PtrTo (Scalar SInt)) (ptr 0))) mem_int = (m', o) ∧
    (∀ r, o ≠ Ok r) ∧
    (∀ s, o ≠ Panic (PanicString s)) ∧ (∀ e, o ≠ Panic (PanicError e)) ∧
    finalizers m' = (h, 8) :: finalizers mem_int ∧
    (∀ y, h ≤ y < h + round_up 8 → ¬ mapped mem_int y ∧ writable m' y).
Proof.
  apply (Pointer_nil_pointer_does_not_return mem_int (Scalar SInt) (ptr 0)).
  - apply wf_mem_int.
  - by vm_compute.
  - simpl. lia.
  - by vm_compute.
Defined.

(** X2. Map on a nil map that has a type does not return: mapFreeze maps
    its two pages and registers the finalizer, and the copy of the header
    then reads from address 0, which is refused.  The call ends neither
    with a result nor with a panic of the package or of a failed system
    call.  The two pages, which were not mapped before, are left mapped and
    writable. *)
Theorem Map_nil_map_does_not_return (m : mem) (k e : type) (w : list byte) :
  wf m → word0 w = 0 →
  brk m + 2 * pageSize ≤ addrLimit →
  ∃ m' o h,
    Map (Some (mkEface (MapOf k e) w)) m = (m', o) ∧
    (∀ r, o ≠ Ok r) ∧
    (∀ s, o ≠ Panic (PanicString s)) ∧ (∀ err, o ≠ Panic (PanicError err)) ∧
    finalizers m' = (h, pageSize + 40) :: finalizers m ∧
    (∀ y, h ≤ y < h + 2 * pageSize → ¬ mapped m y ∧ writable m' y).
Proof.
  intros Hwf Hw Hroom.
  assert (pageSize = 4096) as Hps by reflexivity.
  assert (round_up (pageSize + 40) = 2 * pageSize) as Hru.
  { apply round_up_two_pages. lia. }
  destruct (mmap_ok m (pageSize + 40)) as [m1 Hm]; [lia|lia|].
  pose proof (λ y, lookup_mmap _ _ _ _ y Hm) as Hc.
  pose proof (finalizers_mmap _ _ _ _ Hm) as Hf.
  exists (set_finalizer (brk m) (pageSize + 40) m1), Fault, (brk m).
  split; [|split; [done|split; [done|split; [done|split]]]].
  - unfold Map. cbn [ValueOf typ e_typ e_data Type_Kind].
    rewrite decide_False by (intros H; by apply H).
    rewrite bind_unfold, Hw, mapFreeze_unfold, bind_unfold.
    unfold unix_Mmap. rewrite Hm. rewrite bind_unfold.
    unfold runtime_SetFinalizer. rewrite bind_unfold.
    unfold copy. rewrite bind_unfold.
    replace (Z.min (pageSize + 40 - (pageSize - 8)) 48) with 48 by lia.
    unfold mem_loads.
    destruct (loads (set_finalizer (brk m) (pageSize + 40) m1) 0 48)
      as [bs|] eqn:Hl; [|done].
    exfalso. pose proof (loads_mapped _ _ _ _ 0 Hl ltac:(lia)) as Hm0.
    unfold mapped in Hm0. cbn [set_finalizer cells] in Hm0. rewrite Hc in Hm0.
    pose proof (wf_brk_pos _ Hwf).
    rewrite decide_False in Hm0 by lia.
    apply (wf_low _ Hwf) in Hm0. lia.
  - by rewrite <- Hf.
  - intros y Hy. split.
    + intros Hmy. pose proof (wf_high _ Hwf y Hmy). lia.
    + unfold writable, prot_at. cbn [set_finalizer cells]. rewrite Hc.
      by rewrite decide_True by lia.
Qed.

(** The theorem at a nil map of type map[int]int. *)
Lemma Map_nil_map_does_not_return_witness :
  ∃ m' o h,
    Map (Some (mkEface (MapOf (Scalar SInt) (Scalar SInt)) (ptr 0))) mem_int
    = (m', o) ∧
    (∀ r, o ≠ Ok r) ∧
    (∀ s, o ≠ Panic (PanicString s)) ∧ (∀ err, o ≠ Panic (PanicError err)) ∧
    finalizers m' = (h, pageSize + 40) :: finalizers mem_int ∧
    (∀ y, h ≤ y < h + 2 * pageSize → ¬ mapped mem_int y ∧ writable m' y).
Proof.
  apply (Map_nil_map_does_not_return mem_int (Scalar SInt) (Scalar SInt) (ptr 0)).
  - apply wf_mem_int.
  - by vm_compute.
  - by vm_compute.
Defined.

(** X3. A pointee of size zero, or a slice whose elements have size zero,
    is never copied: Pointer and Slice return their argument and the memory
    is the one they started with, whatever the pointer is and whatever the
    length of the slice. *)
Theorem zero_size_is_returned (m : mem) (t : type) (w h : list byte) :
  Type_Size t = 0 → length w = 8%nat → length h = 24%nat →
  Pointer (Some (mkEface (PtrTo t) w)) m
  = (m, Ok (Some (mkEface (PtrTo t) w))) ∧
  Slice (Some (mkEface (SliceOf t) h)) m
  = (m, Ok (Some (mkEface (SliceOf t) h))).
Proof.
  intros Hz Hw Hh. split.
  - unfold Pointer. cbn [e_typ e_data Type_Kind Type_Elem].
    rewrite decide_False by (intros H; by apply H).
    rewrite Hz, bind_unfold, copyAndFreeze_zero, ret_unfold.
    by rewrite set_word0_word0 by lia.
  - unfold Slice. cbn [ValueOf typ e_typ e_data Type_Kind Type_Elem].
    rewrite decide_False by (intros H; by apply H).
    unfold Value_Len. cbn [typ Value_bytes stor].
    rewrite !bind_unfold, !ret_unfold, Hz, Z.mul_0_l.
    change (uintptr 0) with 0.
    rewrite bind_unfold, copyAndFreeze_zero, ret_unfold.
    by rewrite set_word0_word0 by lia.
Qed.

(** The theorem at a pointer to struct{} and at a slice of five struct{}. *)
Lemma zero_size_is_returned_witness :
  Pointer (Some (mkEface (PtrTo (StructOf 0 FNil)) (ptr 0x10000))) mem_int
  = (mem_int, Ok (Some (mkEface (PtrTo (StructOf 0 FNil)) (ptr 0x10000)))) ∧
  Slice (Some (mkEface (SliceOf (StructOf 0 FNil)) (slice_header 0x10000 5 5)))
        mem_int
  = (mem_int,
     Ok (Some (mkEface (SliceOf (StructOf 0 FNil)) (slice_header 0x10000 5 5)))).
Proof.
  apply (zero_size_is_returned mem_int (StructOf 0 FNil) (ptr 0x10000)
           (slice_header 0x10000 5 5)); reflexivity.
Defined.

(** X4. When the mapping cannot be made, copyAndFreeze panics with the
    error of the system call, which the caller can recover from, and the
    memory is untouched: nothing was mapped and no finalizer was set.  The
    error is EINVAL for a length that is not positive as an int, and ENOMEM
    when the address space has no room for the pages. *)
Theorem copyAndFreeze_mmap_failure (dataptr n : Z) (m : mem) :
  n ≠ 0 →
  int n ≤ 0 ∨ addrLimit < brk m + round_up (int n) →
  copyAndFreeze dataptr n m
  = (m, Panic (PanicError (if decide (int n ≤ 0) then EINVAL else ENOMEM))).
Proof.
  intros Hn Hf. unfold copyAndFreeze. rewrite decide_False by done.
  rewrite bind_unfold. unfold unix_Mmap, mmap.
  destruct (decide (int n ≤ 0)) as [Hi|Hi]; [done|].
  destruct Hf as [Hf|Hf]; [done|]. by rewrite decide_True by done.
Qed.

(** The theorem at a length of 2^63 bytes, which is negative as an int. *)
Lemma copyAndFreeze_mmap_failure_witness :
  copyAndFreeze 0x10000 (2 ^ 63) mem_int
  = (mem_int,
     Panic (PanicError (if decide (int (2 ^ 63) ≤ 0) then EINVAL else ENOMEM))).
Proof.
  apply (copyAndFreeze_mmap_failure 0x10000 (2 ^ 63) mem_int).
  - lia.
  - left. by vm_compute.
Defined.

(** X5. Pointer and Map never touch what exists: however the call ends,
    every byte that was mapped before it has the contents and the
    protection it had.  (Slice is not in this statement: it overwrites the
    data pointer of the header that the interface holds.) *)
Theorem Pointer_and_Map_keep_existing_memory (v : interface) (m m' : mem)
    (o : outcome interface) :
  wf m →
  Pointer v m = (m', o) ∨ Map v m = (m', o) →
  ∀ x, mapped m x → cells m' !! x = cells m !! x.
Proof.
  intros Hwf H x Hx. pose proof (wf_high _ Hwf x Hx) as Hlt.
  destruct v as [e|]; [|by destruct H as [[= <- _]|[= <- _]]].
  destruct H as [H|H]; revert H.
  - unfold Pointer. case_decide; [by intros [= <- _]|].
    intros Hr. apply bind_inv in Hr as [(m1 & p & Hc & [= <- _])|[[Hc _]|(p & Hc & _)]];
      by apply copyAndFreeze_frame in Hc as (_ & Hc & _); apply Hc.
  - unfold Map. case_decide; [by intros [= <- _]|].
    intros Hr. apply bind_inv in Hr as [(m1 & p & Hc & [= <- _])|[[Hc _]|(p & Hc & _)]];
      by apply mapFreeze_frame in Hc as (_ & Hc & _); apply Hc.
Qed.

(** The theorem at x := 3; Pointer(&x), for the first byte of x, and at
    Map(map[int]int{1: 1}), for the first byte of the header. *)
Lemma Pointer_and_Map_keep_existing_memory_witness :
  cells (Pointer ptr_int mem_int).1 !! 0x10000 = cells mem_int !! 0x10000 ∧
  cells (Map map_int_int mem_map).1 !! 0x10000 = cells mem_map !! 0x10000.
Proof.
  split.
  - apply (Pointer_and_Map_keep_existing_memory ptr_int mem_int
             (Pointer ptr_int mem_int).1 (Pointer ptr_int mem_int).2).
    + apply wf_mem_int.
    + left. apply surjective_pairing.
    + apply writable_mapped, writable_mem_of, Exists_cons_hd. simpl. lia.
  - apply (Pointer_and_Map_keep_existing_memory map_int_int mem_map
             (Map map_int_int mem_map).1 (Map map_int_int mem_map).2).
    + apply wf_mem_map.
    + right. apply surjective_pairing.
    + apply writable_mapped, writable_mem_of, Exists_cons_hd. simpl. lia.
Defined.

(** What Pointer does on a pointee that can be read. *)
Lemma Pointer_spec m t w bs :
  wf m → 0 < Type_Size t < 2 ^ 63 →
  loads m (word0 w) (Type_Size t) = Some bs →
  brk m + round_up (Type_Size t) ≤ addrLimit →
  ∃ m', Pointer (Some (mkEface (PtrTo t) w)) m
        = (m', Ok (Some (mkEface (PtrTo t) (set_word0 (brk m) w)))) ∧
        wf m' ∧
        word0 (set_word0 (brk m) w) = brk m ∧
        brk m' = brk m + round_up (Type_Size t) ∧
        finalizers m' = (brk m, Type_Size t) :: finalizers m ∧
        loads m' (brk m) (Type_Size t) = Some bs ∧
        (∀ x, brk m ≤ x < brk m' → readonly m' x) ∧
        (∀ x, x < brk m → cells m' !! x = cells m !! x).
Proof.
  intros Hwf Hsz Hl Hlim.
  destruct (copyAndFreeze_spec _ _ _ _ Hwf Hsz Hl Hlim)
    as (m' & Hc & Hwf' & Hl' & _).
  assert (Type_Size t ≠ 0) as Hne by lia.
  pose proof (copyAndFreeze_Ok _ _ _ _ _ Hne Hc)
    as (_ & _ & Hb & Hlim' & Hf & Hro).
  pose proof (copyAndFreeze_frame _ _ _ _ _ Hc) as (_ & Hfr & _).
  rewrite int_small in Hb, Hf by lia.
  exists m'. split; [|split; [done|split; [|done]]].
  - unfold Pointer. cbn [e_typ e_data Type_Kind Type_Elem].
    rewrite decide_False by (intros H; by apply H).
    by rewrite bind_unfold, Hc.
  - apply word0_set_word0. pose proof (wf_brk_pos _ Hwf).
    pose proof (round_up_ge (Type_Size t)).
    assert (pageSize = 4096) by reflexivity.
    assert (addrLimit = 2 ^ 47) by reflexivity. lia.
Qed.

(** X6. Freezing what is frozen already works: Pointer on the result of
    Pointer reads the first copy, which is allowed, and returns a second
    read-only copy with the same bytes, in another region; the first copy
    stays mapped and read-only, and both mappings have their finalizer. *)
Theorem Pointer_of_frozen_pointer (m : mem) (t : type) (w bs : list byte) :
  wf m → 0 < Type_Size t < 2 ^ 63 →
  loads m (word0 w) (Type_Size t) = Some bs →
  brk m + 2 * round_up (Type_Size t) ≤ addrLimit →
  ∃ m1 m2 e1 e2,
    Pointer (Some (mkEface (PtrTo t) w)) m = (m1, Ok (Some e1)) ∧
    Pointer (Some e1) m1 = (m2, Ok (Some e2)) ∧
    let h1 := word0 (e_data e1) in
    let h2 := word0 (e_data e2) in
    h2 ≠ h1 ∧
    loads m2 h1 (Type_Size t) = Some bs ∧
    loads m2 h2 (Type_Size t) = Some bs ∧
    (∀ x, h1 ≤ x < h1 + Type_Size t ∨ h2 ≤ x < h2 + Type_Size t →
          readonly m2 x) ∧
    finalizers m2 = (h2, Type_Size t) :: (h1, Type_Size t) :: finalizers m.
Proof.
  intros Hwf Hsz Hl Hlim.
  pose proof (round_up_ge (Type_Size t)) as Hru.
  destruct (Pointer_spec m t w bs Hwf Hsz Hl ltac:(lia))
    as (m1 & HP1 & Hwf1 & Hh1 & Hb1 & Hf1 & Hl1 & Hro1 & Hfr1).
  rewrite <- Hh1 in Hl1 at 1.
  destruct (Pointer_spec m1 t (set_word0 (brk m) w) bs Hwf1 Hsz Hl1 ltac:(lia))
    as (m2 & HP2 & Hwf2 & Hh2 & Hb2 & Hf2 & Hl2 & Hro2 & Hfr2).
  exists m1, m2, (mkEface (PtrTo t) (set_word0 (brk m) w)),
    (mkEface (PtrTo t) (set_word0 (brk m1) (set_word0 (brk m) w))).
  split; [exact HP1|]. split; [exact HP2|].
  cbn [e_data]. rewrite Hh1, Hh2. cbv zeta.
  split; [lia|]. split; [|split; [done|split]].
  - rewrite <- Hl1, Hh1. apply loads_ext. intros x Hx.
    unfold load1. rewrite Hfr2 by lia. done.
  - intros x [Hx|Hx].
    + unfold readonly, prot_at. rewrite Hfr2 by lia. apply Hro1. lia.
    + apply Hro2. lia.
  - by rewrite Hf2, Hf1.
Qed.

(** The theorem at x := 3; Pointer(Pointer(&x)). *)
Lemma Pointer_of_frozen_pointer_witness :
  ∃ m1 m2 e1 e2,
    Pointer ptr_int mem_int = (m1, Ok (Some e1)) ∧
    Pointer (Some e1) m1 = (m2, Ok (Some e2)) ∧
    let h1 := word0 (e_data e1) in
    let h2 := word0 (e_data e2) in
    h2 ≠ h1 ∧
    loads m2 h1 8 = Some (le_split 8 3) ∧
    loads m2 h2 8 = Some (le_split 8 3) ∧
    (∀ x, h1 ≤ x < h1 + 8 ∨ h2 ≤ x < h2 + 8 → readonly m2 x) ∧
    finalizers m2 = (h2, 8) :: (h1, 8) :: finalizers mem_int.
Proof.
  apply (Pointer_of_frozen_pointer mem_int (Scalar SInt) (ptr 0x10000)
           (le_split 8 3)).
  - apply wf_mem_int.
  - simpl. lia.
  - by vm_compute.
  - by vm_compute.
Defined.

End Edges.

(* ======================================================================= *)
(** * The walker on whole values *)
(* ======================================================================= *)

Section Walks.
Import MemFacts RunFacts FreezeFacts WordFacts ExampleFacts Examples Refinement Safety.

(** Value_Interface gives back the interface a value was made from. *)
Lemma Interface_ValueOf (e : eface) m :
  Value_Interface (ValueOf (Some e)) m = (m, Ok (Some e)).
Proof. by destruct e. Qed.

(** Object on a pointer whose pointee type has no pointers is Pointer. *)
Lemma Object_flat_pointer {RT : MapRuntime} t w m :
  hasPtrs t = false → word0 w ≠ 0 →
  Object (Some (mkEface (PtrTo t) w)) m = Pointer (Some (mkEface (PtrTo t) w)) m.
Proof.
  intros Hp Hw. unfold Object, object.
  cbn [ValueOf typ e_typ e_data Type_Kind object_at].
  rewrite Hp. unfold Value_IsNil, Value_Interface.
  cbn [flagRO flagStickyRO flagEmbedRO orb Value_bytes stor typ].
  cbv [mret mbind M_ret M_bind].
  rewrite bool_decide_eq_false_2 by done.
  destruct (Pointer _ m) as [m' [[e|]| |]] eqn:HP; try done.
  - by destruct e.
  - exfalso. revert HP. unfold Pointer. cbn [e_typ Type_Kind].
    rewrite decide_False by (intros H; by apply H).
    intros (? & ? & _ & [=])%bind_Ok.
Qed.

Lemma Object_flat_slice {RT : MapRuntime} t h m :
  hasPtrs t = false →
  Object (Some (mkEface (SliceOf t) h)) m = Slice (Some (mkEface (SliceOf t) h)) m.
Proof.
  intros Hp. unfold Object, object.
  cbn [ValueOf typ e_typ e_data Type_Kind object_at].
  rewrite Hp. unfold Value_Interface.
  cbn [flagRO flagStickyRO flagEmbedRO orb Value_bytes stor typ].
  cbv [mret mbind M_ret M_bind].
  destruct (Slice _ m) as [m' [[e|]| |]] eqn:HP; try done.
  - by destruct e.
  - exfalso. revert HP. unfold Slice. cbn [ValueOf typ e_typ Type_Kind].
    rewrite decide_False by (intros H; by apply H).
    intros (? & ? & _ & (? & ? & _ & [=])%bind_Ok)%bind_Ok.
Qed.

Lemma Object_flat_map {RT : MapRuntime} k t w m :
  hasPtrs k = false → hasPtrs t = false →
  Object (Some (mkEface (MapOf k t) w)) m = Map (Some (mkEface (MapOf k t) w)) m.
Proof.
  intros Hk Hp. unfold Object, object.
  cbn [ValueOf typ e_typ e_data Type_Kind object_at].
  rewrite Hp, Hk. cbn [orb]. unfold Value_Interface.
  cbn [flagRO flagStickyRO flagEmbedRO orb Value_bytes stor typ].
  cbv [mret mbind M_ret M_bind].
  cbn [flagRO flagStickyRO flagEmbedRO orb Value_bytes stor typ].
  cbv [mret M_ret].
  destruct (Map _ m) as [m' [[e|]| |]] eqn:HP; try done.
  - by destruct e.
  - exfalso. revert HP. unfold Map. cbn [ValueOf typ e_typ Type_Kind].
    rewrite decide_False by (intros H; by apply H).
    intros (? & ? & _ & [=])%bind_Ok.
Qed.

(** X7. Where the walker has nothing to descend into, Object is the
    single-level function, in every memory and with the same outcome,
    faults and panics included: on a pointer that is not nil to a type
    without pointers it is Pointer, on a slice of such a type it is Slice,
    and on a map whose keys and values are of such types it is Map, the
    map being neither read nor rebuilt. *)
Theorem Object_is_single_level_on_flat_types {RT : MapRuntime} (k t : type)
    (w h : list byte) (m : mem) :
  hasPtrs k = false → hasPtrs t = false → word0 w ≠ 0 →
  Object (Some (mkEface (PtrTo t) w)) m
  = Pointer (Some (mkEface (PtrTo t) w)) m ∧
  Object (Some (mkEface (SliceOf t) h)) m
  = Slice (Some (mkEface (SliceOf t) h)) m ∧
  Object (Some (mkEface (MapOf k t) w)) m
  = Map (Some (mkEface (MapOf k t) w)) m.
Proof.
  intros Hk Ht Hw. split; [|split].
  - by apply Object_flat_pointer.
  - by apply Object_flat_slice.
  - by apply Object_flat_map.
Qed.


Lemma Object_is_single_level_on_flat_types_witness :
  Object (RT := no_map_runtime) ptr_int mem_int
  = Pointer ptr_int mem_int ∧
  Object (RT := no_map_runtime)
    (Some (mkEface (SliceOf (Scalar SInt)) (slice_header 0x10000 3 4)))
    mem_int
  = Slice (Some (mkEface (SliceOf (Scalar SInt))
                   (slice_header 0x10000 3 4))) mem_int ∧
  Object (RT := no_map_runtime)
    (Some (mkEface (MapOf (Scalar SInt) (Scalar SInt)) (ptr 0x10000)))
    mem_int
  = Map (Some (mkEface (MapOf (Scalar SInt) (Scalar SInt))
                 (ptr 0x10000))) mem_int.
Proof.
  apply (Object_is_single_level_on_flat_types (RT := no_map_runtime)
           (Scalar SInt) (Scalar SInt) (ptr 0x10000)
           (slice_header 0x10000 3 4) mem_int).
  - reflexivity.
  - reflexivity.
  - by vm_compute.
Defined.

(** X8. Object on a nil pointer that has a type returns it and does
    nothing, whatever the pointee type and the memory: the walker tests
    IsNil before it calls Pointer.  (Pointer itself has no such test.) *)
Theorem Object_nil_pointer_is_returned {RT : MapRuntime} (t : type)
    (w : list byte) (m : mem) :
  word0 w = 0 →
  Object (Some (mkEface (PtrTo t) w)) m
  = (m, Ok (Some (mkEface (PtrTo t) w))).
Proof.
  intros Hw. unfold Object, object.
  cbn [ValueOf typ e_typ e_data Type_Kind object_at].
  unfold Value_IsNil, Value_Interface.
  cbn [flagRO flagStickyRO flagEmbedRO orb Value_bytes stor typ].
  cbv [mret mbind M_ret M_bind].
  rewrite bool_decide_eq_true_2 by done.
  reflexivity.
Qed.

(** The theorem at a nil pointer to int. *)
Lemma Object_nil_pointer_is_returned_witness :
  Object (RT := no_map_runtime)
    (Some (mkEface (PtrTo (Scalar SInt)) (ptr 0))) mem_int
  = (mem_int, Ok (Some (mkEface (PtrTo (Scalar SInt)) (ptr 0)))).
Proof.
  apply (Object_nil_pointer_is_returned (RT := no_map_runtime)).
  by vm_compute.
Defined.

(** X9. On a pointer or a slice whose type has no map and no embedded
    unexported field in the parts the walker visits, Object changes the
    protection of nothing that exists: whatever the outcome, mappings are
    only added above the old break, and every address below it has the
    protection it had, so that what was writable is writable and the
    originals are never frozen in place.  A panic of such a call is the
    error of a failed system call, never a panic of reflect. *)
Theorem Object_keeps_protections {RT : MapRuntime} (T : type) (w : list byte)
    (m m' : mem) (o : outcome interface) :
  Type_Kind T = reflect.Ptr ∨ Type_Kind T = reflect.Slice →
  plain T = true →
  Object (Some (mkEface T w)) m = (m', o) →
  brk m ≤ brk m' ∧
  (∀ x, x < brk m → prot_at m' x = prot_at m x) ∧
  (∀ p, o = Panic p → ∃ e, p = PanicError e).
Proof.
  intros HK Hpl H.
  assert (safe (Object (Some (mkEface T w))) m (λ _ _, True)) as Hs.
  { unfold Object, object. cbn [ValueOf typ e_typ].
    assert (walkable T (mkValue T (Imm w) false false)) as Hw.
    { split; [done|]. split; [done|]. by destruct T, HK. }
    destruct HK as [HK|HK]; rewrite HK.
    all: eapply safe_bind; [by apply object_at_safe|].
    all: intros m1 x _ [Hx _].
    all: eapply safe_weaken; [by apply safe_Value_Interface|done]. }
  destruct (Hs _ _ H) as [(Hb & Hp & _) Ho].
  split; [done|]. split; [done|]. intros p ->. exact Ho.
Qed.

(** The theorem at xs := []**int{q, q}. *)
Lemma Object_keeps_protections_witness :
  let r := Object (RT := no_map_runtime) slice_shared mem_shared in
  brk mem_shared ≤ brk r.1 ∧
  (∀ x, x < brk mem_shared → prot_at r.1 x = prot_at mem_shared x) ∧
  (∀ p, r.2 = Panic p → ∃ e, p = PanicError e).
Proof.
  intros r.
  apply (Object_keeps_protections (RT := no_map_runtime)
           (SliceOf (PtrTo (PtrTo (Scalar SInt)))) (slice_header 0x10010 2 2)
           mem_shared r.1 r.2).
  - right. reflexivity.
  - reflexivity.
  - apply surjective_pairing.
Defined.

(** The loop over the fields does not get past an embedded unexported
    field whose type may hold pointers. *)
Lemma object_fields_embedded {RT : MapRuntime} fs val m m' o :
  has_embedded_unexported fs = true →
  object_fields fs val m = (m', o) → ∀ u, o ≠ Ok u.
Proof.
  revert m. induction fs as [|name pkg ft off anon rest IH]; intros m He H;
    [done|].
  cbn [has_embedded_unexported] in He.
  cbn [object_fields PkgPath Anonymous FType] in H.
  apply bind_inv in H as [(m1 & [] & Hstep & H)|[[_ ->]|(p & _ & ->)]];
    [|done..].
  apply orb_prop in He as [He|He]; [|by eapply IH].
  exfalso. apply andb_prop in He as [He Hp]. apply andb_prop in He as [Hpkg ->].
  revert Hstep. unfold unexported. rewrite Hp.
  destruct (String.eqb pkg EmptyString) eqn:Hne; [done|]. cbn [negb andb].
  intros (m2 & x & _ & Hset)%bind_Ok. revert Hset.
  unfold Value_Set, Value_Field, flagRO.
  cbn [flagStickyRO flagEmbedRO PkgPath Anonymous]. rewrite Hne.
  cbn [negb andb]. by rewrite orb_true_r.
Qed.

(** X10. An embedded field that is unexported is not skipped: the test of
    the walker lets it through when its type may hold pointers.  The walker
    never returns normally from a struct that has such a field, at any
    position: if it gets as far as that field it descends into it, and if
    the descent returns, the Set of the field panics inside reflect, because
    the field was obtained through an unexported name.  When the field is
    the first of the struct and the descent returns, the outcome is that
    panic, and the memory is what the descent left. *)
Theorem embedded_unexported_field_panics {RT : MapRuntime}
    (sz : Z) (fs : fields) (val : Value) (m m' : mem) (o : outcome Value) :
  has_embedded_unexported fs = true →
  object_at (StructOf sz fs) val m = (m', o) →
  (∀ x, o ≠ Ok x) ∧
  (∀ name pkg ft off rest m1 x,
     fs = FCons name pkg ft off true rest →
     pkg ≠ EmptyString → hasPtrs ft = true →
     object_at ft (Value_Field val (mkField name pkg ft off true)) m
       = (m1, Ok x) →
     m' = m1 ∧
     o = Panic (PanicReflect
           "reflect: reflect.Value.Set using value obtained using unexported field")).
Proof.
  intros He H. split.
  - cbn [object_at] in H.
    apply bind_inv in H as [(m1 & [] & Hf & _)|[[_ ->]|(p & _ & ->)]];
      [|done..].
    by destruct (object_fields_embedded fs val m m1 (Ok tt) He Hf tt).
  - intros name pkg ft off rest m1 x -> Hpkg Hp Hx. revert H.
    cbn [object_at object_fields PkgPath Anonymous FType].
    assert (String.eqb pkg EmptyString = false) as Hne
      by by apply String.eqb_neq.
    unfold unexported. rewrite Hne, Hp. cbn [negb andb].
    rewrite !bind_unfold, Hx.
    unfold Value_Set, Value_Field, flagRO.
    cbn [flagStickyRO flagEmbedRO PkgPath Anonymous]. rewrite Hne.
    cbn [negb andb]. rewrite orb_true_r. by intros [= <- <-].
Qed.

(** The theorem at s := outer2{&x, inner{&x}}, where the embedded field
    comes second: the walker freezes x for the field P and again for
    s.inner.X, makes both point to the copies, and panics at the Set of
    s.inner. *)
Lemma embedded_unexported_field_panics_witness :
  let val := mkValue outer2_t (Addr 0x10008) false false in
  let r := object_at (RT := no_map_runtime) outer2_t val mem_embedded2 in
  ((∀ x, r.2 ≠ Ok x) ∧
   (∀ name pkg ft off rest m1 x,
      FCons "P" EmptyString (PtrTo (Scalar SInt)) 0 false
        (FCons "inner" "main" inner_t 8 true FNil)
      = FCons name pkg ft off true rest →
      pkg ≠ EmptyString → hasPtrs ft = true →
      object_at (RT := no_map_runtime) ft
        (Value_Field val (mkField name pkg ft off true)) mem_embedded2
      = (m1, Ok x) →
      r.1 = m1 ∧
      r.2 = Panic (PanicReflect
              "reflect: reflect.Value.Set using value obtained using unexported field"))) ∧
  r.2 = Panic (PanicReflect
          "reflect: reflect.Value.Set using value obtained using unexported field") ∧
  loads mem_embedded2 0x10008 16 = Some (ptr 0x10000 ++ ptr 0x10000) ∧
  loads r.1 0x10008 16 = Some (ptr 0x20000 ++ ptr 0x21000) ∧
  readonly r.1 0x20000 ∧ readonly r.1 0x21000.
Proof.
  intros val r. split; [|split; [|split; [|split; [|split]]]].
  - apply (embedded_unexported_field_panics (RT := no_map_runtime)
             16 (FCons "P" EmptyString (PtrTo (Scalar SInt)) 0 false
                   (FCons "inner" "main" inner_t 8 true FNil))
             val mem_embedded2 r.1 r.2).
    + reflexivity.
    + apply surjective_pairing.
  - by vm_compute.
  - by vm_compute.
  - by vm_compute.
  - by vm_compute.
  - by vm_compute.
Defined.















(** ** Running the walker *)

Lemma Value_IsNil_false v m bs :
  Value_bytes v m = (m, Ok bs) → word0 bs ≠ 0 → Value_IsNil v m = (m, Ok false).
Proof.
  intros Hb Hn. unfold Value_IsNil. rewrite bind_unfold, Hb, ret_unfold.
  by rewrite bool_decide_eq_false_2.
Qed.

Lemma Value_Interface_Ok v m bs :
  flagRO v = false → Value_bytes v m = (m, Ok bs) →
  Value_Interface v m = (m, Ok (Some (mkEface (typ v) bs))).
Proof.
  intros Hro Hb. unfold Value_Interface. by rewrite Hro, bind_unfold, Hb.
Qed.

Lemma Pointer_Ok t bs m m' p :
  copyAndFreeze (word0 bs) (Type_Size t) m = (m', Ok p) →
  Pointer (Some (mkEface (PtrTo t) bs)) m
  = (m', Ok (Some (mkEface (PtrTo t) (set_word0 p bs)))).
Proof.
  intros Hc. unfold Pointer. cbn [e_typ e_data Type_Kind Type_Elem].
  rewrite decide_False by (intros H; by apply H).
  by rewrite bind_unfold, Hc.
Qed.

(** The walker on a pointer that is not nil, given what it does on the
    pointee. *)
Lemma object_at_pointer {RT : MapRuntime} elem val m bs mb m3 p' :
  typ val = PtrTo elem → flagRO val = false →
  Value_bytes val m = (m, Ok bs) → word0 bs ≠ 0 →
  (if hasPtrs elem then
     ∃ m1 x,
       object_at elem (mkValue elem (Addr (word0 bs)) false false) m = (m1, Ok x) ∧
       Value_Set (mkValue elem (Addr (word0 bs)) false false) x m1 = (mb, Ok tt)
   else mb = m) →
  Value_bytes val mb = (mb, Ok bs) →
  copyAndFreeze (word0 bs) (Type_Size elem) mb = (m3, Ok p') →
  object_at (PtrTo elem) val m
  = (m3, Ok (mkValue (PtrTo elem) (Imm (set_word0 p' bs)) false false)).
Proof.
  intros Ht Hro Hb Hn Hbody Hb' Hc. cbn [object_at].
  rewrite (bind_step _ _ _ _ _ (Value_IsNil_false _ _ _ Hb Hn)).
  destruct (flagRO_false _ Hro) as [Hs He].
  assert ((if hasPtrs elem
           then dst ← Value_Elem val; src ← Value_Elem val;
                x ← object_at elem src; Value_Set dst x
           else mret ()) m = (mb, Ok tt)) as Hstep.
  { destruct (hasPtrs elem).
    - destruct Hbody as (m1 & x & Hx & Hset).
      pose proof (Value_Elem_nonnil _ _ _ Hb Hn) as HE.
      rewrite Ht, Hs, He in HE. cbn [Type_Elem] in HE.
      rewrite (bind_step _ _ _ _ _ HE), (bind_step _ _ _ _ _ HE).
      by rewrite (bind_step _ _ _ _ _ Hx).
    - by rewrite Hbody. }
  rewrite (bind_step _ _ _ _ _ Hstep).
  rewrite (bind_step _ _ _ _ _ (Value_Interface_Ok _ _ _ Hro Hb')), Ht.
  by rewrite (bind_step _ _ _ _ _ (Pointer_Ok _ _ _ _ _ Hc)).
Qed.

(** Object on a pointer, given what the walker does on the pointer. *)
Lemma Object_pointer {RT : MapRuntime} elem w m m' bs :
  object_at (PtrTo elem) (mkValue (PtrTo elem) (Imm w) false false) m
  = (m', Ok (mkValue (PtrTo elem) (Imm bs) false false)) →
  Object (Some (mkEface (PtrTo elem) w)) m
  = (m', Ok (Some (mkEface (PtrTo elem) bs))).
Proof.
  intros H. unfold Object, object. cbn [ValueOf typ e_typ e_data Type_Kind].
  by rewrite (bind_step _ _ _ _ _ H).
Qed.

(** X12. Object freezes a chain and redirects the original.  For a pointer
    to a pointer to data without pointers, where the inner pointer sits in
    writable memory: Object returns a handle to a read-only copy of the
    inner pointer, which points to a read-only copy of the data; and the
    inner pointer of the original has been overwritten in place with the
    address of the frozen data, so that the original now leads to frozen
    memory too.  Nothing else that existed has changed. *)
Theorem Object_freezes_chain_and_redirects_original {RT : MapRuntime}
    (m : mem) (t : type) (w wq bs : list byte) :
  let p := word0 w in
  let q := word0 wq in
  wf m → hasPtrs t = false → 0 < Type_Size t < 2 ^ 63 →
  loads m p 8 = Some wq → (∀ x, p ≤ x < p + 8 → writable m x) →
  loads m q (Type_Size t) = Some bs →
  brk m + round_up (Type_Size t) + pageSize ≤ addrLimit →
  ∃ m' e,
    Object (Some (mkEface (PtrTo (PtrTo t)) w)) m = (m', Ok (Some e)) ∧
    e_typ e = PtrTo (PtrTo t) ∧
    let q' := brk m in
    let p' := brk m + round_up (Type_Size t) in
    word0 (e_data e) = p' ∧
    loads m' p' 8 = Some (le_split 8 q') ∧
    loads m' q' (Type_Size t) = Some bs ∧
    (∀ x, p' ≤ x < p' + 8 ∨ q' ≤ x < q' + Type_Size t → readonly m' x) ∧
    loads m' p 8 = Some (le_split 8 q') ∧
    (∀ x, x < brk m → ¬ (p ≤ x < p + 8) → cells m' !! x = cells m !! x).
Proof.
  intros p q Hwf Hp Hsz Hlp Hwp Hlq Hroom.
  assert (pageSize = 4096) as Hps by reflexivity.
  assert (addrLimit = 2 ^ 47) as Hal by reflexivity.
  pose proof (round_up_ge (Type_Size t)) as Hru.
  pose proof (wf_brk_pos _ Hwf) as Hbp.
  assert (pageSize ≤ p ∧ p + 8 ≤ brk m) as [Hplo Hphi].
  { split.
    - apply (wf_low _ Hwf), writable_mapped, Hwp. lia.
    - pose proof (wf_high _ Hwf (p + 7)
                    (writable_mapped _ _ (Hwp (p + 7) ltac:(lia)))). lia. }
  assert (pageSize ≤ q) as Hqlo.
  { apply (wf_low _ Hwf), (loads_mapped _ _ _ _ q Hlq). lia. }
  assert (length wq = 8%nat) as Hlen by by apply loads_length in Hlp.
  assert (set_word0 (brk m) wq = le_split 8 (brk m)) as Hsw.
  { unfold set_word0. rewrite drop_ge by lia. apply app_nil_r. }
  (* the data is frozen *)
  destruct (copyAndFreeze_spec q (Type_Size t) m bs Hwf Hsz Hlq ltac:(lia))
    as (m1 & Hc1 & Hwf1 & Hl1 & _).
  assert (Type_Size t ≠ 0) as Hne by lia.
  destruct (copyAndFreeze_Ok _ _ _ _ _ Hne Hc1)
    as (_ & _ & Hb1 & _ & _ & Hro1).
  destruct (copyAndFreeze_frame _ _ _ _ _ Hc1) as (_ & Hfr1 & _).
  rewrite int_small in Hb1 by lia.
  (* the inner pointer is overwritten *)
  destruct (stores_is_Some m1 p (le_split 8 (brk m))) as [m2 Hst].
  { rewrite length_le_split. intros x Hx. unfold writable, prot_at.
    rewrite Hfr1 by lia. apply Hwp. lia. }
  pose proof (wf_stores _ _ _ _ Hwf1 Hst) as Hwf2.
  pose proof (brk_stores _ _ _ _ Hst) as Hb2.
  pose proof (loads_stores_same _ _ _ _ Hst) as Hl2.
  rewrite length_le_split in Hl2.
  (* the inner pointer is frozen *)
  destruct (copyAndFreeze_spec p 8 m2 _ Hwf2 ltac:(lia) Hl2)
    as (m3 & Hc3 & Hwf3 & Hl3 & _).
  { rewrite (round_up_small 8) by lia. lia. }
  assert (8 ≠ 0) as Hne8 by lia.
  destruct (copyAndFreeze_Ok _ _ _ _ _ Hne8 Hc3)
    as (_ & _ & Hb3 & _ & _ & Hro3).
  destruct (copyAndFreeze_frame _ _ _ _ _ Hc3) as (_ & Hfr3 & _).
  rewrite int_small in Hb3 by lia.
  pose proof (λ x, lookup_stores _ _ _ _ x Hst) as Hls.
  rewrite length_le_split in Hls.
  exists m3, (mkEface (PtrTo (PtrTo t)) (set_word0 (brk m2) w)).
  split; [|split; [done|]].
  { apply Object_pointer.
    apply (object_at_pointer (PtrTo t) _ m w m2 m3 (brk m2));
      [done|done|done|unfold p in Hplo; lia| |done|exact Hc3].
    change (hasPtrs (PtrTo t)) with true. cbv iota.
    exists m1, (mkValue (PtrTo t) (Imm (le_split 8 (brk m))) false false).
    split.
    - rewrite <- Hsw.
      apply (object_at_pointer t _ m wq m m1 (brk m));
        [done|done| |unfold q in Hqlo; lia|by rewrite Hp| |exact Hc1].
      all: unfold Value_bytes, mem_loads; cbn [stor typ Type_Size];
        fold p; by rewrite Hlp.
    - unfold Value_Set. cbn [flagRO flagStickyRO flagEmbedRO orb stor].
      unfold mem_stores. fold p. by rewrite Hst. }
  cbn [e_data]. cbv zeta.
  rewrite word0_set_word0 by lia. rewrite Hb2, Hb1.
  split; [done|]. rewrite Hb2, Hb1 in Hl3, Hro3, Hb3.
  split; [exact Hl3|]. split; [|split; [|split]].
  - rewrite <- Hl1. apply loads_ext. intros x Hx. unfold load1.
    rewrite Hfr3 by lia. rewrite Hls. by rewrite decide_False by lia.
  - intros x [Hx|Hx].
    + apply Hro3. rewrite Hb3, (round_up_small 8) by lia. lia.
    + unfold readonly, prot_at. rewrite Hfr3 by lia. rewrite Hls.
      rewrite decide_False by lia. apply Hro1. lia.
  - rewrite <- Hl2. apply loads_ext. intros x Hx. unfold load1.
    by rewrite Hfr3 by lia.
  - intros x Hx Hnp. rewrite Hfr3 by lia. rewrite Hls.
    rewrite decide_False by lia. apply Hfr1. lia.
Qed.

(** The theorem at x := 3; p := &x; Object(&p). *)
Lemma Object_freezes_chain_and_redirects_original_witness :
  let m := mem_ptr_ptr in
  let t := Scalar SInt in
  let p := word0 (ptr 0x10008) in
  ∃ m' e,
    Object (RT := no_map_runtime) (Some (mkEface (PtrTo (PtrTo t)) (ptr 0x10008))) m
    = (m', Ok (Some e)) ∧
    e_typ e = PtrTo (PtrTo t) ∧
    let q' := brk m in
    let p' := brk m + round_up (Type_Size t) in
    word0 (e_data e) = p' ∧
    loads m' p' 8 = Some (le_split 8 q') ∧
    loads m' q' (Type_Size t) = Some (le_split 8 3) ∧
    (∀ x, p' ≤ x < p' + 8 ∨ q' ≤ x < q' + Type_Size t → readonly m' x) ∧
    loads m' p 8 = Some (le_split 8 q') ∧
    (∀ x, x < brk m → ¬ (p ≤ x < p + 8) → cells m' !! x = cells m !! x).
Proof.
  intros m t p.
  assert (word0 (ptr 0x10008) = 0x10008) as Ep by by vm_compute.
  apply (Object_freezes_chain_and_redirects_original (RT := no_map_runtime)
           mem_ptr_ptr (Scalar SInt) (ptr 0x10008) (ptr 0x10000) (le_split 8 3)).
  - apply wf_mem_ptr_ptr.
  - reflexivity.
  - simpl. lia.
  - by vm_compute.
  - intros x Hx. rewrite Ep in Hx. apply writable_mem_of.
    apply Exists_cons_tl, Exists_cons_hd. simpl. lia.
  - by vm_compute.
  - by vm_compute.
Defined.

(** The walker visits no field of such a struct. *)
Lemma object_fields_skipped {RT : MapRuntime} fs val m :
  no_visited_field fs = true → object_fields fs val m = (m, Ok tt).
Proof.
  induction fs as [|name pkg ft off anon rest IH]; [done|].
  cbn [object_fields no_visited_field PkgPath Anonymous FType].
  intros [Hf Hr]%andb_prop.
  assert (negb (unexported pkg anon) && hasPtrs ft = false) as ->.
  { destruct (unexported pkg anon), (hasPtrs ft); done. }
  rewrite bind_unfold, ret_unfold. by apply IH.
Qed.

(** Object on a pointer whose pointee the walker leaves as it is. *)
Lemma Object_pointer_unvisited {RT : MapRuntime} elem w m :
  word0 w ≠ 0 →
  (if hasPtrs elem
   then dst ← Value_Elem (mkValue (PtrTo elem) (Imm w) false false);
        src ← Value_Elem (mkValue (PtrTo elem) (Imm w) false false);
        x ← object_at elem src; Value_Set dst x
   else mret ()) m = (m, Ok tt) →
  Object (Some (mkEface (PtrTo elem) w)) m
  = Pointer (Some (mkEface (PtrTo elem) w)) m.
Proof.
  intros Hw Hbody. unfold Object, object.
  cbn [ValueOf typ e_typ e_data Type_Kind object_at].
  rewrite bind_unfold.
  rewrite (bind_step _ _ _ _ _
             (Value_IsNil_false (mkValue (PtrTo elem) (Imm w) false false)
                m w eq_refl Hw)).
  rewrite (bind_step _ _ _ _ _ Hbody).
  rewrite (bind_step _ _ _ _ _
             (Value_Interface_Ok (mkValue (PtrTo elem) (Imm w) false false)
                m w eq_refl eq_refl)).
  cbn [typ]. rewrite bind_unfold.
  destruct (Pointer _ m) as [m' [[e|]| |]] eqn:HP; try done.
  - by rewrite ret_unfold, Interface_ValueOf.
  - exfalso. revert HP. unfold Pointer. cbn [e_typ Type_Kind].
    rewrite decide_False by (intros H; by apply H).
    intros (? & ? & _ & [=])%bind_Ok.
Qed.







(** X13. Object does not descend into fields that are unexported and not
    embedded.  On a pointer to a struct in which every field is such a
    field or has a type without pointers, and which can be read and
    written, Object is Pointer: the struct is copied as it is, what its
    unexported slices and pointers lead to is not copied, and nothing that
    existed is changed.  (The Set of the struct onto itself moves nothing.) *)
Theorem Object_skips_unexported_fields {RT : MapRuntime} (sz : Z)
    (fs : fields) (w bs : list byte) (m : mem) :
  no_visited_field fs = true → word0 w ≠ 0 →
  loads m (word0 w) sz = Some bs →
  (∀ x, word0 w ≤ x < word0 w + sz → writable m x) →
  Object (Some (mkEface (PtrTo (StructOf sz fs)) w)) m
  = Pointer (Some (mkEface (PtrTo (StructOf sz fs)) w)) m.
Proof.
  intros Hfs Hw Hl Hwr. apply Object_pointer_unvisited; [done|].
  change (hasPtrs (StructOf sz fs)) with true. cbv iota.
  set (val := mkValue (PtrTo (StructOf sz fs)) (Imm w) false false).
  set (s := mkValue (StructOf sz fs) (Addr (word0 w)) false false).
  assert (Value_Elem val m = (m, Ok s)) as HE.
  { by apply (Value_Elem_nonnil val m w). }
  rewrite (bind_step _ _ _ _ _ HE), (bind_step _ _ _ _ _ HE).
  cbn [object_at]. rewrite !bind_unfold.
  rewrite (object_fields_skipped fs s m Hfs), ret_unfold.
  unfold Value_Set, s. cbn [flagRO flagStickyRO flagEmbedRO orb stor].
  by rewrite decide_True.
Qed.

(** The theorem at f := &foo{[]byte{1, 2, 3}}, where the field of foo is
    unexported. *)
Lemma Object_skips_unexported_fields_witness :
  Object (RT := no_map_runtime) ptr_foo_private mem_foo_private
  = Pointer ptr_foo_private mem_foo_private.
Proof.
  assert (word0 (ptr 0x10008) = 0x10008) as Ep by by vm_compute.
  apply (Object_skips_unexported_fields (RT := no_map_runtime) 24
           (FCons "b" "main" (SliceOf (Scalar SUint8)) 0 false FNil)
           (ptr 0x10008) (slice_header 0x10000 3 3) mem_foo_private).
  - reflexivity.
  - by vm_compute.
  - by vm_compute.
  - intros x Hx. rewrite Ep in Hx. apply writable_mem_of.
    apply Exists_cons_tl, Exists_cons_hd. simpl. lia.
Defined.

(** X14. Object on what Object returned does return when there is nothing
    to descend into: for a pointer to data without pointers, the second
    Object reads the first copy, which is allowed, and returns a second
    read-only copy with the same bytes. *)
Theorem Object_twice_returns_on_flat_pointee {RT : MapRuntime} (m : mem)
    (t : type) (w bs : list byte) :
  wf m → hasPtrs t = false → 0 < Type_Size t < 2 ^ 63 →
  loads m (word0 w) (Type_Size t) = Some bs →
  brk m + 2 * round_up (Type_Size t) ≤ addrLimit →
  ∃ m1 m2 e1 e2,
    Object (Some (mkEface (PtrTo t) w)) m = (m1, Ok (Some e1)) ∧
    Object (Some e1) m1 = (m2, Ok (Some e2)) ∧
    word0 (e_data e1) ≠ word0 (e_data e2) ∧
    loads m2 (word0 (e_data e2)) (Type_Size t) = Some bs ∧
    (∀ x, word0 (e_data e2) ≤ x < word0 (e_data e2) + Type_Size t →
          readonly m2 x).
Proof.
  intros Hwf Hp Hsz Hl Hlim.
  pose proof (round_up_ge (Type_Size t)) as Hru.
  pose proof pageSize_pos as Hps.
  assert (word0 w ≠ 0) as Hw.
  { pose proof (wf_low _ Hwf _ (loads_mapped _ _ _ _ (word0 w) Hl ltac:(lia))).
    lia. }
  destruct (Pointer_spec m t w bs Hwf Hsz Hl ltac:(lia))
    as (m1 & HP1 & Hwf1 & Hh1 & Hb1 & Hf1 & Hl1 & Hro1 & Hfr1).
  rewrite <- Hh1 in Hl1 at 1.
  destruct (Pointer_spec m1 t (set_word0 (brk m) w) bs Hwf1 Hsz Hl1 ltac:(lia))
    as (m2 & HP2 & Hwf2 & Hh2 & Hb2 & Hf2 & Hl2 & Hro2 & Hfr2).
  pose proof (wf_brk_pos _ Hwf) as Hbp.
  exists m1, m2, (mkEface (PtrTo t) (set_word0 (brk m) w)),
    (mkEface (PtrTo t) (set_word0 (brk m1) (set_word0 (brk m) w))).
  split; [by rewrite Object_flat_pointer|].
  split; [rewrite Object_flat_pointer; [done|done|rewrite Hh1; lia]|].
  cbn [e_data]. rewrite Hh1, Hh2.
  split; [lia|]. split; [done|]. intros x Hx. apply Hro2. lia.
Qed.

(** The theorem at x := 3; Object(Object(&x)). *)
Lemma Object_twice_returns_on_flat_pointee_witness :
  ∃ m1 m2 e1 e2,
    Object (RT := no_map_runtime) ptr_int mem_int = (m1, Ok (Some e1)) ∧
    Object (RT := no_map_runtime) (Some e1) m1 = (m2, Ok (Some e2)) ∧
    word0 (e_data e1) ≠ word0 (e_data e2) ∧
    loads m2 (word0 (e_data e2)) 8 = Some (le_split 8 3) ∧
    (∀ x, word0 (e_data e2) ≤ x < word0 (e_data e2) + 8 → readonly m2 x).
Proof.
  apply (Object_twice_returns_on_flat_pointee (RT := no_map_runtime) mem_int
           (Scalar SInt) (ptr 0x10000) (le_split 8 3)).
  - apply wf_mem_int.
  - reflexivity.
  - simpl. lia.
  - by vm_compute.
  - by vm_compute.
Defined.

(** ** The walker and the naive walker on plain types *)









End Walks.

(* ======================================================================= *)
(** * The walker on a slice of pointers *)
(* ======================================================================= *)

Section SliceOfPointers.
Import MemFacts RunFacts FreezeFacts WordFacts ExampleFacts Examples Refinement Safety.

(** Reading is decided byte by byte. *)
Lemma loads_pointwise m m' a a' n :
  (∀ j, 0 ≤ j < n → load1 m' (a' + j) = load1 m (a + j)) →
  loads m' a' n = loads m a n.
Proof.
  intros Hp.
  assert (∀ m1 m2 a1 a2 bs,
            (∀ j, 0 ≤ j < n → load1 m2 (a2 + j) = load1 m1 (a1 + j)) →
            loads m1 a1 n = Some bs → loads m2 a2 n = Some bs) as Hone.
  { intros m1 m2 a1 a2 bs H [Hl Hb]%loads_Some. apply loads_Some.
    split; [done|]. intros i Hi. rewrite H by lia. by apply Hb. }
  destruct (loads m a n) as [bs|] eqn:E.
  - by apply (Hone m m' a a').
  - destruct (loads m' a' n) as [bs'|] eqn:E'; [|done].
    apply (Hone m' m a' a) in E'; [congruence|].
    intros j Hj. by rewrite Hp.
Qed.

(** A part of what was read. *)
Lemma loads_part m a n bs m' a' o k :
  loads m a n = Some bs → loads m' a' n = Some bs →
  0 ≤ o → 0 ≤ k → o + k ≤ n →
  loads m' (a' + o) k = loads m (a + o) k.
Proof.
  intros [_ H]%loads_Some [_ H']%loads_Some Ho Hk Hn.
  apply loads_pointwise. intros j Hj.
  replace (a' + o + j) with (a' + Z.of_nat (Z.to_nat (o + j))) by lia.
  replace (a + o + j) with (a + Z.of_nat (Z.to_nat (o + j))) by lia.
  rewrite H, H' by lia. done.
Qed.

(** One element of a slice of pointers to data without pointers: the data
    is copied into a new read-only region and the element is overwritten
    with the address of the copy. *)
Lemma visit_pointer_element {RT : MapRuntime} t h (i : Z) wq bs m :
  let slot := word0 h + i * 8 in
  let val := mkValue (SliceOf (PtrTo t)) (Imm h) false false in
  wf m → hasPtrs t = false → 0 < Type_Size t < 2 ^ 63 →
  loads m slot 8 = Some wq → (∀ x, slot ≤ x < slot + 8 → writable m x) →
  loads m (word0 wq) (Type_Size t) = Some bs →
  brk m + round_up (Type_Size t) ≤ addrLimit →
  ∃ m',
    (dst ← Value_Index val i;
     src ← Value_Index val i;
     x ← object_at (PtrTo t) src;
     Value_Set dst x) m = (m', Ok tt) ∧
    wf m' ∧ brk m' = brk m + round_up (Type_Size t) ∧
    loads m' slot 8 = Some (le_split 8 (brk m)) ∧
    loads m' (brk m) (Type_Size t) = Some bs ∧
    (∀ x, brk m ≤ x < brk m' → readonly m' x) ∧
    (∀ x, x < brk m → prot_at m' x = prot_at m x) ∧
    (∀ x, x < brk m → ¬ (slot ≤ x < slot + 8) → cells m' !! x = cells m !! x).
Proof.
  intros slot val Hwf Hp Hsz Hls Hws Hlq Hroom.
  pose proof (round_up_ge (Type_Size t)) as Hru.
  pose proof pageSize_pos as Hps.
  assert (slot + 8 ≤ brk m) as Hshi.
  { pose proof (wf_high _ Hwf (slot + 7)
                  (writable_mapped _ _ (Hws (slot + 7) ltac:(lia)))). lia. }
  assert (pageSize ≤ word0 wq) as Hqlo.
  { apply (wf_low _ Hwf), (loads_mapped _ _ _ _ (word0 wq) Hlq). lia. }
  assert (length wq = 8%nat) as Hlen by by apply loads_length in Hls.
  assert (set_word0 (brk m) wq = le_split 8 (brk m)) as Hsw.
  { unfold set_word0. rewrite drop_ge by lia. apply app_nil_r. }
  destruct (copyAndFreeze_spec (word0 wq) (Type_Size t) m bs Hwf Hsz Hlq Hroom)
    as (m1 & Hc1 & Hwf1 & Hl1 & _).
  assert (Type_Size t ≠ 0) as Hne by lia.
  destruct (copyAndFreeze_Ok _ _ _ _ _ Hne Hc1) as (_ & _ & Hb1 & _ & _ & Hro1).
  destruct (copyAndFreeze_frame _ _ _ _ _ Hc1) as (_ & Hfr1 & _).
  rewrite int_small in Hb1 by lia.
  destruct (stores_is_Some m1 slot (le_split 8 (brk m))) as [m2 Hst].
  { rewrite length_le_split. intros x Hx. unfold writable, prot_at.
    rewrite Hfr1 by lia. apply Hws. lia. }
  pose proof (wf_stores _ _ _ _ Hwf1 Hst) as Hwf2.
  pose proof (brk_stores _ _ _ _ Hst) as Hb2.
  pose proof (loads_stores_same _ _ _ _ Hst) as Hl2.
  pose proof (λ x, lookup_stores _ _ _ _ x Hst) as Hls2.
  rewrite length_le_split in Hl2, Hls2.
  set (e := mkValue (PtrTo t) (Addr slot) false false).
  assert (∀ m0, Value_Index val i m0 = (m0, Ok e)) as HI.
  { intros m0. unfold Value_Index, val. cbn [typ Value_bytes stor Type_Elem].
    by rewrite bind_unfold, !ret_unfold. }
  assert (object_at (PtrTo t) e m
          = (m1, Ok (mkValue (PtrTo t) (Imm (le_split 8 (brk m))) false false)))
    as Hobj.
  { rewrite <- Hsw.
    apply (object_at_pointer t e m wq m m1 (brk m));
      [done|done| |lia|by rewrite Hp| |exact Hc1].
    all: unfold Value_bytes, mem_loads, e; cbn [stor typ Type_Size];
      by rewrite Hls. }
  exists m2. split; [|split; [done|split; [lia|split; [done|]]]].
  { rewrite (bind_step _ _ _ _ _ (HI m)), (bind_step _ _ _ _ _ (HI m)).
    rewrite (bind_step _ _ _ _ _ Hobj).
    unfold Value_Set, e. cbn [flagRO flagStickyRO flagEmbedRO orb stor].
    unfold mem_stores. by rewrite Hst. }
  split; [|split; [|split]].
  - rewrite <- Hl1. apply loads_ext. intros x Hx. unfold load1.
    rewrite Hls2. by rewrite decide_False by lia.
  - intros x Hx. unfold readonly. rewrite (prot_at_stores _ _ _ _ x Hst).
    apply Hro1. lia.
  - intros x Hx. rewrite (prot_at_stores _ _ _ _ x Hst). unfold prot_at.
    by rewrite Hfr1.
  - intros x Hx Hn. rewrite Hls2, decide_False by lia. by apply Hfr1.
Qed.

Lemma region_below (i k : nat) R :
  0 ≤ R → (i < k)%nat → Z.of_nat i * R + R ≤ Z.of_nat k * R.
Proof.
  intros HR Hik. replace (Z.of_nat i * R + R) with ((Z.of_nat i + 1) * R) by lia.
  apply Z.mul_le_mono_nonneg_r; lia.
Qed.

(** One more element. *)
Lemma elements_frozen_step {RT : MapRuntime} t h ws bss b0 (k : nat) m :
  let d := word0 h in
  let val := mkValue (SliceOf (PtrTo t)) (Imm h) false false in
  hasPtrs t = false → 0 < Type_Size t < 2 ^ 63 →
  length bss = length ws →
  d + Z.of_nat (length ws) * 8 ≤ b0 →
  (∀ (i : nat) w, ws !! i = Some w →
     word0 w + Type_Size t ≤ b0 ∧
     (word0 w + Type_Size t ≤ d ∨ d + Z.of_nat (length ws) * 8 ≤ word0 w)) →
  b0 + Z.of_nat (length ws) * round_up (Type_Size t) ≤ addrLimit →
  (k < length ws)%nat →
  elements_frozen t d b0 ws bss k m →
  ∃ m',
    (dst ← Value_Index val (Z.of_nat k);
     src ← Value_Index val (Z.of_nat k);
     x ← object_at (PtrTo t) src;
     Value_Set dst x) m = (m', Ok tt) ∧
    elements_frozen t d b0 ws bss (S k) m'.
Proof.
  intros d val Hp Hsz Hlen Harr Hdis Hroom Hk
    (Hwf & Hb & Hwr & Hrest & Hpts & Hdone).
  set (sz := Type_Size t) in *. set (R := round_up sz) in *.
  pose proof (round_up_ge sz) as Hru.
  assert (0 ≤ R) as HR by lia.
  destruct (lookup_lt_is_Some_2 ws k Hk) as [w Hw].
  destruct (lookup_lt_is_Some_2 bss k ltac:(lia)) as [bs Hbs].
  pose proof (region_below k (length ws) R HR Hk) as Hkn.
  destruct (visit_pointer_element t h (Z.of_nat k) w bs m Hwf Hp Hsz)
    as (m' & Hrun & Hwf' & Hb' & Hslot & Hcopy & Hro & Hprot & Hcells).
  { by apply Hrest. }
  { intros x Hx. apply Hwr. fold d in Hx. lia. }
  { by eapply Hpts. }
  { fold sz R. lia. }
  fold d sz R in Hb', Hslot, Hcopy, Hro, Hprot, Hcells.
  exists m'. split; [exact Hrun|].
  assert (∀ a n, a + n ≤ brk m →
            (a + n ≤ d + Z.of_nat k * 8 ∨ d + Z.of_nat k * 8 + 8 ≤ a) →
            loads m' a n = loads m a n) as Hsame.
  { intros a n Ha Hor. apply loads_ext. intros x Hx. unfold load1.
    rewrite Hcells by lia. done. }
  unfold elements_frozen. fold sz R.
  split; [done|]. split; [rewrite Hb', Hb; lia|]. split; [|split; [|split]].
  - intros x Hx. unfold writable. rewrite Hprot by lia. by apply Hwr.
  - intros i w' Hi Hw'. rewrite Hsame; [apply Hrest; [lia|done]| |lia].
    pose proof (lookup_lt_Some _ _ _ Hw'). lia.
  - intros i w' bs' Hw' Hbs'. destruct (Hdis i w' Hw') as [Hlo Hd].
    rewrite Hsame; [by eapply Hpts|lia|lia].
  - intros i bs' Hi Hbs'. destruct (decide (i = k)) as [->|Hne].
    + replace bs' with bs by congruence. rewrite <- Hb.
      split; [done|]. split; [done|]. intros x Hx. apply Hro. lia.
    + assert (i < k)%nat as Hik by lia.
      destruct (Hdone i bs' Hik Hbs') as (H1 & H2 & H3).
      pose proof (region_below i k R HR Hik) as Hreg.
      split; [|split].
      * rewrite Hsame; [done|lia|lia].
      * rewrite Hsame; [done|lia|lia].
      * intros x Hx. unfold readonly. rewrite Hprot by lia. by apply H3.
Qed.

(** The loop over the elements. *)
Lemma elements_frozen_loop {RT : MapRuntime} t h ws bss b0 (j : nat) :
  let d := word0 h in
  let val := mkValue (SliceOf (PtrTo t)) (Imm h) false false in
  hasPtrs t = false → 0 < Type_Size t < 2 ^ 63 →
  length bss = length ws →
  d + Z.of_nat (length ws) * 8 ≤ b0 →
  (∀ (i : nat) w, ws !! i = Some w →
     word0 w + Type_Size t ≤ b0 ∧
     (word0 w + Type_Size t ≤ d ∨ d + Z.of_nat (length ws) * 8 ≤ word0 w)) →
  b0 + Z.of_nat (length ws) * round_up (Type_Size t) ≤ addrLimit →
  ∀ (k : nat) m, (k + j = length ws)%nat →
  elements_frozen t d b0 ws bss k m →
  ∃ m',
    for_each (seqZ (Z.of_nat k) (Z.of_nat j)) (λ i,
      dst ← Value_Index val i;
      src ← Value_Index val i;
      x ← object_at (PtrTo t) src;
      Value_Set dst x) m = (m', Ok tt) ∧
    elements_frozen t d b0 ws bss (length ws) m'.
Proof.
  intros d val Hp Hsz Hlen Harr Hdis Hroom.
  induction j as [|j IH]; intros k m Hkj Hinv.
  - exists m. split; [done|]. by replace (length ws) with k by lia.
  - destruct (elements_frozen_step t h ws bss b0 k m Hp Hsz Hlen Harr Hdis
                Hroom ltac:(lia) Hinv) as (m1 & Hrun & Hinv1).
    destruct (IH (S k) m1 ltac:(lia) Hinv1) as (m' & Hloop & Hinv').
    exists m'. split; [|done].
    rewrite seqZ_cons by lia. cbn [for_each].
    rewrite (bind_step _ _ _ _ _ Hrun).
    replace (Z.succ (Z.of_nat k)) with (Z.of_nat (S k)) by lia.
    replace (Z.pred (Z.of_nat (S j))) with (Z.of_nat j) by lia.
    exact Hloop.
Qed.

Lemma Slice_Ok e h m m' p :
  copyAndFreeze (word0 h) (uintptr (Type_Size e * uintptr (int (word1 h)))) m
  = (m', Ok p) →
  Slice (Some (mkEface (SliceOf e) h)) m
  = (m', Ok (Some (mkEface (SliceOf e) (set_word0 p h)))).
Proof.
  intros Hc. unfold Slice. cbn [ValueOf typ e_typ e_data Type_Kind Type_Elem].
  rewrite decide_False by (intros H; by apply H).
  unfold Value_Len. cbn [typ Value_bytes stor].
  rewrite !bind_unfold, !ret_unfold. by rewrite bind_unfold, Hc.
Qed.

(** X15. Object on a slice of pointers to data without pointers freezes
    every pointee and the array.  When the array of the slice is writable,
    and the pointees can be read and do not overlap the array: Object
    returns a slice header with the same length and capacity over a
    read-only array, in which element i points to a read-only region that
    holds the bytes of pointee i, the regions being handed out in the order
    of the elements; and element i of the original array has been
    overwritten with the same address. *)
Theorem Object_freezes_slice_of_pointers {RT : MapRuntime} (m : mem)
    (t : type) (h : list byte) (ws bss : list (list byte)) :
  let d := word0 h in
  let n := Z.of_nat (length ws) in
  let sz := Type_Size t in
  let R := round_up sz in
  wf m → hasPtrs t = false → 0 < sz < 2 ^ 63 →
  (0 < length ws)%nat → length bss = length ws → int (word1 h) = n →
  (∀ x, d ≤ x < d + n * 8 → writable m x) →
  (∀ (i : nat) w, ws !! i = Some w →
     loads m (d + Z.of_nat i * 8) 8 = Some w ∧
     (word0 w + sz ≤ d ∨ d + n * 8 ≤ word0 w)) →
  (∀ (i : nat) w bs, ws !! i = Some w → bss !! i = Some bs →
     loads m (word0 w) sz = Some bs) →
  brk m + n * R + round_up (n * 8) ≤ addrLimit →
  ∃ m' e,
    Object (Some (mkEface (SliceOf (PtrTo t)) h)) m = (m', Ok (Some e)) ∧
    e_typ e = SliceOf (PtrTo t) ∧
    word1 (e_data e) = word1 h ∧ word2 (e_data e) = word2 h ∧
    let d' := word0 (e_data e) in
    d' = brk m + n * R ∧
    ∀ (i : nat) bs, bss !! i = Some bs →
      let q' := brk m + Z.of_nat i * R in
      loads m' (d' + Z.of_nat i * 8) 8 = Some (le_split 8 q') ∧
      (∀ x, d' + Z.of_nat i * 8 ≤ x < d' + Z.of_nat i * 8 + 8 → readonly m' x) ∧
      loads m' q' sz = Some bs ∧
      (∀ x, q' ≤ x < q' + sz → readonly m' x) ∧
      loads m (d + Z.of_nat i * 8) 8 = ws !! i ∧
      loads m' (d + Z.of_nat i * 8) 8 = Some (le_split 8 q').
Proof.
  intros d n sz R Hwf Hp Hsz Hpos Hlen Hn Hwr Hws Hbss Hroom.
  assert (pageSize = 4096) as Hps by reflexivity.
  assert (addrLimit = 2 ^ 47) as Hal by reflexivity.
  pose proof (round_up_ge sz) as Hru. assert (0 ≤ R) as HR by (unfold R; lia).
  pose proof (wf_brk_pos _ Hwf) as Hbp.
  pose proof (round_up_ge (n * 8)) as Hru8.
  assert (0 < n) as Hn0 by (unfold n; lia).
  assert (0 ≤ n * R) as HnR by (apply Z.mul_nonneg_nonneg; lia).
  assert (pageSize ≤ d ∧ d + n * 8 ≤ brk m) as [Hdlo Hdhi].
  { split.
    - apply (wf_low _ Hwf), writable_mapped, Hwr. lia.
    - pose proof (wf_high _ Hwf (d + n * 8 - 1)
                    (writable_mapped _ _ (Hwr (d + n * 8 - 1) ltac:(lia)))).
      lia. }
  (* the loop *)
  destruct (elements_frozen_loop t h ws bss (brk m) (length ws) Hp Hsz Hlen)
    with (k := 0%nat) (m := m) as (mn & Hloop & Hinv).
  { fold d n. lia. }
  { intros i w Hw. fold d n sz. destruct (Hws i w Hw) as [Hl Hd].
    split; [|done].
    destruct (lookup_lt_is_Some_2 bss i) as [bs Hbs].
    { rewrite Hlen. by eapply lookup_lt_Some. }
    pose proof (Hbss i w bs Hw Hbs) as Hlq.
    assert (word0 w ≤ word0 w + sz - 1 < word0 w + sz) as Hin by lia.
    pose proof (wf_high _ Hwf _ (loads_mapped _ _ _ _ _ Hlq Hin)). lia. }
  { fold n sz R. lia. }
  { done. }
  { fold d. unfold elements_frozen. fold sz R n.
    split; [done|]. split; [lia|]. split; [done|]. split; [|split].
    - intros i w _ Hw. by apply Hws.
    - done.
    - intros i bs Hi. lia. }
  fold d in Hloop, Hinv.
  destruct Hinv as (Hwfn & Hbn & Hwrn & _ & _ & Hdone). fold sz R n in Hbn, Hwrn, Hdone.
  (* the array is frozen *)
  destruct (loads_is_Some mn d (n * 8)) as [arr Harr].
  { intros x Hx. by apply writable_mapped, Hwrn. }
  destruct (copyAndFreeze_spec d (n * 8) mn arr Hwfn ltac:(lia) Harr ltac:(lia))
    as (m' & Hc & Hwf' & Hl' & _).
  assert (n * 8 ≠ 0) as Hne by lia.
  destruct (copyAndFreeze_Ok _ _ _ _ _ Hne Hc) as (_ & _ & Hb' & _ & _ & Hro').
  destruct (copyAndFreeze_frame _ _ _ _ _ Hc) as (_ & Hfr' & _).
  rewrite int_small in Hb' by lia.
  assert (∀ a k, a + k ≤ brk mn → loads m' a k = loads mn a k) as Hsame.
  { intros a k Ha. apply loads_ext. intros x Hx. unfold load1.
    by rewrite Hfr' by lia. }
  set (val := mkValue (SliceOf (PtrTo t)) (Imm h) false false) in *.
  exists m', (mkEface (SliceOf (PtrTo t)) (set_word0 (brk mn) h)).
  split; [|split; [done|split; [apply word1_set_word0|split; [apply word2_set_word0|]]]].
  { unfold Object, object. cbn [ValueOf typ e_typ e_data Type_Kind object_at].
    change (hasPtrs (PtrTo t)) with true. cbv iota. fold val.
    assert (Value_Len val m = (m, Ok n)) as HLen.
    { unfold Value_Len, val. cbn [typ Value_bytes stor].
      by rewrite bind_unfold, !ret_unfold, Hn. }
    assert ((len ← Value_Len val;
             for_each (seqZ 0 len) (λ i,
               dst ← Value_Index val i;
               src ← Value_Index val i;
               x ← object_at (PtrTo t) src;
               Value_Set dst x)) m = (mn, Ok tt)) as Hwalk.
    { by rewrite (bind_step _ _ _ _ _ HLen). }
    rewrite bind_unfold.
    rewrite (bind_step _ _ _ _ _ Hwalk).
    rewrite (bind_step _ _ _ _ _ (Value_Interface_Ok val mn h eq_refl eq_refl)).
    cbn [typ val].
    assert (copyAndFreeze (word0 h)
              (uintptr (Type_Size (PtrTo t) * uintptr (int (word1 h)))) mn
            = (m', Ok (brk mn))) as Hc'.
    { cbn [Type_Size]. rewrite Hn, (uintptr_small n) by lia.
      rewrite uintptr_small by lia. by rewrite (Z.mul_comm 8 n). }
    rewrite (bind_step _ _ _ _ _ (Slice_Ok _ _ _ _ _ Hc')).
    by rewrite ret_unfold, Interface_ValueOf. }
  cbn [e_data]. cbv zeta.
  rewrite word0_set_word0 by lia.
  split; [lia|]. intros i bs Hbs.
  assert (i < length ws)%nat as Hi.
  { rewrite <- Hlen. by eapply lookup_lt_Some. }
  destruct (Hdone i bs Hi Hbs) as (H1 & H2 & H3).
  pose proof (region_below i (length ws) R HR Hi) as Hreg. fold n in Hreg.
  destruct (lookup_lt_is_Some_2 ws i Hi) as [w Hw].
  split; [|split; [|split; [|split; [|split]]]].
  - rewrite (loads_part mn d (n * 8) arr m' (brk mn) (Z.of_nat i * 8) 8
               Harr Hl') by lia.
    exact H1.
  - intros x Hx. apply Hro'. lia.
  - rewrite Hsame by lia. exact H2.
  - intros x Hx. unfold readonly, prot_at. rewrite Hfr' by lia.
    apply H3. lia.
  - rewrite Hw. by apply Hws.
  - rewrite Hsame by lia. exact H1.
Qed.

(** The theorem at a, b := 1, 2; Object([]*int{&a, &b}). *)
Lemma Object_freezes_slice_of_pointers_witness :
  let m := mem_two_ptrs in
  let t := Scalar SInt in
  let h := slice_header 0x10010 2 2 in
  let ws := [ptr 0x10000; ptr 0x10008] in
  let bss := [le_split 8 1; le_split 8 2] in
  let d := word0 h in
  let n := Z.of_nat (length ws) in
  let sz := Type_Size t in
  let R := round_up sz in
  ∃ m' e,
    Object (RT := no_map_runtime) (Some (mkEface (SliceOf (PtrTo t)) h)) m
    = (m', Ok (Some e)) ∧
    e_typ e = SliceOf (PtrTo t) ∧
    word1 (e_data e) = word1 h ∧ word2 (e_data e) = word2 h ∧
    let d' := word0 (e_data e) in
    d' = brk m + n * R ∧
    ∀ (i : nat) bs, bss !! i = Some bs →
      let q' := brk m + Z.of_nat i * R in
      loads m' (d' + Z.of_nat i * 8) 8 = Some (le_split 8 q') ∧
      (∀ x, d' + Z.of_nat i * 8 ≤ x < d' + Z.of_nat i * 8 + 8 → readonly m' x) ∧
      loads m' q' sz = Some bs ∧
      (∀ x, q' ≤ x < q' + sz → readonly m' x) ∧
      loads m (d + Z.of_nat i * 8) 8 = ws !! i ∧
      loads m' (d + Z.of_nat i * 8) 8 = Some (le_split 8 q').
Proof.
  intros m t h ws bss d n sz R.
  assert (d = 0x10010) as Ed by by vm_compute.
  assert (word0 (ptr 0x10000) = 0x10000) as E0 by by vm_compute.
  assert (word0 (ptr 0x10008) = 0x10008) as E1 by by vm_compute.
  apply (Object_freezes_slice_of_pointers (RT := no_map_runtime) m t h ws bss).
  - apply wf_mem_two_ptrs.
  - reflexivity.
  - by vm_compute.
  - simpl. lia.
  - reflexivity.
  - by vm_compute.
  - intros x Hx. fold d in Hx. rewrite Ed in Hx. apply writable_mem_of.
    apply Exists_cons_tl, Exists_cons_tl, Exists_cons_hd. simpl in *. lia.
  - fold d. rewrite Ed. intros [|[|i]] w Hw; [| |discriminate Hw].
    + injection Hw as <-. split; [by vm_compute|]. left. rewrite E0. simpl. lia.
    + injection Hw as <-. split; [by vm_compute|]. left. rewrite E1. simpl. lia.
  - intros [|[|i]] w bs Hw Hbs; [| |discriminate Hw].
    + injection Hw as <-. injection Hbs as <-. by vm_compute.
    + injection Hw as <-. injection Hbs as <-. by vm_compute.
  - by vm_compute.
Defined.

End SliceOfPointers.
